(** * Retrieval and ranking core of the Rabbi Nachman voice assistant

    A shallow embedding of the JavaScript sources
      - [src/routes/query.js]           (result fusion, budget selection, /ask,
                                         /search)
      - [src/services/master-index.js]  (term index, importance score, rebuild)
      - [src/services/database.js]      (the schema of [master_index])
      - [src/services/vector-search.js] (similarity search, batch store)
      - [src/services/chunker.js]       (semantic chunking, overlap,
                                         section extraction)
      - [src/services/openrouter.js]    (citations, confidence)
      - [src/utils/logger.js]           (level filter)
    followed by the vocabulary of the statements and by the properties of
    the specification that were checked against the embedding.

    Conventions.  JavaScript numbers that hold scores are modelled by exact
    rationals [Q]; the concrete scenarios are evaluated a second time in
    IEEE binary64 ([PrimFloat]) so that the idealisation is visible where it
    could matter, and the overlap size of the chunker is computed in
    binary64 throughout.  Token counts are integers ([Z]).  Maps and sets
    of JavaScript iterate in insertion order, which the code observes, so
    they are association lists and duplicate-free lists.  Calls that leave
    the process (language model, embedding provider, store) are given by
    their outcomes. *)

From Stdlib Require Import List ZArith QArith Qminmax Bool Lia Lqa Permutation.
From Stdlib Require Import String Ascii DecimalString.
From Stdlib Require Import Floats Sorted.
Import ListNotations.

Set Implicit Arguments.

(* ===================================================================== *)
(** * Promises                                                            *)
(* ===================================================================== *)

Module JS.

(** The settled state of a promise: fulfilled with a value or rejected
    with an [Error] whose message is kept. *)
Inductive outcome (A : Type) : Type :=
| Resolved (a : A)
| Rejected (message : string).

Arguments Resolved {A} a.
Arguments Rejected {A} message.

Definition bind {A B} (m : outcome A) (k : A -> outcome B) : outcome B :=
  match m with
  | Resolved a => k a
  | Rejected e => Rejected e
  end.

(** [try { body } catch (error) { handler(error.message) }] *)
Definition try_catch {A} (body : outcome A) (handler : string -> outcome A)
  : outcome A :=
  match body with
  | Resolved a => Resolved a
  | Rejected e => handler e
  end.

(** [Promise.all([p1, p2, p3])]: fulfilled with the three values when all
    three fulfil, rejected as soon as one of them rejects.  The three
    promises are settled values here, so the rejection reported is the
    first one in array order. *)
Definition promise_all3 {A B C} (p1 : outcome A) (p2 : outcome B)
  (p3 : outcome C) : outcome (A * B * C) :=
  match p1, p2, p3 with
  | Resolved a, Resolved b, Resolved c => Resolved (a, b, c)
  | Rejected e, _, _ => Rejected e
  | _, Rejected e, _ => Rejected e
  | _, _, Rejected e => Rejected e
  end.

Definition is_rejected {A} (m : outcome A) : bool :=
  match m with Rejected _ => true | Resolved _ => false end.

(** ** [Map] with string keys

    A [Map] iterates in insertion order and [set] on a present key keeps
    the key's position, so it is an association list. *)

Section StringMap.

Variable V : Type.

Definition smap := list (string * V).

(** [m.get(k)] *)
Fixpoint map_get (m : smap) (k : string) : option V :=
  match m with
  | [] => None
  | (k', v) :: m' => if String.eqb k' k then Some v else map_get m' k
  end.

(** [m.has(k)] *)
Definition map_has (m : smap) (k : string) : bool :=
  match map_get m k with Some _ => true | None => false end.

(** [m.set(k, v)] *)
Fixpoint map_set (m : smap) (k : string) (v : V) : smap :=
  match m with
  | [] => [(k, v)]
  | (k', v') :: m' =>
      if String.eqb k' k then (k', v) :: m' else (k', v') :: map_set m' k v
  end.

(** A mutation [f] of the object that [m.get(k)] returns. *)
Fixpoint map_update (m : smap) (k : string) (f : V -> V) : smap :=
  match m with
  | [] => []
  | (k', v) :: m' =>
      if String.eqb k' k then (k', f v) :: m' else (k', v) :: map_update m' k f
  end.

(** [Array.from(m.values())] *)
Definition map_values (m : smap) : list V := List.map snd m.

Definition map_keys (m : smap) : list string := List.map fst m.

End StringMap.

End JS.

Declare Scope js_scope.
Notation "x <- m ;; k" := (JS.bind m (fun x => k))
  (at level 61, m at next level, right associativity) : js_scope.

(* ===================================================================== *)
(** * Result fusion and budget selection ([src/routes/query.js])          *)
(* ===================================================================== *)

Module Fusion.

Import JS.

(** The [source] tag written by [combineSearchResults]. *)
Inductive provenance := Vector | Master | Theme.

(** A chunk as the three retrieval streams return it.  [token_count] is a
    nullable INTEGER column; [source] is absent until fusion sets it.  The
    remaining columns travel unchanged through the object spread and are
    represented by [exact_reference].  [score] is a finite number; the
    [NaN] that [parseFloat] returns for a [NULL] score has no chunk here
    (see [SimilarityRows.results_of]). *)
Record chunk := mkChunk {
  id : string;
  exact_reference : string;
  token_count : option Z;
  score : Q;
  source : option provenance
}.

Definition with_score (c : chunk) (s : Q) (src : option provenance) : chunk :=
  {| id := id c; exact_reference := exact_reference c;
     token_count := token_count c; score := s; source := src |}.

(** The [Map] from chunk id to fused chunk. *)
Definition jsmap := smap chunk.

(** [combined.get(k).score += boost] *)
Definition map_boost (m : jsmap) (k : string) (boost : Q) : jsmap :=
  map_update m k (fun v => with_score v (score v + boost) (source v)).

(** ** [Array.prototype.sort((a, b) => b.score - a.score)]

    The sort is stable; [a] stays in front of a later [b] unless
    [b.score - a.score > 0].  The comparator is a consistent order on
    scores, so every stable sort returns the list that this insertion
    sort returns. *)

Fixpoint insert_desc (x : chunk) (sorted : list chunk) : list chunk :=
  match sorted with
  | [] => [x]
  | y :: rest =>
      match (score x ?= score y)%Q with
      | Gt => x :: y :: rest
      | _ => y :: insert_desc x rest
      end
  end.

Definition sort_desc (l : list chunk) : list chunk :=
  fold_left (fun acc x => insert_desc x acc) l [].

(** ** [combineSearchResults] *)

Definition add_vector (combined : jsmap) (c : chunk) : jsmap :=
  map_set combined (id c) (with_score c (score c * 1) (Some Vector)).

Definition add_master (combined : jsmap) (c : chunk) : jsmap :=
  if map_has combined (id c)
  then map_boost combined (id c) (3 # 10)
  else map_set combined (id c) (with_score c (7 # 10) (Some Master)).

Definition add_theme (combined : jsmap) (c : chunk) : jsmap :=
  if map_has combined (id c)
  then map_boost combined (id c) (2 # 10)
  else map_set combined (id c) (with_score c (5 # 10) (Some Theme)).

Definition combine_map (searchResults : list chunk * list chunk * list chunk)
  : jsmap :=
  let '(masterResults, vectorResults, themeResults) := searchResults in
  let combined := fold_left add_vector vectorResults [] in
  let combined := fold_left add_master masterResults combined in
  fold_left add_theme themeResults combined.

Definition combineSearchResults
  (searchResults : list chunk * list chunk * list chunk) : list chunk :=
  sort_desc (map_values (combine_map searchResults)).

(** ** [selectBestChunks] *)

(** [parseInt(process.env.MAX_CONTEXT_TOKENS) || 800000]: [None] is the
    [NaN] of an unset or non-numeric variable; [0] is falsy as well. *)
Definition maxTokens (env_MAX_CONTEXT_TOKENS : option Z) : Z :=
  match env_MAX_CONTEXT_TOKENS with
  | Some n => if (n =? 0)%Z then 800000%Z else n
  | None => 800000%Z
  end.

(** The numeric value of [chunk.token_count] under [+]: [null] counts 0. *)
Definition tokens (c : chunk) : Z :=
  match token_count c with Some n => n | None => 0%Z end.

Fixpoint select_loop (limit : Z) (results : list chunk) (totalTokens : Z)
  (selectedChunks : list chunk) : list chunk :=
  match results with
  | [] => selectedChunks
  | c :: rest =>
      let fits := (totalTokens + tokens c <? limit)%Z in
      let selectedChunks' :=
        if fits then selectedChunks ++ [c] else selectedChunks in
      let totalTokens' :=
        if fits then (totalTokens + tokens c)%Z else totalTokens in
      if (20 <=? List.length selectedChunks')%nat
      then selectedChunks'
      else select_loop limit rest totalTokens' selectedChunks'
  end.

Definition selectBestChunks (env_MAX_CONTEXT_TOKENS : option Z)
  (results : list chunk) : list chunk :=
  select_loop (maxTokens env_MAX_CONTEXT_TOKENS) results 0%Z [].

End Fusion.

(* ===================================================================== *)
(** * The scores of the similarity search
      ([src/services/vector-search.js])                                   *)
(* ===================================================================== *)

Module SimilarityRows.

Import JS Fusion.

(** A JavaScript number as far as fusion can tell numbers apart: a finite
    value or [NaN]. *)
Inductive js_number :=
| Finite (q : Q)
| NaN.

(** [parseFloat(row.score)].  The column is [1 - distance], which is
    [NULL] for a row whose embedding is [NULL], and [parseFloat(null)] is
    [NaN]. *)
Definition parseFloat (column : option Q) : js_number :=
  match column with
  | Some q => Finite q
  | None => NaN
  end.

(** A row of the similarity SELECT, with the columns that fusion reads. *)
Record similarity_row := mkSimilarityRow {
  row_id : string;
  row_exact_reference : string;
  row_token_count : option Z;
  row_score : option Q
}.

(** The object that [search] maps a row to.  With a score of [NaN] the
    comparator [b.score - a.score] of [combineSearchResults] returns
    [NaN], it is no consistent comparator any more and the order in
    which [sort] leaves the list is implementation-defined: fusion is
    modelled for finite scores, and such a row has no chunk. *)
Definition result_of (row : similarity_row) : option chunk :=
  match parseFloat (row_score row) with
  | Finite q =>
      Some (mkChunk (row_id row) (row_exact_reference row)
              (row_token_count row) q None)
  | NaN => None
  end.

(** [result.rows.map(row => ...)], when every score is finite. *)
Fixpoint results_of (rows : list similarity_row) : option (list chunk) :=
  match rows with
  | [] => Some []
  | row :: rows' =>
      match result_of row, results_of rows' with
      | Some c, Some cs => Some (c :: cs)
      | _, _ => None
      end
  end.

End SimilarityRows.

(* ===================================================================== *)
(** * Master index ([src/services/master-index.js], schema in
      [src/services/database.js])                                         *)
(* ===================================================================== *)

Module MasterIndex.

Import JS.
Open Scope string_scope.
Open Scope list_scope.

(** ** Importance score *)

Definition calculateImportanceScore (frequency bookCount : Q) : Q :=
  let frequencyScore := Qmin (frequency / 10) 1 in
  let distributionScore := Qmin (bookCount / 5) 1 in
  frequencyScore * (7 # 10) + distributionScore * (3 # 10).

(** ** Rows *)

(** A row of [SELECT tc.id, tc.themes, tc.keywords, tc.exact_reference,
    tc.hebrew_text, b.title as book_title FROM text_chunks tc JOIN books b].
    [themes] and [keywords] are nullable [TEXT[]] columns. *)
Record chunk_row := mkChunkRow {
  chunk_id : string;
  themes : option (list string);
  keywords : option (list string);
  exact_reference : string;
  book_title : string
}.

(** A row of [master_index].  The generated [id], [created_at], the
    constant [cross_references = {}] and [hebrew_term] (a table lookup on
    the term alone) take no part in what follows and are left out. *)
Record index_row := mkIndexRow {
  index_type : string;
  key_term : string;
  related_chunks : list string;
  book_references : list string;
  frequency : Z;
  importance_score : Q
}.

(** ** The per-term accumulator: [{ chunks: [], books: new Set(), frequency: 0 }] *)

Record term_data := mkTermData {
  td_chunks : list string;
  td_books : list string;      (* a [Set]: duplicate-free, insertion order *)
  td_frequency : Z
}.

Definition empty_term_data : term_data := mkTermData [] [] 0.

Fixpoint mem (x : string) (l : list string) : bool :=
  match l with
  | [] => false
  | y :: l' => if String.eqb y x then true else mem x l'
  end.

(** [Set.prototype.add] *)
Definition set_add (s : list string) (x : string) : list string :=
  if mem x s then s else s ++ [x].

(** [Map] from term to accumulator. *)
Definition term_map := smap term_data.

(** The body shared by the two inner loops of [buildIndexFromChunks]. *)
Definition record_occurrence (chunk : chunk_row) (m : term_map) (term : string)
  : term_map :=
  let m := if map_has m term then m else map_set m term empty_term_data in
  map_update m term (fun d =>
    mkTermData (td_chunks d ++ [chunk_id chunk])
               (set_add (td_books d) (book_title chunk))
               (td_frequency d + 1)).

Definition process_chunk (maps : term_map * term_map) (chunk : chunk_row)
  : term_map * term_map :=
  let '(themeMap, keywordMap) := maps in
  let themeMap :=
    match themes chunk with
    | Some ts => fold_left (record_occurrence chunk) ts themeMap
    | None => themeMap
    end in
  let keywordMap :=
    match keywords chunk with
    | Some ks => fold_left (record_occurrence chunk) ks keywordMap
    | None => keywordMap
    end in
  (themeMap, keywordMap).

Definition build_maps (chunks : list chunk_row) : term_map * term_map :=
  fold_left process_chunk chunks ([], []).

(** The argument of [addIndexEntry] for one map entry. *)
Definition entry_of (type : string) (e : string * term_data) : index_row :=
  let '(term, data) := e in
  mkIndexRow type term (td_chunks data) (td_books data) (td_frequency data)
    (calculateImportanceScore
       (inject_Z (td_frequency data))
       (inject_Z (Z.of_nat (List.length (td_books data))))).

(** ** The store *)

(** What [createTables] declares for a table: the column lists of its
    unique indexes (primary key included). *)
Record table_schema := mkSchema { unique_indexes : list (list string) }.

(** [CREATE TABLE master_index (id UUID PRIMARY KEY, ...)] followed by the
    plain [CREATE INDEX idx_master_index_key ON master_index(key_term,
    index_type)]: the only unique index is the primary key. *)
Definition master_index_as_created : table_schema := mkSchema [["id"]].

(** The same table with [UNIQUE (key_term, index_type)] added. *)
Definition master_index_with_unique_key : table_schema :=
  mkSchema [["id"]; ["key_term"; "index_type"]].

Definition same_columns (a b : list string) : bool :=
  forallb (fun c => mem c b) a && forallb (fun c => mem c a) b.

(** PostgreSQL accepts [ON CONFLICT (columns)] only when a unique index on
    exactly these columns exists; otherwise the statement is rejected. *)
Definition infer_arbiter (schema : table_schema) (target : list string) : bool :=
  existsb (same_columns target) (unique_indexes schema).

(** The store as the rebuild sees it.  Every statement goes through
    [pool.query] without a transaction, so each one commits on its own.
    [statements_left] counts the statements the connection still serves
    ([None]: it never fails); it is how an interrupted rebuild is told. *)
Record store := mkStore {
  master_index : list index_row;
  text_chunks : list chunk_row;
  statements_left : option nat
}.

Definition DB (A : Type) : Type := store -> outcome A * store.

Definition ret {A} (a : A) : DB A := fun st => (Resolved a, st).

Definition bindDB {A B} (m : DB A) (k : A -> DB B) : DB B :=
  fun st =>
    match m st with
    | (Resolved a, st') => k a st'
    | (Rejected e, st') => (Rejected e, st')
    end.

Notation "x <-- m ;; k" := (bindDB m (fun x => k))
  (at level 61, m at next level, right associativity).

(** [await this.pool.query(statement)] *)
Definition pool_query {A} (statement : store -> outcome A * store) : DB A :=
  fun st =>
    match statements_left st with
    | Some O => (Rejected "Connection terminated unexpectedly", st)
    | Some (S n) =>
        statement (mkStore (master_index st) (text_chunks st) (Some n))
    | None => statement st
    end.

(** [DELETE FROM master_index] *)
Definition delete_master_index (st : store) : outcome unit * store :=
  (Resolved tt, mkStore [] (text_chunks st) (statements_left st)).

(** [SELECT ... FROM text_chunks tc JOIN books b ON tc.book_id = b.id] *)
Definition select_chunks (st : store) : outcome (list chunk_row) * store :=
  (Resolved (text_chunks st), st).

Definition same_key (a b : index_row) : bool :=
  String.eqb (key_term a) (key_term b) && String.eqb (index_type a) (index_type b).

(** [DO UPDATE SET related_chunks = EXCLUDED.related_chunks, ...] on the
    conflicting row, or a plain insert at the end. *)
Fixpoint upsert (table : list index_row) (new : index_row) : list index_row :=
  match table with
  | [] => [new]
  | old :: table' =>
      if same_key old new
      then mkIndexRow (index_type old) (key_term old) (related_chunks new)
             (book_references new) (frequency new) (importance_score new)
           :: table'
      else old :: upsert table' new
  end.

(** [INSERT INTO master_index (...) VALUES (...)
     ON CONFLICT (key_term, index_type) DO UPDATE SET ...] *)
Definition insert_on_conflict (schema : table_schema) (row : index_row)
  (st : store) : outcome unit * store :=
  if infer_arbiter schema ["key_term"; "index_type"]
  then (Resolved tt,
        mkStore (upsert (master_index st) row) (text_chunks st)
                (statements_left st))
  else (Rejected
          "there is no unique or exclusion constraint matching the ON CONFLICT specification",
        st).

(** [addIndexEntry]: the [catch] logs and rethrows. *)
Definition addIndexEntry (schema : table_schema) (indexData : index_row)
  : DB unit :=
  pool_query (insert_on_conflict schema indexData).

(** [for (const [term, data] of map) await this.addIndexEntry({...})] *)
Fixpoint insert_entries (schema : table_schema) (type : string) (m : term_map)
  : DB unit :=
  match m with
  | [] => ret tt
  | e :: m' =>
      _ <-- addIndexEntry schema (entry_of type e) ;;
      insert_entries schema type m'
  end.

(** [buildIndexFromChunks]: the [catch] logs and rethrows. *)
Definition buildIndexFromChunks (schema : table_schema) : DB unit :=
  _ <-- pool_query delete_master_index ;;
  chunks <-- pool_query select_chunks ;;
  let '(themeMap, keywordMap) := build_maps chunks in
  _ <-- insert_entries schema "theme" themeMap ;;
  _ <-- insert_entries schema "concept" keywordMap ;;
  ret tt.

End MasterIndex.

(* ===================================================================== *)
(** * The /ask query path ([src/routes/query.js],
      [src/services/vector-search.js], [src/services/master-index.js])    *)
(* ===================================================================== *)

Module Query.

Import JS Fusion.
Open Scope string_scope.
Open Scope list_scope.
Open Scope js_scope.

(** The value returned by [openrouter.analyzeQuery]: the output of
    [JSON.parse] on the answer of the language model, which nothing
    validates.  A property holds what the prompt asks for (strings, a
    string) or is [None], which stands for a property that is missing or
    [null]; a parse result that is no object has none of them. *)
Record query_analysis := mkAnalysis {
  themes : option (list string);
  suspected_books : option (list string);
  key_terms : option (list string);
  hebrew_query : option string
}.

Record answer := mkAnswer {
  answer_text : string;
  confidence : Q;
  citations : list string
}.

(** Everything the handler reaches over the network, given by the outcome
    of each call: the language-model and embedding provider, and the
    result sets of the SELECT statements sent to the store. *)
Record world := mkWorld {
  analyzeQuery : string -> outcome query_analysis;
  (** the embedding of the query text, which the handler passes on as the
      analysis holds it *)
  generateEmbedding : option string -> outcome (list Q);
  (** the similarity SELECT: embedding, LIMIT *)
  nearest_chunks : list Q -> Z -> outcome (list chunk);
  (** [related_chunks] of the [master_index] rows matching a term and type *)
  index_rows : string -> option string -> outcome (list (option (list string)));
  (** [text_chunks] rows [WHERE tc.id = ANY($1)], scored 0.7 *)
  chunks_by_ids : list string -> outcome (list chunk);
  (** the first 50 chunks of the books matching a name, scored 0.8 *)
  chunks_of_book : string -> outcome (list chunk);
  generatePreciseAnswer :
    string -> list chunk -> query_analysis -> outcome answer;
  env_MAX_CONTEXT_TOKENS : option Z
}.

(** ** [VectorSearchService.search] *)

Definition vector_search (w : world) (query : option string) (limit : Z)
  : outcome (list chunk) :=
  try_catch
    (queryEmbedding <- generateEmbedding w query ;;
     rows <- nearest_chunks w queryEmbedding limit ;;
     Resolved rows)
    (fun message => Rejected (String.append "Vector search failed: " message)).

(** ** [MasterIndexService] lookups *)

Definition getChunksByIds (w : world) (chunkIds : list string)
  : outcome (list chunk) :=
  match chunkIds with
  | [] => Resolved []
  | _ => try_catch (chunks_by_ids w chunkIds) (fun _ => Resolved [])
  end.

Definition collect_ids (rows : list (option (list string))) : list string :=
  fold_left
    (fun chunkIds related_chunks =>
       match related_chunks with
       | Some ids => chunkIds ++ ids
       | None => chunkIds
       end)
    rows [].

Definition searchByTerm (w : world) (term : string) (indexType : option string)
  : outcome (list chunk) :=
  try_catch
    (rows <- index_rows w term indexType ;;
     let chunkIds := collect_ids rows in
     match chunkIds with
     | [] => Resolved []
     | _ => getChunksByIds w chunkIds
     end)
    (fun _ => Resolved []).

Definition searchByBook (w : world) (bookName : string)
  : outcome (list chunk) :=
  try_catch (chunks_of_book w bookName) (fun _ => Resolved []).

(** [for (const x of xs) results.push(...(await lookup(x)))] *)
Fixpoint gather (lookup : string -> outcome (list chunk)) (xs : list string)
  (results : list chunk) : outcome (list chunk) :=
  match xs with
  | [] => Resolved results
  | x :: xs' =>
      found <- lookup x ;;
      gather lookup xs' (results ++ found)
  end.

Fixpoint dedup_from (seen : list string) (results : list chunk) : list chunk :=
  match results with
  | [] => []
  | r :: rest =>
      if existsb (String.eqb (id r)) seen
      then dedup_from seen rest
      else r :: dedup_from (id r :: seen) rest
  end.

Definition deduplicateResults (results : list chunk) : list chunk :=
  dedup_from [] results.

Definition truthy_number (q : Q) : bool := negb (Qeq_bool q 0).

(** [results.sort((a, b) => (a.score && b.score) ? b.score - a.score : 0)],
    as a stable insertion sort.  The lookups above score their rows 0.7
    or 0.8, never 0, so the comparator is a consistent order here. *)
Fixpoint insert_by_importance (x : chunk) (sorted : list chunk) : list chunk :=
  match sorted with
  | [] => [x]
  | y :: rest =>
      if truthy_number (score y) && truthy_number (score x)
      then match (score x ?= score y)%Q with
           | Gt => x :: y :: rest
           | _ => y :: insert_by_importance x rest
           end
      else y :: insert_by_importance x rest
  end.

Definition sortByImportance (results : list chunk) : list chunk :=
  fold_left (fun acc x => insert_by_importance x acc) results [].

(** [for (const x of value)]: a value that is missing or [null] is not
    iterable, and the loop throws a [TypeError]. *)
Definition iterate (name : string) (value : option (list string))
  : outcome (list string) :=
  match value with
  | Some xs => Resolved xs
  | None => Rejected (String.append name " is not iterable")
  end.

(** [value.length] throws on a value that is missing or [null]. *)
Definition length_of (value : option (list string)) : outcome nat :=
  match value with
  | Some xs => Resolved (List.length xs)
  | None => Rejected "Cannot read properties of undefined (reading 'length')"
  end.

(** [themes] and [suspected_books] are iterated as they are; only
    [key_terms] is guarded by [|| []]. *)
Definition search (w : world) (queryAnalysis : query_analysis)
  : outcome (list chunk) :=
  ts <- iterate "queryAnalysis.themes" (themes queryAnalysis) ;;
  results <- gather (fun theme => searchByTerm w theme (Some "theme")) ts [] ;;
  books <- iterate "queryAnalysis.suspected_books"
             (suspected_books queryAnalysis) ;;
  results <- gather (searchByBook w) books results ;;
  results <- gather (fun term => searchByTerm w term (Some "concept"))
               (match key_terms queryAnalysis with
                | Some ts => ts
                | None => []
                end) results ;;
  Resolved (sortByImportance (deduplicateResults results)).

Definition searchByThemes (w : world) (themes : option (list string))
  : outcome (list chunk) :=
  ts <- iterate "themes" themes ;;
  results <- gather (fun theme => searchByTerm w theme (Some "theme")) ts [] ;;
  Resolved (deduplicateResults results).

(** ** The handler of [POST /api/query/ask]

    [initServices()] is taken to have succeeded; the [logger] calls and
    the unused audio step are left out.  Every exception inside the
    handler's [try] ends in the 500 response. *)

Inductive response :=
| BadRequest                                   (* 400 *)
| NoInformation (suggestions : list string)    (* 200, confidence 0 *)
| Answered (a : answer) (chunks_used : nat)    (* 200 *)
| InternalError (debug : string).              (* 500 *)

Fixpoint join (sep : string) (l : list string) : string :=
  match l with
  | [] => ""
  | [x] => x
  | x :: rest => String.append x (String.append sep (join sep rest))
  end.

Definition generateSuggestions (queryAnalysis : query_analysis)
  : outcome (list string) :=
  _ <- length_of (suspected_books queryAnalysis) ;;
  _ <- length_of (themes queryAnalysis) ;;
  Resolved
    ((match suspected_books queryAnalysis with
      | Some (b :: _) => [String.append "Essayez de chercher dans " b]
      | _ => []
      end)
     ++ (match themes queryAnalysis with
         | Some ((_ :: _) as ts) =>
             [String.append "Recherchez des enseignements sur: " (join ", " ts)]
         | _ => []
         end)
     ++ ["Reformulez votre question avec des termes plus généraux";
         "Vérifiez l'orthographe des noms et termes hébreux"]).

(** Step 2 of the handler: the three retrieval calls under [Promise.all]. *)
Definition retrieve (w : world) (queryAnalysis : query_analysis)
  (maxResults : Z) : outcome (list chunk * list chunk * list chunk) :=
  promise_all3
    (search w queryAnalysis)
    (vector_search w (hebrew_query queryAnalysis) maxResults)
    (searchByThemes w (themes queryAnalysis)).

Definition ask (w : world) (question : string) (maxResults : Z) : response :=
  match question with
  | "" => BadRequest
  | _ =>
      match
        (queryAnalysis <- analyzeQuery w question ;;
         searchResults <- retrieve w queryAnalysis maxResults ;;
         let combinedResults := combineSearchResults searchResults in
         let topChunks :=
           selectBestChunks (env_MAX_CONTEXT_TOKENS w) combinedResults in
         match topChunks with
         | [] =>
             suggestions <- generateSuggestions queryAnalysis ;;
             Resolved (NoInformation suggestions)
         | _ =>
             r <- generatePreciseAnswer w question topChunks queryAnalysis ;;
             Resolved (Answered r (List.length topChunks))
         end)
      with
      | Resolved r => r
      | Rejected message => InternalError message
      end
  end.

End Query.

(* ===================================================================== *)
(** * Semantic chunking ([src/services/chunker.js])                        *)
(* ===================================================================== *)

Module Chunker.

Import JS.
Open Scope Z_scope.
Open Scope list_scope.

(** ** Strings

    A JavaScript string is a sequence of UTF-16 code units; [length],
    [split], [trim] and [substring] all count code units. *)

Definition char := N.
Definition jsstring := list char.

(** An ASCII literal. *)
Definition lit (s : string) : jsstring :=
  List.map N_of_ascii (list_ascii_of_string s).

(** A value used as a condition: a string is truthy when it is not empty. *)
Definition truthy (s : jsstring) : bool :=
  match s with [] => false | _ :: _ => true end.

(** The class [\s] of regular expressions, which is also what [trim]
    strips: WhiteSpace and LineTerminator code points. *)
Definition is_space (c : char) : bool :=
  ((9 <=? c) && (c <=? 13) || (c =? 32) || (c =? 160) || (c =? 5760)
   || (8192 <=? c) && (c <=? 8202) || (c =? 8232) || (c =? 8233)
   || (c =? 8239) || (c =? 8287) || (c =? 12288) || (c =? 65279))%N.

Definition newline : char := 10%N.

(** Reversal in one pass. *)
Definition reverse (s : jsstring) : jsstring := rev_append s [].

Fixpoint trim_start (s : jsstring) : jsstring :=
  match s with
  | [] => []
  | c :: s' => if is_space c then trim_start s' else s
  end.

Definition trim_end (s : jsstring) : jsstring := reverse (trim_start (reverse s)).

Definition trim (s : jsstring) : jsstring := trim_end (trim_start s).

(** [parts.join(sep)] *)
Fixpoint join (sep : jsstring) (parts : list jsstring) : jsstring :=
  match parts with
  | [] => []
  | [x] => x
  | x :: rest => x ++ sep ++ join sep rest
  end.

(** [text.split(/c+/)] for a character class [c]: the pieces between the
    maximal runs of separator characters.  [piece] holds the current piece
    reversed; [in_run] tells that the previous character was a separator. *)
Fixpoint split_runs (sep : char -> bool) (s : jsstring) (piece : jsstring)
  (in_run : bool) : list jsstring :=
  match s with
  | [] => [reverse piece]
  | c :: s' =>
      if sep c
      then if in_run
           then split_runs sep s' piece true
           else reverse piece :: split_runs sep s' [] true
      else split_runs sep s' (c :: piece) false
  end.

(** [content.split(/\s+/)] *)
Definition split_whitespace (s : jsstring) : list jsstring :=
  split_runs is_space s [] false.

(** The class of [splitIntoSentences]: full stop, exclamation mark,
    question mark, sof pasuq (U+05C3) and paseq (U+05C0). *)
Definition is_terminator (c : char) : bool :=
  ((c =? 46) || (c =? 33) || (c =? 63) || (c =? 1475) || (c =? 1472))%N.

Definition non_blank (s : jsstring) : bool := truthy (trim s).

(** [text.split(/[terminators]+/).filter(s => s.trim().length > 0)] *)
Definition splitIntoSentences (text : jsstring) : list jsstring :=
  List.filter non_blank (split_runs is_terminator text [] false).

(** [text.split(/\n\s*\n/)].  A match starts at a newline and, [\s*] being
    greedy, ends at the last newline of the whitespace run that follows;
    without a second newline in that run there is no match.

    [piece] is the current piece reversed.  [pending] is [None] outside a
    candidate match; inside one it holds, reversed, the whitespace read
    since the last newline, and [matched] tells whether a second newline
    has been read. *)
Fixpoint split_blank_lines (s : jsstring) (piece : jsstring)
  (pending : option jsstring) (matched : bool) : list jsstring :=
  match s with
  | [] =>
      match pending with
      | None => [reverse piece]
      | Some ws =>
          if matched then [reverse piece; reverse ws]
          else [reverse (ws ++ newline :: piece)]
      end
  | c :: s' =>
      match pending with
      | None =>
          if (c =? newline)%N
          then split_blank_lines s' piece (Some []) false
          else split_blank_lines s' (c :: piece) None false
      | Some ws =>
          if (c =? newline)%N
          then split_blank_lines s' piece (Some []) true
          else if is_space c
          then split_blank_lines s' piece (Some (c :: ws)) matched
          else if matched
          then reverse piece :: split_blank_lines s' (c :: ws) None false
          else split_blank_lines s' (c :: ws ++ newline :: piece) None false
      end
  end.

(** [text.split(/\n\s*\n/).filter(p => p.trim().length > 0)] *)
Definition splitIntoParagraphs (text : jsstring) : list jsstring :=
  List.filter non_blank (split_blank_lines text [] None false).

(** [Math.ceil(text.length / 4)] *)
Definition estimateTokenCount (text : jsstring) : Z :=
  (Z.of_nat (List.length text) + 3) / 4.

(** [text.substring(0, n)] *)
Definition substring0 (n : nat) (text : jsstring) : jsstring := firstn n text.

(** The decimal rendering of an integer in a template literal. *)
Definition decimal (z : Z) : jsstring :=
  lit (NilZero.string_of_int (Z.to_int z)).

(** The value of a section's [hebrew_text] / [english_text]: an array of
    strings, a string, or nothing ([undefined], as in the calls of
    [intelligentSplit]). *)
Inductive text_value :=
| TextArray (parts : list jsstring)
| TextString (s : jsstring)
| TextAbsent.

Definition combineTexts (hebrew english : text_value) : jsstring :=
  let combined :=
    match hebrew with
    | TextArray ((_ :: _) as parts) => join (lit " ") parts
    | TextArray [] => []
    | TextString s => s
    | TextAbsent => []
    end in
  let glue (combined : jsstring) :=
    if truthy combined then combined ++ [newline; newline] else combined in
  match english with
  | TextArray ((_ :: _) as parts) => glue combined ++ join (lit " ") parts
  | TextArray [] => combined
  | TextString s => glue combined ++ s
  | TextAbsent => combined
  end.

(** The class [[\u0590-\u05FF\u200F\u200E\s]]. *)
Definition is_hebrew_or_space (c : char) : bool :=
  ((1424 <=? c) && (c <=? 1535) || (c =? 8207) || (c =? 8206))%N || is_space c.

(** [content.match(/[...]+/g)]: the maximal non-empty runs of the class. *)
Fixpoint match_runs (cls : char -> bool) (s : jsstring) (run : jsstring)
  : list jsstring :=
  match s with
  | [] => if truthy run then [reverse run] else []
  | c :: s' =>
      if cls c then match_runs cls s' (c :: run)
      else if truthy run then reverse run :: match_runs cls s' []
      else match_runs cls s' []
  end.

Definition extractHebrewFromContent (content : jsstring)
  (originalHebrew : text_value) : option jsstring :=
  let fallback :=
    match match_runs is_hebrew_or_space content [] with
    | [] => None
    | hebrewMatches => Some (trim (join (lit " ") hebrewMatches))
    end in
  match originalHebrew with
  | TextArray parts => Some (join (lit " ") parts)
  | TextString s => if truthy s then Some s else fallback
  | TextAbsent => fallback
  end.

(** ** Numbers of the overlap computation (IEEE binary64) *)

Definition float_of_Z (z : Z) : float :=
  SF2Prim (binary_normalize prec emax z 0 false).

(** [Math.floor] *)
Definition math_floor (f : float) : float :=
  match Prim2SF f with
  | S754_finite s m e =>
      if 0 <=? e then f
      else
        let d := 2 ^ (- e) in
        let q := Zpos m / d in
        if s
        then if Zpos m mod d =? 0 then float_of_Z (- q) else float_of_Z (- q - 1)
        else float_of_Z q
  | _ => f
  end.

(** ToIntegerOrInfinity, applied by [Array.prototype.slice] to its argument. *)
Inductive integer_or_infinity :=
| MinusInfinity
| Integer (z : Z)
| PlusInfinity.

Definition to_integer_or_infinity (f : float) : integer_or_infinity :=
  match Prim2SF f with
  | S754_nan => Integer 0
  | S754_zero _ => Integer 0
  | S754_infinity s => if s then MinusInfinity else PlusInfinity
  | S754_finite s m e =>
      let magnitude :=
        if 0 <=? e then Zpos m * 2 ^ e else Zpos m / 2 ^ (- e) in
      Integer (if s then - magnitude else magnitude)
  end.

(** [array.slice(start)] *)
Definition slice_from {A} (start : integer_or_infinity) (l : list A) : list A :=
  let len := Z.of_nat (List.length l) in
  let k :=
    match start with
    | MinusInfinity => 0
    | Integer z => if z <? 0 then Z.max (len + z) 0 else Z.min z len
    | PlusInfinity => len
    end in
  skipn (Z.to_nat k) l.

(** ** Configuration: the constructor of [SemanticChunker] *)

Record config := mkConfig {
  chunkSize : Z;
  overlapPercentage : Z
}.

(** [parseInt(process.env.X) || fallback] *)
Definition parse_or (env : option Z) (fallback : Z) : Z :=
  match env with
  | Some n => if n =? 0 then fallback else n
  | None => fallback
  end.

Definition configure (env_CHUNK_SIZE env_OVERLAP_PERCENTAGE : option Z) : config :=
  mkConfig (parse_or env_CHUNK_SIZE 10000) (parse_or env_OVERLAP_PERCENTAGE 15).

Definition default_config : config := configure None None.

(** [this.maxChunkSize = this.chunkSize * 1.2]; the field is assigned in
    the constructor and read nowhere. *)
Definition maxChunkSize (cfg : config) : Q := inject_Z (chunkSize cfg) * (12 # 10).

(** [Math.floor(this.chunkSize * (this.overlapPercentage / 100))] *)
Definition overlapTokens (cfg : config) : float :=
  math_floor (float_of_Z (chunkSize cfg)
              * (float_of_Z (overlapPercentage cfg) / 100))%float.

(** The argument of [currentWords.slice(...)]:
    [-Math.floor(overlapTokens / 4)]. *)
Definition overlap_slice_start (cfg : config) : integer_or_infinity :=
  to_integer_or_infinity (- math_floor (overlapTokens cfg / 4))%float.

(** ** JSON values and the language-model provider *)

#[local] Unset Elimination Schemes.
Inductive json :=
| JNull
| JBool (b : bool)
| JNumber (q : Q)
| JString (s : jsstring)
| JArray (items : list json)
| JObject (fields : list (jsstring * json)).
#[local] Set Elimination Schemes.

Definition json_truthy (v : json) : bool :=
  match v with
  | JNull => false
  | JBool b => b
  | JNumber q => negb (Qeq_bool q 0)
  | JString s => truthy s
  | JArray _ => true
  | JObject _ => true
  end.

Fixpoint jsstring_eqb (a b : jsstring) : bool :=
  match a, b with
  | [], [] => true
  | x :: a', y :: b' => (x =? y)%N && jsstring_eqb a' b'
  | _, _ => false
  end.

Fixpoint lookup_field (fields : list (jsstring * json)) (name : jsstring)
  : option json :=
  match fields with
  | [] => None
  | (k, v) :: fields' =>
      if jsstring_eqb k name then Some v else lookup_field fields' name
  end.

(** [value.name]: a [TypeError] on [null], [undefined] on a value that has
    no such property. *)
Definition get_property (value : json) (name : string) : outcome (option json) :=
  match value with
  | JNull => Rejected "Cannot read properties of null"
  | JObject fields => Resolved (lookup_field fields (lit name))
  | _ => Resolved None
  end.

(** [property || []] *)
Definition or_empty_array (property : option json) : json :=
  match property with
  | Some v => if json_truthy v then v else JArray []
  | None => JArray []
  end.

(** What [chatCompletion] is asked: the prompt is a fixed text around the
    two interpolated strings. *)
Inductive request :=
| AnalysisRequest (bookTitle excerpt : jsstring)
| SummaryRequest (sectionTitle excerpt : jsstring).

(** ** Log *)

Inductive log_entry :=
| Info_StartingChunking (title : jsstring)
| Debug_ProcessingSection (number total : Z) (title : jsstring)
| Warn_EmptySection (sectionIndex : Z) (title : jsstring)
| Warn_AnalysisFailed (message : string)
| Warn_SummaryFailed (message : string)
| Info_ChunkingComplete (count : Z) (title : jsstring).

Definition M (A : Type) : Type := (A * list log_entry)%type.

Definition retM {A} (a : A) : M A := (a, []).

Definition bindM {A B} (m : M A) (k : A -> M B) : M B :=
  let '(a, log1) := m in
  let '(b, log2) := k a in
  (b, log1 ++ log2).

Definition logM (e : log_entry) : M unit := (tt, [e]).

Notation "x <~ m ;; k" := (bindM m (fun x => k))
  (at level 61, m at next level, right associativity).

Fixpoint foldM {S X} (f : S -> X -> M S) (xs : list X) (s : S) : M S :=
  match xs with
  | [] => retM s
  | x :: xs' => s' <~ f s x ;; foldM f xs' s'
  end.

(** ** Records *)

Record section_record := mkSection {
  title : jsstring;
  hebrew_text : text_value;
  english_text : text_value;
  reference : jsstring
}.

Record book_metadata := mkBook {
  book_id : jsstring;
  book_title : jsstring;
  category : jsstring
}.

Record analysis := mkAnalysis {
  a_themes : json;
  a_keywords : json;
  a_hebrew_concepts : json
}.

Record chunk_params := mkParams {
  p_content : jsstring;
  p_hebrew_text : text_value;
  p_english_text : text_value;
  p_section_title : jsstring;
  p_exact_reference : jsstring;
  p_chunk_index : Z;
  p_section_index : Z;
  p_book_metadata : book_metadata;
  p_token_count : Z;
  p_is_complete_section : bool
}.

(** The object returned by [createChunk], without the random [id] and the
    clock reading [metadata.created_at]. *)
Record chunk := mkChunk {
  c_book_id : jsstring;
  chunk_index : Z;
  content : jsstring;
  c_hebrew_text : option jsstring;
  exact_reference : jsstring;
  section_title : jsstring;
  paragraph_number : Z;
  token_count : Z;
  chunk_summary : jsstring;
  themes : json;
  keywords : json;
  is_complete_section : bool
}.

Definition fallback_summary (sectionTitle : jsstring) : jsstring :=
  lit "Enseignement de " ++ sectionTitle.

Section WithProvider.

(** [this.openrouter.chatCompletion]: the [content] of each returned
    choice, or the error it throws.  [JSON.parse] is the built-in. *)
Variable chatCompletion : request -> outcome (list (option jsstring)).
Variable JSON_parse : jsstring -> outcome json.

Variable cfg : config.

(** [response.choices[0].message.content] *)
Definition first_content (choices : list (option jsstring)) : outcome jsstring :=
  match choices with
  | Some text :: _ => Resolved text
  | _ => Rejected "Cannot read properties of undefined"
  end.

Open Scope js_scope.

(** The [try] block of [analyzeChunkContent]. *)
Definition analysis_attempt (content bookTitle : jsstring) : outcome analysis :=
  choices <- chatCompletion (AnalysisRequest bookTitle (substring0 1000 content)) ;;
  text <- first_content choices ;;
  parsed <- JSON_parse text ;;
  themes <- get_property parsed "themes" ;;
  keywords <- get_property parsed "keywords" ;;
  hebrew_concepts <- get_property parsed "hebrew_concepts" ;;
  Resolved (mkAnalysis (or_empty_array themes) (or_empty_array keywords)
              (or_empty_array hebrew_concepts)).

Definition analyzeChunkContent (content bookTitle : jsstring) : M analysis :=
  match analysis_attempt content bookTitle with
  | Resolved a => retM a
  | Rejected message =>
      _ <~ logM (Warn_AnalysisFailed message) ;;
      retM (mkAnalysis (JArray []) (JArray []) (JArray []))
  end.

(** The [try] block of [generateChunkSummary]. *)
Definition summary_attempt (content sectionTitle : jsstring) : outcome jsstring :=
  choices <- chatCompletion (SummaryRequest sectionTitle (substring0 800 content)) ;;
  text <- first_content choices ;;
  Resolved (trim text).

Definition generateChunkSummary (content sectionTitle : jsstring) : M jsstring :=
  match summary_attempt content sectionTitle with
  | Resolved summary => retM summary
  | Rejected message =>
      _ <~ logM (Warn_SummaryFailed message) ;;
      retM (fallback_summary sectionTitle)
  end.

Definition createChunk (params : chunk_params) : M chunk :=
  analysis <~ analyzeChunkContent (p_content params)
                (book_title (p_book_metadata params)) ;;
  summary <~ generateChunkSummary (p_content params) (p_section_title params) ;;
  retM (mkChunk
          (book_id (p_book_metadata params))
          (p_chunk_index params)
          (p_content params)
          (extractHebrewFromContent (p_content params) (p_hebrew_text params))
          (p_exact_reference params)
          (p_section_title params)
          (p_section_index params + 1)
          (if p_token_count params =? 0
           then estimateTokenCount (p_content params)
           else p_token_count params)
          summary
          (or_empty_array (Some (a_themes analysis)))
          (or_empty_array (Some (a_keywords analysis)))
          (p_is_complete_section params)).

(** ** [intelligentSplit] *)

Record split_state := mkSplit {
  chunks : list chunk;
  currentChunk : jsstring;
  currentTokens : Z;
  chunkIndex : Z
}.

Section Split.

Variable section : section_record.
Variable bookMetadata : book_metadata.
Variable sectionIndex : Z.

(** The [createChunk] call that appears four times in [intelligentSplit]. *)
Definition flush (st : split_state) : M chunk :=
  createChunk
    (mkParams (trim (currentChunk st)) TextAbsent TextAbsent
       (title section)
       (reference section ++ lit ":" ++ decimal (chunkIndex st + 1))
       (chunkIndex st) sectionIndex bookMetadata (currentTokens st) false).

(** One sentence (separator [" "]) or one paragraph that fits (separator
    two newlines): start a new chunk when the unit would overflow the
    current one, append it otherwise. *)
Definition add_unit (separator : jsstring) (st : split_state) (unit : jsstring)
  : M split_state :=
  let unitTokens := estimateTokenCount unit in
  if (currentTokens st + unitTokens >? chunkSize cfg)
     && truthy (trim (currentChunk st))
  then
    c <~ flush st ;;
    retM (mkSplit (chunks st ++ [c]) unit unitTokens (chunkIndex st + 1))
  else
    retM (mkSplit (chunks st)
            (currentChunk st
               ++ (if truthy (currentChunk st) then separator else [])
               ++ unit)
            (currentTokens st + unitTokens)
            (chunkIndex st)).

(** The body of the loop over paragraphs. *)
Definition add_paragraph (st : split_state) (paragraph : jsstring)
  : M split_state :=
  let paragraphTokens := estimateTokenCount paragraph in
  if paragraphTokens >? chunkSize cfg
  then
    st <~ (if truthy (trim (currentChunk st))
           then c <~ flush st ;;
                retM (mkSplit (chunks st ++ [c]) [] 0 (chunkIndex st + 1))
           else retM st) ;;
    foldM (add_unit (lit " ")) (splitIntoSentences paragraph) st
  else add_unit [newline; newline] st paragraph.

Definition intelligentSplit (fullText : jsstring) : M (list chunk) :=
  st <~ foldM add_paragraph (splitIntoParagraphs fullText) (mkSplit [] [] 0 0) ;;
  if truthy (trim (currentChunk st))
  then c <~ flush st ;; retM (chunks st ++ [c])
  else retM (chunks st).

(** ** [chunkSection] *)

Definition chunkSection : M (list chunk) :=
  let fullText := combineTexts (hebrew_text section) (english_text section) in
  if negb (truthy (trim fullText))
  then
    _ <~ logM (Warn_EmptySection sectionIndex (book_title bookMetadata)) ;;
    retM []
  else
    let tokenCount := estimateTokenCount fullText in
    if tokenCount <=? chunkSize cfg
    then
      c <~ createChunk
             (mkParams fullText (hebrew_text section) (english_text section)
                (title section) (reference section) 0 sectionIndex
                bookMetadata tokenCount true) ;;
      retM [c]
    else intelligentSplit fullText.

End Split.

(** ** [addOverlapBetweenChunks] *)

Definition overlapWords (currentChunk : chunk) : list jsstring :=
  slice_from (overlap_slice_start cfg) (split_whitespace (content currentChunk)).

Definition with_overlap (nextChunk : chunk) (words : list jsstring) : chunk :=
  mkChunk (c_book_id nextChunk) (chunk_index nextChunk)
    (join (lit " ") words ++ lit " " ++ content nextChunk)
    (c_hebrew_text nextChunk) (exact_reference nextChunk)
    (section_title nextChunk) (paragraph_number nextChunk)
    (token_count nextChunk + Z.of_nat (List.length words))
    (chunk_summary nextChunk) (themes nextChunk) (keywords nextChunk)
    (is_complete_section nextChunk).

(** The loop body: [nextChunk] is changed in place. *)
Definition receive_overlap (currentChunk nextChunk : chunk) : chunk :=
  match overlapWords currentChunk with
  | [] => nextChunk
  | words => with_overlap nextChunk words
  end.

(** The loop runs front to back on the shared objects, so chunk [i+1]
    receives the tail of chunk [i] as already extended by chunk [i-1]. *)
Fixpoint overlap_loop (currentChunk : chunk) (rest : list chunk) : list chunk :=
  match rest with
  | [] => [currentChunk]
  | nextChunk :: rest' =>
      currentChunk :: overlap_loop (receive_overlap currentChunk nextChunk) rest'
  end.

Definition addOverlapBetweenChunks (chunks : list chunk) : list chunk :=
  match chunks with
  | [] => []
  | first :: rest => overlap_loop first rest
  end.

(** ** [chunkBook] *)

(** The loop over sections; [i] is the index of the first one. *)
Fixpoint chunk_sections (bookMetadata : book_metadata) (total : Z)
  (sections : list section_record) (i : Z) : M (list chunk) :=
  match sections with
  | [] => retM []
  | section :: sections' =>
      _ <~ logM (Debug_ProcessingSection (i + 1) total (title section)) ;;
      sectionChunks <~ chunkSection section bookMetadata i ;;
      more <~ chunk_sections bookMetadata total sections' (i + 1) ;;
      retM (sectionChunks ++ more)
  end.

(** The chunks of a book before overlap is added. *)
Definition chunks_before_overlap (bookMetadata : book_metadata)
  (sections : list section_record) : M (list chunk) :=
  chunk_sections bookMetadata (Z.of_nat (List.length sections)) sections 0.

(** [extractSections] maps the raw payload to section records; the
    chunking below depends on it only through the list it returns. *)
Variable book_data : Type.
Variable extractSections : book_data -> list section_record.

Definition chunkBook (bookData : book_data) (bookMetadata : book_metadata)
  : M (list chunk) :=
  _ <~ logM (Info_StartingChunking (book_title bookMetadata)) ;;
  chunks <~ chunks_before_overlap bookMetadata (extractSections bookData) ;;
  let chunks := addOverlapBetweenChunks chunks in
  _ <~ logM (Info_ChunkingComplete (Z.of_nat (List.length chunks))
               (book_title bookMetadata)) ;;
  retM chunks.

End WithProvider.

End Chunker.

(* ===================================================================== *)
(** * Sections of a book payload ([src/services/chunker.js])              *)
(* ===================================================================== *)

Module Sections.

Import JS Chunker.
Open Scope Z_scope.
Open Scope list_scope.

(** ** The payload

    The texts of a payload are strings or arrays of strings, as the
    Sefaria API delivers them; a missing property is [TextAbsent]. *)

(** An entry of [bookData.sections]: the properties [he], [hebrew],
    [text], [english] and [ref] that [extractSections] reads.  (It also
    copies [section.section] into an [index] property that nothing
    reads.) *)
Record raw_section := mkRaw {
  he : text_value;
  hebrew : text_value;
  text : text_value;
  english : text_value;
  ref : option jsstring
}.

(** [bookData.he] or [bookData.text]: an array whose entries are texts, a
    single string, or nothing. *)
Inductive texts :=
| Texts (items : list text_value)
| OneText (s : jsstring)
| NoTexts.

(** [bookData]: [sections] is [Some] when the property holds an array. *)
Record payload := mkPayload {
  book_sections : option (list raw_section);
  book_he : texts;
  book_text : texts;
  book_ref : option jsstring
}.

(** ** Truthiness and defaults *)

Definition text_truthy (v : text_value) : bool :=
  match v with
  | TextArray _ => true
  | TextString s => truthy s
  | TextAbsent => false
  end.

Definition texts_truthy (v : texts) : bool :=
  match v with
  | Texts _ => true
  | OneText s => truthy s
  | NoTexts => false
  end.

(** [a || b || []] *)
Definition first_text (a b : text_value) : text_value :=
  if text_truthy a then a
  else if text_truthy b then b
  else TextArray [].

(** [value || fallback] on an optional string. *)
Definition string_or (value : option jsstring) (fallback : jsstring) : jsstring :=
  match value with
  | Some s => if truthy s then s else fallback
  | None => fallback
  end.

(** [Array.isArray(v) ? v : [v]] *)
Definition as_array (v : texts) : list text_value :=
  match v with
  | Texts items => items
  | OneText s => [TextString s]
  | NoTexts => [TextAbsent]
  end.

(** [array[i] || ''] *)
Definition entry_or_empty (array : list text_value) (i : nat) : text_value :=
  match nth_error array i with
  | Some v => if text_truthy v then v else TextString []
  | None => TextString []
  end.

(** [`${bookData.ref || 'Unknown'}:${index + 1}`] *)
Definition numbered_reference (bookRef : option jsstring) (index : nat)
  : jsstring :=
  string_or bookRef (lit "Unknown") ++ lit ":" ++ decimal (Z.of_nat index + 1).

(** ** [generateSectionTitle] *)

(** The Hebrew letters alef to tav, the class [[א-ת]]. *)
Definition is_hebrew_letter (c : char) : bool :=
  ((1488 <=? c) && (c <=? 1514))%N.

(** The class of the capture group: Hebrew letters and whitespace. *)
Definition is_name_char (c : char) : bool := is_hebrew_letter c || is_space c.

Fixpoint take_while (p : char -> bool) (s : jsstring) : jsstring :=
  match s with
  | c :: s' => if p c then c :: take_while p s' else []
  | [] => []
  end.

Fixpoint drop_while (p : char -> bool) (s : jsstring) : jsstring :=
  match s with
  | c :: s' => if p c then drop_while p s' else s
  | [] => []
  end.

(** What is left of [s] behind the prefix [word]. *)
Fixpoint strip_prefix (word s : jsstring) : option jsstring :=
  match word, s with
  | [], _ => Some s
  | w :: word', c :: s' => if (w =? c)%N then strip_prefix word' s' else None
  | _ :: _, [] => None
  end.

(** The capture group of [/^word\s+([א-ת\s]+)/] on [line].
    [\s+] takes the whole run of whitespace behind the word.  When a
    Hebrew letter follows, the group is the longest run of letters and
    whitespace from there.  Otherwise the match succeeds only by giving
    the last whitespace character of a run of two or more back to the
    group, which is then that character alone. *)
Definition match_title (word line : jsstring) : option jsstring :=
  match strip_prefix word line with
  | None => None
  | Some rest =>
      let spaces := take_while is_space rest in
      match spaces with
      | [] => None
      | _ :: more =>
          match take_while is_name_char (drop_while is_space rest) with
          | (_ :: _) as name => Some name
          | [] =>
              match more with
              | [] => None
              | _ :: _ => Some [last spaces 0%N]
              end
          end
      end
  end.

(** The four words that start a title: torah, halakhot, tefilah, maaseh. *)
Definition title_words : list jsstring :=
  [ [1514; 1493; 1512; 1492];
    [1492; 1500; 1499; 1493; 1514];
    [1514; 1508; 1497; 1500; 1492];
    [1502; 1506; 1513; 1492] ]%N.

(** [for (const pattern of titlePatterns)]: the first pattern that matches. *)
Fixpoint first_match (words : list jsstring) (line : jsstring)
  : option jsstring :=
  match words with
  | [] => None
  | word :: words' =>
      match match_title word line with
      | Some name => Some name
      | None => first_match words' line
      end
  end.

Definition positioned (name : jsstring) (index : nat) : jsstring :=
  name ++ lit " (" ++ decimal (Z.of_nat index + 1) ++ lit ")".

Definition generateSectionTitle (section : raw_section) (index : nat)
  : jsstring :=
  let fallback := lit "Section " ++ decimal (Z.of_nat index + 1) in
  match he section with
  | TextArray (first :: _) =>
      if truthy first
      then
        let firstLine := trim first in
        match first_match title_words firstLine with
        | Some name => positioned (trim name) index
        | None =>
            match firstn 4 (split_whitespace firstLine) with
            | (_ :: _) as words =>
                positioned (join (lit " ") words ++ lit "...") index
            | [] => fallback
            end
        end
      else fallback
  | _ => fallback
  end.

(** ** [extractSections] *)

(** [array.forEach((x, index) => ...)] collecting one result per entry. *)
Fixpoint map_indexed {A B} (f : A -> nat -> B) (l : list A) (index : nat)
  : list B :=
  match l with
  | [] => []
  | x :: l' => f x index :: map_indexed f l' (S index)
  end.

(** The section built for an entry of [bookData.sections]. *)
Definition section_of_entry (bookRef : option jsstring) (section : raw_section)
  (index : nat) : section_record :=
  mkSection (generateSectionTitle section index)
    (first_text (he section) (hebrew section))
    (first_text (text section) (english section))
    (string_or (ref section) (numbered_reference bookRef index)).

(** The section built for position [i] of the direct format. *)
Definition section_of_position (bookData : payload) (i : nat) : section_record :=
  mkSection (lit "Section " ++ decimal (Z.of_nat i + 1))
    (entry_or_empty (as_array (book_he bookData)) i)
    (entry_or_empty (as_array (book_text bookData)) i)
    (numbered_reference (book_ref bookData) i).

Definition has_text (section : section_record) : bool :=
  text_truthy (hebrew_text section) || text_truthy (english_text section).

Definition extractSections (bookData : payload) : list section_record :=
  let sections :=
    match book_sections bookData with
    | Some entries =>
        map_indexed (section_of_entry (book_ref bookData)) entries 0
    | None =>
        if texts_truthy (book_he bookData) || texts_truthy (book_text bookData)
        then
          let maxLength :=
            Nat.max (List.length (as_array (book_he bookData)))
                    (List.length (as_array (book_text bookData))) in
          List.map (section_of_position bookData) (seq 0 maxLength)
        else []
    end in
  List.filter has_text sections.

End Sections.

(* ===================================================================== *)
(** * Citations and confidence ([src/services/openrouter.js])             *)
(* ===================================================================== *)

Module OpenRouter.

Import JS Chunker.
Open Scope list_scope.

(** A chunk as [extractCitations] reads it: [id] and the nullable
    [exact_reference]. *)
Record source := mkSource {
  source_id : jsstring;
  source_reference : option jsstring
}.

(** An entry of the [citations] array. *)
Record citation := mkCitation {
  cited_reference : jsstring;
  chunk_id : option jsstring;
  verified : bool
}.

(** ** The pattern of a reference

    [/(Likutei Moharan|...|Tikkun HaKlali)[^:]*:[^:]*:[^\s,\.]+/gi]:
    the name of a book in any case, then two parts that each run up to
    the next colon, then the longest run of characters that are neither
    whitespace nor a comma nor a full stop, which must not be empty.  No
    part can take less than it does, so there is nothing to backtrack
    into. *)

Definition book_names : list jsstring :=
  List.map lit
    ["Likutei Moharan"; "Chayei Moharan"; "Sippurei Maasiyot"; "Sichot HaRan";
     "Shivchei HaRan"; "Likutei Tefilot"; "Likutei Halachot"; "Sefer HaMidot";
     "Tikkun HaKlali"]%string.

(** The canonical form under the [i] flag: ASCII letters in upper case;
    a character outside ASCII never equals an ASCII one. *)
Definition canonical (c : char) : char :=
  if ((97 <=? c) && (c <=? 122))%N then (c - 32)%N else c.

(** The text of [s] that matches [name] whatever the case, and what
    follows it. *)
Fixpoint match_name (name s : jsstring) : option (jsstring * jsstring) :=
  match name, s with
  | [], _ => Some ([], s)
  | p :: name', c :: s' =>
      if (canonical p =? canonical c)%N
      then match match_name name' s' with
           | Some (matched, rest) => Some (c :: matched, rest)
           | None => None
           end
      else None
  | _ :: _, [] => None
  end.

Definition colon : char := 58%N.

(** [[^:]*:] *)
Fixpoint through_colon (s : jsstring) : option (jsstring * jsstring) :=
  match s with
  | [] => None
  | c :: s' =>
      if (c =? colon)%N then Some ([c], s')
      else match through_colon s' with
           | Some (matched, rest) => Some (c :: matched, rest)
           | None => None
           end
  end.

(** The class [[^\s,\.]]. *)
Definition in_reference (c : char) : bool :=
  negb (is_space c || (c =? 44)%N || (c =? 46)%N).

Fixpoint take_while (p : char -> bool) (s : jsstring) : jsstring :=
  match s with
  | c :: s' => if p c then c :: take_while p s' else []
  | [] => []
  end.

(** The match of the pattern with one book name at the start of [s]. *)
Definition match_with (name s : jsstring) : option jsstring :=
  match match_name name s with
  | None => None
  | Some (book, rest) =>
      match through_colon rest with
      | None => None
      | Some (part1, rest1) =>
          match through_colon rest1 with
          | None => None
          | Some (part2, rest2) =>
              match take_while in_reference rest2 with
              | [] => None
              | (_ :: _) as last => Some (book ++ part1 ++ part2 ++ last)
              end
          end
      end
  end.

(** The alternatives are tried in order. *)
Fixpoint match_any (names : list jsstring) (s : jsstring) : option jsstring :=
  match names with
  | [] => None
  | name :: names' =>
      match match_with name s with
      | Some m => Some m
      | None => match_any names' s
      end
  end.

(** [answer.match(referencePattern) || []]: the matches from left to
    right, each search starting where the previous match ended.  [skip]
    counts the characters of the last match that are still to pass. *)
Fixpoint matches_from (s : jsstring) (skip : nat) : list jsstring :=
  match s with
  | [] => []
  | _ :: s' =>
      match skip with
      | S n => matches_from s' n
      | O =>
          match match_any book_names s with
          | Some m => m :: matches_from s' (List.length m - 1)
          | None => matches_from s' 0
          end
      end
  end.

Definition reference_matches (answer : jsstring) : list jsstring :=
  matches_from answer 0.

(** ** [String.prototype.includes] *)

Fixpoint starts_with (needle hay : jsstring) : bool :=
  match needle, hay with
  | [], _ => true
  | n :: needle', h :: hay' => (n =? h)%N && starts_with needle' hay'
  | _ :: _, [] => false
  end.

Fixpoint includes (hay needle : jsstring) : bool :=
  starts_with needle hay
  || match hay with
     | [] => false
     | _ :: hay' => includes hay' needle
     end.

(** ** [extractCitations] *)

(** [chunk.exact_reference && chunk.exact_reference.includes(reference)] *)
Definition cites (reference : jsstring) (chunk : source) : bool :=
  match source_reference chunk with
  | Some exact => truthy exact && includes exact reference
  | None => false
  end.

Definition citation_of (availableChunks : list source) (matched : jsstring)
  : citation :=
  match List.find (cites (trim matched)) availableChunks with
  | Some matchingChunk =>
      mkCitation (trim matched) (Some (source_id matchingChunk)) true
  | None => mkCitation (trim matched) None false
  end.

Definition extractCitations (answer : jsstring) (availableChunks : list source)
  : list citation :=
  List.map (citation_of availableChunks) (reference_matches answer).

(** ** [calculateConfidence] *)

Definition calculateConfidence (citations : list citation)
  (chunks : list source) : Q :=
  match citations with
  | [] => 1 # 10
  | _ :: _ =>
      let verifiedCitations :=
        List.length (List.filter verified citations) in
      let citationScore :=
        (inject_Z (Z.of_nat verifiedCitations)
         / inject_Z (Z.of_nat (List.length citations)))%Q in
      let sourceScore :=
        match chunks with _ :: _ => 3 # 10 | [] => 0%Q end in
      Qmin (citationScore * (7 # 10) + sourceScore)%Q 1
  end.

(** ** [generatePreciseAnswer] *)

(** The object it returns, without [model_used] and the clock reading. *)
Record precise_answer := mkPrecise {
  answer : jsstring;
  citations : list citation;
  confidence : Q
}.

Section WithProvider.

(** [this.chatCompletion] for the prompt built from the query and the
    chunks: the [content] of each returned choice, or the error thrown. *)
Variable chatCompletion :
  jsstring -> list source -> outcome (list (option jsstring)).

Open Scope js_scope.

Definition generatePreciseAnswer (query : jsstring) (chunks : list source)
  : outcome precise_answer :=
  choices <- chatCompletion query chunks ;;
  answer <- first_content choices ;;
  let citations := extractCitations answer chunks in
  Resolved (mkPrecise answer citations (calculateConfidence citations chunks)).

End WithProvider.

End OpenRouter.

(* ===================================================================== *)
(** * The logger ([src/utils/logger.js])                                  *)
(* ===================================================================== *)

Module Logger.

Open Scope string_scope.
Open Scope Z_scope.

(** The four methods [error], [warn], [info] and [debug]; each passes its
    own name to [_log]. *)
Inductive level := Error | Warn | Info | Debug.

Definition name (l : level) : string :=
  match l with
  | Error => "error"
  | Warn => "warn"
  | Info => "info"
  | Debug => "debug"
  end.

(** [LOG_LEVELS[name]] as a number.  For a name that is not one of the
    four keys the lookup yields [undefined] or a property inherited from
    [Object.prototype]; neither is a number, and [>] against it is false. *)
Definition LOG_LEVELS (name : string) : option Z :=
  if String.eqb name "error" then Some 0
  else if String.eqb name "warn" then Some 1
  else if String.eqb name "info" then Some 2
  else if String.eqb name "debug" then Some 3
  else None.

(** [this.level = process.env.LOG_LEVEL || 'info'] *)
Definition configured (env_LOG_LEVEL : option string) : string :=
  match env_LOG_LEVEL with
  | Some s => if String.eqb s "" then "info" else s
  | None => "info"
  end.

(** [LOG_LEVELS[level] > LOG_LEVELS[this.level]]: the early return of
    [_log]. *)
Definition filtered_out (threshold : string) (l : level) : bool :=
  match LOG_LEVELS (name l), LOG_LEVELS threshold with
  | Some n, Some t => t <? n
  | _, _ => false
  end.

(** Whether a call of the method [l] reaches [console.log]. *)
Definition writes (env_LOG_LEVEL : option string) (l : level) : bool :=
  negb (filtered_out (configured env_LOG_LEVEL) l).

End Logger.

(* ===================================================================== *)
(** * Storing chunks in one transaction ([src/services/vector-search.js]) *)
(* ===================================================================== *)

Module VectorStore.

Import JS.
Open Scope string_scope.
Open Scope list_scope.

Section WithProvider.

(** The chunk objects and their embeddings pass through unread. *)
Variables chunk embedding : Type.

(** [this.openrouter.generateEmbedding(chunk.content)] *)
Variable generateEmbedding : chunk -> outcome embedding.

(** [this.pool.connect()] *)
Variable pool_connect : outcome unit.

(** The error PostgreSQL raises for an [INSERT INTO text_chunks] given
    the rows it sees (a violated constraint or a malformed value), if
    any. *)
Variable violation :
  list (chunk * embedding) -> chunk * embedding -> option string.

(** The transaction state of a session.  After a failed statement the
    transaction is aborted: it refuses every statement but the one that
    ends it. *)
Inductive transaction :=
| Idle
| Open (inserted : list (chunk * embedding))
| Aborted.

(** [text_chunks] holds the committed rows; [statements_left] counts the
    statements the connection still serves ([None]: it never fails);
    [checked_out] counts the clients taken from the pool and not yet
    released. *)
Record connection := mkConnection {
  text_chunks : list (chunk * embedding);
  session : transaction;
  statements_left : option nat;
  checked_out : nat
}.

Inductive statement :=
| BEGIN
| INSERT (row : chunk * embedding)
| COMMIT
| ROLLBACK.

Definition PG (A : Type) : Type := connection -> outcome A * connection.

Definition retPG {A} (a : A) : PG A := fun st => (Resolved a, st).

Definition bindPG {A B} (m : PG A) (k : A -> PG B) : PG B :=
  fun st =>
    match m st with
    | (Resolved a, st') => k a st'
    | (Rejected e, st') => (Rejected e, st')
    end.

Definition with_session st (s : transaction) : connection :=
  mkConnection (text_chunks st) s (statements_left st) (checked_out st).

Definition aborted_message : string :=
  "current transaction is aborted, commands ignored until end of transaction block".

(** What the server does with a statement it receives.  [BEGIN] inside a
    transaction and [COMMIT] or [ROLLBACK] outside one only raise a
    warning; [COMMIT] of an aborted transaction rolls it back. *)
Definition execute (s : statement) st
  : outcome unit * connection :=
  match s, session st with
  | BEGIN, Idle => (Resolved tt, with_session st (Open []))
  | BEGIN, Open _ => (Resolved tt, st)
  | BEGIN, Aborted => (Rejected aborted_message, st)
  | INSERT row, Idle =>
      match violation (text_chunks st) row with
      | Some error => (Rejected error, st)
      | None =>
          (Resolved tt,
           mkConnection (text_chunks st ++ [row]) Idle (statements_left st)
             (checked_out st))
      end
  | INSERT row, Open inserted =>
      match violation (text_chunks st ++ inserted) row with
      | Some error => (Rejected error, with_session st Aborted)
      | None => (Resolved tt, with_session st (Open (inserted ++ [row])))
      end
  | INSERT _, Aborted => (Rejected aborted_message, st)
  | COMMIT, Open inserted =>
      (Resolved tt,
       mkConnection (text_chunks st ++ inserted) Idle (statements_left st)
         (checked_out st))
  | COMMIT, _ => (Resolved tt, with_session st Idle)
  | ROLLBACK, _ => (Resolved tt, with_session st Idle)
  end.

(** [await client.query(statement)] *)
Definition client_query (s : statement) : PG unit :=
  fun st =>
    match statements_left st with
    | Some O => (Rejected "Connection terminated unexpectedly", st)
    | Some (S n) =>
        execute s
          (mkConnection (text_chunks st) (session st) (Some n) (checked_out st))
    | None => execute s st
    end.

(** [storeChunkWithClient] *)
Definition storeChunkWithClient (c : chunk) : PG unit :=
  fun st =>
    match generateEmbedding c with
    | Resolved e => client_query (INSERT (c, e)) st
    | Rejected error => (Rejected error, st)
    end.

(** [for (let i = 0; i < chunks.length; i++)
       await this.storeChunkWithClient(client, chunks[i])] *)
Fixpoint store_each (chunks : list chunk) : PG unit :=
  match chunks with
  | [] => retPG tt
  | c :: rest => bindPG (storeChunkWithClient c) (fun _ => store_each rest)
  end.

(** [client.release()] *)
Definition release st : connection :=
  mkConnection (text_chunks st) (session st) (statements_left st)
    (Nat.pred (checked_out st)).

(** [storeChunksBatch] of an initialised service; the [logger] calls are
    left out.  An error of the [ROLLBACK] in the [catch] block replaces
    the one that was caught. *)
Definition storeChunksBatch (chunks : list chunk) : PG unit :=
  fun st =>
    match pool_connect with
    | Rejected error => (Rejected error, st)
    | Resolved _ =>
        let st :=
          mkConnection (text_chunks st) (session st) (statements_left st)
            (S (checked_out st)) in
        let '(result, st) :=
          match
            bindPG (client_query BEGIN)
              (fun _ => bindPG (store_each chunks)
                          (fun _ => client_query COMMIT)) st
          with
          | (Resolved _, st) => (Resolved tt, st)
          | (Rejected error, st) =>
              match client_query ROLLBACK st with
              | (Resolved _, st) => (Rejected error, st)
              | (Rejected error', st) => (Rejected error', st)
              end
          end in
        (result, release st)
    end.

End WithProvider.

Arguments Idle {chunk embedding}.
Arguments Aborted {chunk embedding}.
Arguments BEGIN {chunk embedding}.
Arguments COMMIT {chunk embedding}.
Arguments ROLLBACK {chunk embedding}.

End VectorStore.

(* ===================================================================== *)
(** * The search endpoint ([POST /api/query/search])                      *)
(* ===================================================================== *)

Module SearchRoute.

Import JS Chunker.
Open Scope string_scope.
Open Scope list_scope.
Open Scope js_scope.

(** ** The statements of the two searches *)

(** A value pushed on [params]. *)
Inductive param :=
| Text (s : jsstring)
| Embedding (json : list Q)
| Array (items : list jsstring)
| Number (n : Z)
| Score (q : Q).

(** A condition of the [WHERE] clause, with the number of its [$n]. *)
Inductive condition :=
| TitleAmong (placeholder : Z)      (* b.title = ANY($n) *)
| ThemesOverlap (placeholder : Z)   (* tc.themes && $n *)
| ScoreAtLeast (placeholder : Z).   (* (1 - distance) >= $n *)

(** [$1] is the embedding or the query text; [limit_placeholder] is the
    [$n] of [LIMIT]. *)
Record statement := mkStatement {
  conditions : list condition;
  limit_placeholder : Z;
  params : list param
}.

(** A [books] or [themes] property: absent, [null] or an array of
    strings. *)
Inductive array_field :=
| Undefined
| Null
| Items (items : list jsstring).

(** [{ books, themes, minScore }] *)
Record filters := mkFilters {
  books : array_field;
  themes : array_field;
  minScore : option Q
}.

(** [field && field.length > 0] *)
Definition non_empty (field : array_field) : option (list jsstring) :=
  match field with
  | Items ((_ :: _) as items) => Some items
  | _ => None
  end.

(** The part of the builders between two [if]s: the state is
    [(conditions, params, paramIndex)]. *)
Definition builder := (list condition * list param * Z)%type.

Definition push (b : builder) (c : Z -> condition) (p : param) : builder :=
  let '(conditions, params, paramIndex) := b in
  (conditions ++ [c paramIndex], params ++ [p], (paramIndex + 1)%Z).

Definition finish (b : builder) (limit : Z) : statement :=
  let '(conditions, params, paramIndex) := b in
  mkStatement conditions paramIndex (params ++ [Number limit]).

(** The statement of [VectorSearchService.search]. *)
Definition similarity_statement (queryEmbedding : list Q) (limit : Z)
  (f : filters) : statement :=
  let b : builder := ([], [Embedding queryEmbedding], 2%Z) in
  let b :=
    match non_empty (books f) with
    | Some items => push b TitleAmong (Array items)
    | None => b
    end in
  let b :=
    match non_empty (themes f) with
    | Some items => push b ThemesOverlap (Array items)
    | None => b
    end in
  let b :=
    match minScore f with
    | Some q => if Qeq_bool q 0 then b else push b ScoreAtLeast (Score q)
    | None => b
    end in
  finish b limit.

(** The statement of [MasterIndexService.keywordSearch] for array-valued
    [books] and [themes]. *)
Definition keyword_statement (query : jsstring) (books themes : list jsstring)
  (limit : Z) : statement :=
  let b : builder := ([], [Text query], 2%Z) in
  let b :=
    match books with
    | _ :: _ => push b TitleAmong (Array books)
    | [] => b
    end in
  let b :=
    match themes with
    | _ :: _ => push b ThemesOverlap (Array themes)
    | [] => b
    end in
  finish b limit.

(** ** Rows and results *)

(** The columns of a row that the endpoint reads.  [hebrew_text] and
    [themes] are nullable; the keyword statement does not select
    [hebrew_text]. *)
Record similarity_row := mkSimilarityRow {
  row_id : jsstring;
  row_content : jsstring;
  row_hebrew_text : option jsstring;
  row_exact_reference : jsstring;
  row_themes : option (list jsstring);
  row_book_title : jsstring;
  row_score : Q
}.

Record keyword_row := mkKeywordRow {
  kw_id : jsstring;
  kw_content : jsstring;
  kw_exact_reference : jsstring;
  kw_themes : option (list jsstring);
  kw_book_title : jsstring;
  kw_score : Q
}.

(** The objects that the two searches return. *)
Record found := mkFound {
  id : jsstring;
  content : jsstring;
  hebrew_text : option jsstring;    (* [None]: [null] or no such property *)
  exact_reference : jsstring;
  found_themes : list jsstring;
  book_title : jsstring;
  score : Q
}.

(** Everything the endpoint reaches over the network. *)
Record backend := mkBackend {
  generateEmbedding : jsstring -> outcome (list Q);
  similar_rows : statement -> outcome (list similarity_row);
  matching_rows : statement -> outcome (list keyword_row)
}.

Definition or_empty (l : option (list jsstring)) : list jsstring :=
  match l with Some l => l | None => [] end.

(** [VectorSearchService.search] *)
Definition search (w : backend) (query : jsstring) (limit : Z) (f : filters)
  : outcome (list found) :=
  try_catch
    (queryEmbedding <- generateEmbedding w query ;;
     rows <- similar_rows w (similarity_statement queryEmbedding limit f) ;;
     Resolved
       (List.map
          (fun row =>
             mkFound (row_id row) (row_content row) (row_hebrew_text row)
               (row_exact_reference row) (or_empty (row_themes row))
               (row_book_title row) (row_score row))
          rows))
    (fun message => Rejected (String.append "Vector search failed: " message)).

(** [const { books = [], themes = [], limit = 20 } = options]: the
    default replaces [undefined] only. *)
Definition array_or_default (field : array_field) : array_field :=
  match field with
  | Undefined => Items []
  | _ => field
  end.

(** [MasterIndexService.keywordSearch].  [books.length] of [null] throws
    inside the [try], and the [catch] returns [[]]. *)
Definition keywordSearch (w : backend) (query : jsstring)
  (books themes : array_field) (limit : Z) : outcome (list found) :=
  try_catch
    (match array_or_default books, array_or_default themes with
     | Items books, Items themes =>
         rows <- matching_rows w (keyword_statement query books themes limit) ;;
         Resolved
           (List.map
              (fun row =>
                 mkFound (kw_id row) (kw_content row) None
                   (kw_exact_reference row) (or_empty (kw_themes row))
                   (kw_book_title row) (kw_score row))
              rows)
     | _, _ => Rejected "Cannot read properties of null (reading 'length')"
     end)
    (fun _ => Resolved []).

(** ** The handler *)

(** The body of the request: [query] as sent ([None]: absent),
    [searchType] and [limit] before their defaults. *)
Record request := mkRequest {
  query : option jsstring;
  req_books : array_field;
  req_themes : array_field;
  searchType : option jsstring;
  limit : option Z
}.

(** An entry of [results] in the response. *)
Record summary := mkSummary {
  sum_id : jsstring;
  reference : jsstring;
  content_preview : jsstring;
  hebrew_preview : jsstring;
  sum_score : Q;
  book : jsstring;
  sum_themes : list jsstring
}.

Inductive response :=
| BadRequest                                           (* 400 *)
| Results (query : jsstring) (results : list summary)
    (total : nat) (search_type : jsstring)             (* 200 *)
| SearchFailed (message : string).                     (* 500 *)

Fixpoint same_text (a b : jsstring) : bool :=
  match a, b with
  | [], [] => true
  | x :: a', y :: b' => (x =? y)%N && same_text a' b'
  | _, _ => false
  end.

(** [s.substring(0, n) + '...'] *)
Definition preview (n : nat) (s : jsstring) : jsstring :=
  firstn n s ++ lit "...".

(** [chunk.hebrew_text?.substring(0, 200) + '...']: without a Hebrew text
    the left operand is [undefined]. *)
Definition hebrew_preview_of (hebrew_text : option jsstring) : jsstring :=
  match hebrew_text with
  | Some h => preview 200 h
  | None => lit "undefined" ++ lit "..."
  end.

Definition summarise (chunk : found) : summary :=
  mkSummary (id chunk) (exact_reference chunk) (preview 300 (content chunk))
    (hebrew_preview_of (hebrew_text chunk)) (score chunk) (book_title chunk)
    (found_themes chunk).

(** The handler; [initServices()] is taken to have succeeded and the
    [logger] call is left out. *)
Definition search_route (w : backend) (req : request) : response :=
  let books := array_or_default (req_books req) in
  let themes := array_or_default (req_themes req) in
  let searchType :=
    match searchType req with Some t => t | None => lit "semantic" end in
  let limit := match limit req with Some n => n | None => 20%Z end in
  match query req with
  | None | Some [] => BadRequest
  | Some query =>
      match
        (if same_text searchType (lit "semantic")
         then search w query limit (mkFilters books themes None)
         else keywordSearch w query books themes limit)
      with
      | Resolved results =>
          Results query (List.map summarise results) (List.length results)
            searchType
      | Rejected message => SearchFailed message
      end
  end.

End SearchRoute.

Unset Implicit Arguments.

(* ===================================================================== *)
(** * Vocabulary of the statements

    The inputs of the scenarios and the notions in which the properties
    below are stated.  Nothing here belongs to the program. *)
(* ===================================================================== *)

(** ** Result fusion *)

Module FusionSpec.

Import JS Fusion.
Open Scope string_scope.
Open Scope list_scope.

(** The scenario of the specification: chunk A (200 tokens, similarity
    0.9) and chunk B (150 tokens, similarity 0.6), B being also a result
    of the theme search, where [getChunksByIds] scores it 0.7. *)
Definition chunk_A : chunk :=
  mkChunk "A" "Likutei Moharan 1:1" (Some 200%Z) (9 # 10) None.

Definition chunk_B : chunk :=
  mkChunk "B" "Likutei Moharan 1:2" (Some 150%Z) (6 # 10) None.

Definition chunk_B_theme : chunk :=
  mkChunk "B" "Likutei Moharan 1:2" (Some 150%Z) (7 # 10) None.

(** (master results, vector results, theme results) *)
Definition scenario : list chunk * list chunk * list chunk :=
  ([], [chunk_A; chunk_B], [chunk_B_theme]).

(** The fused score of the chunk with a given id, if fusion kept one. *)
Definition fused_score (searchResults : list chunk * list chunk * list chunk)
  (k : string) : option Q :=
  option_map score (map_get (combine_map searchResults) k).

(** The tokens of a selection, [null] counting 0. *)
Definition total_tokens (l : list chunk) : Z :=
  fold_right (fun c acc => (tokens c + acc)%Z) 0%Z l.

(** The score stored in the map under an id. *)
Definition score_of (m : jsmap) (k : string) : option Q :=
  option_map score (map_get m k).

(** What a master or theme result does to the score under its id: add
    [boost] to a present score, enter [base] otherwise. *)
Definition boosted (boost base : Q) (current : option Q) : option Q :=
  match current with
  | Some s => Some (s + boost)
  | None => Some base
  end.

(** The effect of a whole stream on the score under [k]. *)
Definition stream_effect (g : chunk -> option Q -> option Q) (k : string)
  (stream : list chunk) (current : option Q) : option Q :=
  fold_left (fun cur c => if String.eqb (id c) k then g c cur else cur)
    stream current.

(** The stream with the chunks of id [k] taken out. *)
Definition without (k : string) (stream : list chunk) : list chunk :=
  List.filter (fun c => negb (String.eqb (id c) k)) stream.

(** Two present scores, the second one [d] above the first. *)
Definition apart (d : Q) (x y : option Q) : Prop :=
  exists a b, x = Some a /\ y = Some b /\ b == a + d.

End FusionSpec.

(** ** Scores in IEEE binary64 *)

Module Binary64.

Open Scope float_scope.

(** [Math.min] on two numbers that are not both zero. *)
Definition math_min (a b : float) : float :=
  if is_nan a then a else if is_nan b then b else if a <? b then a else b.

(** [calculateImportanceScore] as JavaScript evaluates it. *)
Definition calculateImportanceScore64 (frequency bookCount : float) : float :=
  let frequencyScore := math_min (frequency / 10) 1 in
  let distributionScore := math_min (bookCount / 5) 1 in
  frequencyScore * (7 / 10) + distributionScore * (3 / 10).

(** [chunk.score * 1.0] followed by [score += boost]. *)
Definition boosted_score64 (similarity boost : float) : float :=
  similarity * 1 + boost.

End Binary64.

(** ** Master index *)

Module MasterIndexSpec.

Import JS MasterIndex.
Open Scope string_scope.
Open Scope list_scope.

(** The rows a rebuild hands to [addIndexEntry], in call order. *)
Definition index_entries (chunks : list chunk_row) : list index_row :=
  let '(themeMap, keywordMap) := build_maps chunks in
  List.map (entry_of "theme") themeMap ++ List.map (entry_of "concept") keywordMap.

(** The index a reader finds when the rebuild started on [st] is cut off
    after [k] statements. *)
Definition index_after (schema : table_schema) (st : store) (k : nat)
  : list index_row :=
  master_index
    (snd (buildIndexFromChunks schema
            (mkStore (master_index st) (text_chunks st) (Some k)))).

(** The index left by a rebuild that no connection failure cuts short. *)
Definition rebuilt_index (schema : table_schema) (st : store) : list index_row :=
  master_index
    (snd (buildIndexFromChunks schema
            (mkStore (master_index st) (text_chunks st) None))).

(** The (key_term, index_type) pairs of an index, row by row. *)
Definition keys (table : list index_row) : list (string * string) :=
  List.map (fun r => (key_term r, index_type r)) table.

(** The first row of an index with a given term and type. *)
Fixpoint find_entry (table : list index_row) (term type : string)
  : option index_row :=
  match table with
  | [] => None
  | r :: table' =>
      if String.eqb (key_term r) term && String.eqb (index_type r) type
      then Some r else find_entry table' term type
  end.

(** The columns named by [ON CONFLICT]. *)
Definition conflict_target : list string := ["key_term"; "index_type"].

(** The calls that are served when the connection serves only [budget]
    more statements. *)
Definition served {A} (budget : option nat) (calls : list A) : list A :=
  match budget with
  | None => calls
  | Some k => firstn k calls
  end.

Definition after_calls (budget : option nat) (n : nat) : option nat :=
  match budget with
  | None => None
  | Some k => Some (k - n)%nat
  end.

Definition all_served {A} (budget : option nat) (calls : list A) : bool :=
  match budget with
  | None => true
  | Some k => (List.length calls <=? k)%nat
  end.

(** The terms of a chunk row, a NULL column counting as none. *)
Definition themes_of (c : chunk_row) : list string :=
  match themes c with Some ts => ts | None => [] end.

Definition keywords_of (c : chunk_row) : list string :=
  match keywords c with Some ks => ks | None => [] end.

(** The (term, chunk) occurrences of a column, in row order. *)
Definition occurrences (terms_of : chunk_row -> list string)
  (chunks : list chunk_row) : list (string * chunk_row) :=
  flat_map (fun c => List.map (fun t => (t, c)) (terms_of c)) chunks.

Definition record (m : term_map) (o : string * chunk_row) : term_map :=
  record_occurrence (snd o) m (fst o).

(** The two maps of a rebuild, each as one fold over its occurrences. *)
Definition theme_map (chunks : list chunk_row) : term_map :=
  fold_left record (occurrences themes_of chunks) [].

Definition keyword_map (chunks : list chunk_row) : term_map :=
  fold_left record (occurrences keywords_of chunks) [].

Definition data_or_empty (d : option term_data) : term_data :=
  match d with Some d => d | None => empty_term_data end.

(** One more occurrence, in chunk [c]. *)
Definition extend (c : chunk_row) (d : term_data) : term_data :=
  mkTermData (td_chunks d ++ [chunk_id c])
             (set_add (td_books d) (book_title c))
             (td_frequency d + 1).

(** The occurrences of one term. *)
Definition of_term (term : string) (os : list (string * chunk_row))
  : list (string * chunk_row) :=
  List.filter (fun o => String.eqb (fst o) term) os.

(** What [addIndexEntry] derives a score from: the frequency and the
    number of distinct books. *)
Definition summary (d : term_data) : Z * nat :=
  (td_frequency d, List.length (td_books d)).

Definition row_summary (r : index_row) : Z * nat :=
  (frequency r, List.length (book_references r)).

(** A store whose index has one entry and whose two chunks carry two
    themes and one keyword. *)
Definition old_index : list index_row :=
  [mkIndexRow "theme" "tikkun" ["c0"] ["Likutei Moharan"] 1 (13 # 100)].

Definition two_chunks : list chunk_row :=
  [mkChunkRow "c1" (Some ["joie"; "foi"]) (Some ["simcha"]) "LM 1:1"
     "Likutei Moharan";
   mkChunkRow "c2" (Some ["joie"]) None "SM 2:1" "Sippurei Maasiyot"].

Definition store_before_rebuild : store := mkStore old_index two_chunks None.

End MasterIndexSpec.

(** ** Query path *)

Module QuerySpec.

Import JS Fusion Query.
Open Scope string_scope.
Open Scope list_scope.

Definition chunk_X : chunk :=
  mkChunk "X" "Likutei Moharan 24:1" (Some 120%Z) (7 # 10) None.

Definition joy_analysis : query_analysis :=
  mkAnalysis (Some ["joie"]) (Some []) (Some ["simcha"]) (Some "simcha").

(** The embedding provider is down; the store answers every lookup. *)
Definition world_embedding_down : world :=
  mkWorld
    (fun _ => Resolved joy_analysis)
    (fun _ => Rejected "OpenRouter API failed: timeout of 30000ms exceeded")
    (fun _ _ => Resolved [chunk_X])
    (fun _ _ => Resolved [Some ["X"]])
    (fun _ => Resolved [chunk_X])
    (fun _ => Resolved [])
    (fun _ _ _ => Resolved (mkAnswer "..." (9 # 10) ["Likutei Moharan 24:1"]))
    None.

End QuerySpec.

(** ** Chunker *)

Module ChunkerSpec.

Import JS Chunker.
Open Scope Z_scope.
Open Scope list_scope.

(** A provider that fails every call, and one that always answers with
    an empty JSON object. *)
Definition provider_down : request -> outcome (list (option jsstring)) :=
  fun _ => Rejected "OpenRouter API failed: timeout of 30000ms exceeded".

Definition never_parsed : jsstring -> outcome json :=
  fun _ => Rejected "Unexpected token".

Definition provider_ok : request -> outcome (list (option jsstring)) :=
  fun _ => Resolved [Some (lit "{}")].

Definition parse_object : jsstring -> outcome json :=
  fun _ => Resolved (JObject []).

Definition likutei : book_metadata :=
  mkBook (lit "b-1") (lit "Likutei Moharan") (lit "Chassidut").

(** The payloads below are section lists already. *)
Definition sections_as_given (sections : list section_record)
  : list section_record := sections.

(** A book of two short sections, the first one bilingual. *)
Definition two_sections : list section_record :=
  [mkSection (lit "Torah 1")
     (TextArray [lit "shalom aleichem"]) (TextArray [lit "peace upon you"])
     (lit "Likutei Moharan 1");
   mkSection (lit "Torah 2")
     TextAbsent (TextString (lit "second teaching"))
     (lit "Likutei Moharan 2")].

(** One section holding one sentence of 48004 characters. *)
Definition one_long_sentence : list section_record :=
  [mkSection (lit "Torah 3") TextAbsent
     (TextString (repeat 97%N (N.to_nat 48004)))
     (lit "Likutei Moharan 3")].

Definition long_sentence_run : M (list chunk) :=
  chunkBook provider_ok parse_object default_config sections_as_given
    one_long_sentence likutei.

(** A chunk with given content and token count. *)
Definition plain_chunk (text : string) (n : Z) : chunk :=
  mkChunk (lit "b-1") 0 (lit text) None (lit "ref") (lit "Section") 1 n
    (lit "summary") (JArray []) (JArray []) true.

(** The content of [cur] ends with text that [next] begins with. *)
Definition ends_as_next_begins (cur next : jsstring) : Prop :=
  exists w a b, w <> [] /\ cur = a ++ w /\ next = w ++ b.

(** The same, decided by trying every length. *)
Definition shares_boundary (cur next : jsstring) : bool :=
  existsb
    (fun n => jsstring_eqb (skipn (List.length cur - n) cur) (firstn n next))
    (seq 1 (List.length cur)).

(** Only whitespace. *)
Definition blank (s : jsstring) : bool := forallb is_space s.

(** No sentence terminator. *)
Definition unbroken (s : jsstring) : Prop :=
  Forall (fun c => is_terminator c = false) s.

(** The two warnings that report a failed provider call, and the other
    log entries. *)
Definition provider_warning (e : log_entry) : Prop :=
  match e with
  | Warn_AnalysisFailed _ | Warn_SummaryFailed _ => True
  | _ => False
  end.

Definition routine_entry (e : log_entry) : bool :=
  match e with
  | Warn_AnalysisFailed _ | Warn_SummaryFailed _ => false
  | _ => true
  end.

(** What the loop over sections logs for the sections themselves. *)
Fixpoint section_lines (bookMetadata : book_metadata) (total : Z)
  (sections : list section_record) (i : Z) : list log_entry :=
  match sections with
  | [] => []
  | section :: sections' =>
      Debug_ProcessingSection (i + 1) total (title section)
      :: (if non_blank (combineTexts (hebrew_text section) (english_text section))
          then []
          else [Warn_EmptySection i (book_title bookMetadata)])
      ++ section_lines bookMetadata total sections' (i + 1)
  end.

Section WithConfig.

Variable cfg : config.

(** The chunk is one sentence, free of terminators, whose estimate alone
    exceeds the chunk size. *)
Definition single_sentence_overflow (c : chunk) : Prop :=
  exists s,
    unbroken s /\ content c = trim s
    /\ token_count c = estimateTokenCount s
    /\ chunkSize cfg < estimateTokenCount s.

Definition within_size_or_single_sentence (c : chunk) : Prop :=
  token_count c <= chunkSize cfg \/ single_sentence_overflow c.

(** The invariant of [intelligentSplit].  The running chunk is empty with
    a count of zero, or not blank with a positive count that is within
    the chunk size unless the running chunk is a single sentence. *)
Definition current_ok (st : split_state) : Prop :=
  (currentChunk st = [] /\ currentTokens st = 0)
  \/ (non_blank (currentChunk st) = true
      /\ 0 < currentTokens st
      /\ (currentTokens st <= chunkSize cfg
          \/ (unbroken (currentChunk st)
              /\ currentTokens st = estimateTokenCount (currentChunk st)
              /\ chunkSize cfg < currentTokens st))).

Definition state_ok (st : split_state) : Prop :=
  Forall within_size_or_single_sentence (chunks st) /\ current_ok st.

(** A unit that may be added: not blank, and within the chunk size unless
    it is a sentence. *)
Definition addable (unit : jsstring) : Prop :=
  non_blank unit = true
  /\ (estimateTokenCount unit <= chunkSize cfg \/ unbroken unit).

End WithConfig.

End ChunkerSpec.

(** The books on which the token bound is tried. *)
Module TokenBoundSpec.

Import JS Chunker ChunkerSpec.
Open Scope Z_scope.
Open Scope list_scope.

(** [n] times the word [w], separated by single spaces. *)
Definition words (w : string) (n : nat) : jsstring :=
  join (lit " ") (repeat (lit w) n).

(** Paragraphs, separated by blank lines. *)
Definition paragraphs (ps : list jsstring) : jsstring :=
  join [newline; newline] ps.

Definition run (cfg : config) (sections : list section_record)
  : M (list chunk) :=
  chunkBook provider_ok parse_object cfg sections_as_given sections likutei.

Definition before_overlap (cfg : config) (sections : list section_record)
  : M (list chunk) :=
  chunks_before_overlap provider_ok parse_object cfg likutei sections.

(** The estimate of the content of each chunk. *)
Definition content_estimates (chunks : list chunk) : list Z :=
  List.map (fun c => estimateTokenCount (content c)) chunks.

(** One section of forty paragraphs of four letters, and a chunk size of
    forty tokens. *)
Definition forty_paragraphs : list section_record :=
  [mkSection (lit "Torah 5") TextAbsent
     (TextString (paragraphs (repeat (lit "abcd") 40)))
     (lit "Likutei Moharan 5")].

Definition chunks_of_40 : config := configure (Some 40) None.

(** Two sections of sixteen words each, which fill a chunk of twenty
    tokens; the default overlap of 15 % is then 3 tokens, less than one
    word, and an overlap of 100 % is 5 words. *)
Definition two_full_sections : list section_record :=
  [mkSection (lit "Torah 6") TextAbsent (TextString (words "abcd" 16))
     (lit "Likutei Moharan 6");
   mkSection (lit "Torah 7") TextAbsent (TextString (words "abcd" 16))
     (lit "Likutei Moharan 7")].

Definition chunks_of_20 : config := configure (Some 20) None.

Definition full_overlap : config := configure (Some 20) (Some 100).

(** A section of three paragraphs of twenty tokens each and a section
    that is one sentence of fifty tokens, with a chunk size of forty
    tokens and an overlap of 50 %, which is 5 words. *)
Definition mixed_book : list section_record :=
  [mkSection (lit "Torah 8") TextAbsent
     (TextString (paragraphs (repeat (words "abcdefg" 10) 3)))
     (lit "Likutei Moharan 8");
   mkSection (lit "Torah 9") TextAbsent (TextString (repeat 97%N 200))
     (lit "Likutei Moharan 9")].

Definition half_overlap : config := configure (Some 40) (Some 50).

End TokenBoundSpec.

Module Order.

(** [l] is obtained from [l'] by leaving elements out, the others keeping
    their order. *)
Inductive subsequence {A : Type} : list A -> list A -> Prop :=
| subsequence_nil : subsequence [] []
| subsequence_skip x l l' : subsequence l l' -> subsequence l (x :: l')
| subsequence_keep x l l' : subsequence l l' -> subsequence (x :: l) (x :: l').

End Order.

Module FusionOrigin.

Import JS Fusion.
Open Scope string_scope.
Open Scope list_scope.

(** The ids of a stream. *)
Definition ids (stream : list chunk) : list string := List.map id stream.

(** The columns that fusion passes through. *)
Definition payload (c : chunk) : string * option Z :=
  (exact_reference c, token_count c).

(** The stream a fused chunk is attributed to: the similarity search when
    it returned the id, else the master index when it did, else the theme
    search. *)
Definition origin (masterResults vectorResults : list chunk) (k : string)
  : provenance :=
  if existsb (String.eqb k) (ids vectorResults) then Vector
  else if existsb (String.eqb k) (ids masterResults) then Master
  else Theme.

(** The stream of that name. *)
Definition stream_of (searchResults : list chunk * list chunk * list chunk)
  (p : provenance) : list chunk :=
  let '(masterResults, vectorResults, themeResults) := searchResults in
  match p with
  | Vector => vectorResults
  | Master => masterResults
  | Theme => themeResults
  end.

(** Descending by score. *)
Definition descending (a b : chunk) : Prop := (score b <= score a)%Q.

(** What fusion keeps of a chunk apart from its score. *)
Definition info (c : chunk) : option provenance * (string * option Z) :=
  (source c, payload c).

(** Every value is stored under its own id. *)
Definition keyed (m : jsmap) : Prop :=
  Forall (fun kv => id (snd kv) = fst kv) m.

(** The effect of a stream on what the map holds under [k], seen through
    a projection of the chunks. *)
Definition effect_on {B : Type} (g : chunk -> option B -> option B)
  (k : string) (stream : list chunk) (current : option B) : option B :=
  fold_left (fun cur c => if String.eqb (id c) k then g c cur else cur)
    stream current.

(** A similarity result replaces what is there. *)
Definition enter_vector (c : chunk) (_ : option (option provenance * (string * option Z)))
  : option (option provenance * (string * option Z)) :=
  Some (Some Vector, payload c).

(** A master or theme result enters its row only under a new id. *)
Definition enter_new (p : provenance) (c : chunk)
  (current : option (option provenance * (string * option Z)))
  : option (option provenance * (string * option Z)) :=
  match current with
  | Some i => Some i
  | None => Some (Some p, payload c)
  end.

(** Two rows of the similarity search, both with a score. *)
Definition scored_rows : list SimilarityRows.similarity_row :=
  [SimilarityRows.mkSimilarityRow "A" "Likutei Moharan 1:1" (Some 200%Z)
     (Some (6 # 10));
   SimilarityRows.mkSimilarityRow "B" "Likutei Moharan 1:2" (Some 150%Z)
     (Some (9 # 10))].

(** Every entry is stored under its own id, and no key occurs twice. *)
Definition well_formed (m : jsmap) : Prop := keyed m /\ NoDup (map_keys m).

End FusionOrigin.

Module LookupSpec.

Import JS Fusion Query.
Open Scope string_scope.
Open Scope list_scope.

(** A store and a provider that answer every call: two indexed chunks for
    every term, no book, an answer citing the first chunk. *)
Definition chunk_Y : chunk :=
  mkChunk "Y" "Likutei Moharan 24:2" (Some 80%Z) (7 # 10) None.

Definition world_all_up : world :=
  mkWorld
    (fun _ => Resolved QuerySpec.joy_analysis)
    (fun _ => Resolved [1 # 2; 1 # 3])
    (fun _ _ => Resolved [QuerySpec.chunk_X])
    (fun _ _ => Resolved [Some ["X"; "Y"]; None])
    (fun _ => Resolved [QuerySpec.chunk_X; chunk_Y])
    (fun _ => Resolved [])
    (fun _ _ _ => Resolved (mkAnswer "..." (1 # 1) ["Likutei Moharan 24:1"]))
    None.

(** A score that the comparator of [sortByImportance] takes for true. *)
Definition scored (c : chunk) : Prop := ~ score c == 0.

End LookupSpec.

Module IndexLookupSpec.

Import JS MasterIndex MasterIndexSpec.
Open Scope string_scope.
Open Scope list_scope.

(** The chunk rows that carry [term] in a column, in row order, once per
    occurrence. *)
Definition carriers (terms_of : chunk_row -> list string) (term : string)
  (chunks : list chunk_row) : list chunk_row :=
  List.map snd (of_term term (occurrences terms_of chunks)).

(** An index entry agrees with the chunk rows that carry its term: there
    is no entry when no row carries the term; otherwise the entry lists
    the ids of the carrying rows, its frequency is their number, and its
    book references are their titles, each once. *)
Definition entry_matches (entry : option index_row) (rows : list chunk_row)
  : Prop :=
  match entry with
  | None => rows = []
  | Some row =>
      rows <> []
      /\ related_chunks row = List.map chunk_id rows
      /\ frequency row = Z.of_nat (List.length rows)
      /\ NoDup (book_references row)
      /\ (forall b, In b (book_references row)
                    <-> In b (List.map book_title rows))
  end.

(** The columns that [DO UPDATE SET] assigns. *)
Definition assigned (r : index_row) : list string * list string * Z * Q :=
  (related_chunks r, book_references r, frequency r, importance_score r).

End IndexLookupSpec.

Module ChunkingSpec.

Import JS Chunker ChunkerSpec.
Open Scope Z_scope.
Open Scope list_scope.

(** Neither whitespace nor a sentence terminator. *)
Definition kept (c : char) : bool := negb (is_space c || is_terminator c).

(** A text without its whitespace and its sentence terminators. *)
Definition essence (s : jsstring) : jsstring := List.filter kept s.

(** The contents of a list of chunks, one after the other. *)
Definition contents (chunks : list chunk) : jsstring :=
  List.concat (List.map content chunks).

(** The text that [intelligentSplit] has taken in so far. *)
Definition text_of (st : split_state) : jsstring :=
  contents (chunks st) ++ currentChunk st.

(** The reference of the [k]-th part (from 0) of a section that was split. *)
Definition part_reference (section : section_record) (k : nat) : jsstring :=
  reference section ++ lit ":" ++ decimal (Z.of_nat k + 1).

(** The fields that place a chunk in its book and section. *)
Definition placed (section : section_record) (bookMetadata : book_metadata)
  (sectionIndex : Z) (k : nat) (c : chunk) : Prop :=
  c_book_id c = book_id bookMetadata
  /\ section_title c = title section
  /\ paragraph_number c = sectionIndex + 1
  /\ chunk_index c = Z.of_nat k.

(** The [k]-th part of a section that was split. *)
Definition numbered_part (section : section_record)
  (bookMetadata : book_metadata) (sectionIndex : Z) (k : nat) (c : chunk)
  : Prop :=
  placed section bookMetadata sectionIndex k c
  /\ is_complete_section c = false
  /\ exact_reference c = part_reference section k
  /\ c_hebrew_text c = extractHebrewFromContent (content c) TextAbsent.

(** The parts so far are numbered from 0 and [index] is the next number. *)
Definition numbered (section : section_record) (bookMetadata : book_metadata)
  (sectionIndex : Z) (chunks : list chunk) (index : Z) : Prop :=
  index = Z.of_nat (List.length chunks)
  /\ forall k c, nth_error chunks k = Some c ->
                 numbered_part section bookMetadata sectionIndex k c.

(** A chunk with text in it and a positive token count. *)
Definition solid (c : chunk) : Prop :=
  non_blank (content c) = true /\ 1 <= token_count c.

(** Only Hebrew letters and marks, directional marks and whitespace. *)
Definition hebrew_only (s : jsstring) : Prop :=
  Forall (fun c => is_hebrew_or_space c = true) s.

(** The emitted chunks and the running chunk hold no sentence terminator. *)
Definition terminator_free (st : split_state) : Prop :=
  Forall (fun c => unbroken (content c)) (chunks st)
  /\ unbroken (currentChunk st).

(** A configuration whose overlap is less than one word: 15 % of 20
    tokens are 3 tokens, and a word counts for 4. *)
Definition tiny_config : config := configure (Some 20) None.

(** A section of two short sentences, and a chunk size it exceeds. *)
Definition two_sentences : section_record :=
  mkSection (lit "Torah 4") TextAbsent (TextString (lit "Be glad. Pray!"))
    (lit "Likutei Moharan 4").

Definition two_token_chunks : config := configure (Some 2) None.

(** No Hebrew letter or mark: whatever is in the class of
    [extractHebrewFromContent] is whitespace. *)
Definition without_hebrew (s : jsstring) : Prop :=
  Forall (fun c => is_hebrew_or_space c = true -> is_space c = true) s.

End ChunkingSpec.

Module SectionsSpec.

Import JS Chunker Sections.
Open Scope Z_scope.
Open Scope list_scope.

(** The positions of the direct format that carry text. *)
Definition carries_text (bookData : payload) (i : nat) : bool :=
  has_text (section_of_position bookData i).



(** A payload in the direct format: two Hebrew texts, of which the first
    is empty, and one English text. *)
Definition direct_texts : payload :=
  mkPayload None
    (Texts [TextString []; TextString [1488; 1489]%N; TextAbsent])
    (Texts [TextString []; TextString (lit "second")])
    None.

End SectionsSpec.

Module OpenRouterSpec.

Import JS Chunker OpenRouter.
Open Scope list_scope.

(** The number of colons of a text. *)
Definition colons (s : jsstring) : nat :=
  List.length (List.filter (N.eqb colon) s).

(** [needle] occurs in [hay]. *)
Definition occurs_in (needle hay : jsstring) : Prop :=
  exists before after, hay = before ++ needle ++ after.

(** A chunk whose reference is set and contains [reference]. *)
Definition refers_to (reference : jsstring) (chunk : source) : Prop :=
  exists exact,
    source_reference chunk = Some exact /\ exact <> []
    /\ occurs_in reference exact.

(** A citation is verified against the chunks: it carries the id of a
    chunk that refers to it, or no chunk refers to it. *)
Definition checked_against (chunks : list source) (c : citation) : Prop :=
  match chunk_id c with
  | Some id =>
      verified c = true
      /\ exists chunk,
           In chunk chunks /\ source_id chunk = id
           /\ refers_to (cited_reference c) chunk
  | None =>
      verified c = false
      /\ forall chunk, In chunk chunks -> ~ refers_to (cited_reference c) chunk
  end.

Definition all_verified (citations : list citation) : Prop :=
  Forall (fun c => verified c = true) citations.

(** Two chunks, the first with the reference of a sub-chunk, and an answer
    that cites it and a second passage that no chunk holds. *)
Definition two_sources : list source :=
  [mkSource (lit "id1") (Some (lit "Likutei Moharan I:24:3:1"));
   mkSource (lit "id2") None].

Definition cited_answer : jsstring :=
  lit "Voir Likutei Moharan I:24:3, et likutei moharan II:5:1. Fin".

End OpenRouterSpec.

(** The arithmetic of [calculateConfidence] in binary64. *)
Module Confidence64.

Definition calculateConfidence64 (verifiedCitations citations : float)
  (sourceScore : float) : float :=
  Binary64.math_min (verifiedCitations / citations * (7 / 10) + sourceScore) 1.

End Confidence64.

Module LoggerSpec.

Import Logger.
Open Scope Z_scope.

(** The severity order: [Error] first. *)
Definition rank (l : level) : Z :=
  match l with Error => 0 | Warn => 1 | Info => 2 | Debug => 3 end.

(** The variable names one of the four levels. *)
Definition names_a_level (env_LOG_LEVEL : option string) : Prop :=
  exists l, configured env_LOG_LEVEL = name l.

End LoggerSpec.

Module VectorStoreSpec.

Import JS VectorStore.

(** [rows] are the chunks in order, each with the embedding that the
    provider returned for it. *)
Definition embedded {chunk embedding : Type}
  (generateEmbedding : chunk -> outcome embedding)
  (chunks : list chunk) (rows : list (chunk * embedding)) : Prop :=
  Forall2 (fun c row => fst row = c /\ generateEmbedding c = Resolved (snd row))
    chunks rows.

(** A store of numbered chunks whose only constraint is the primary key. *)
Definition duplicate_key (rows : list (nat * nat)) (row : nat * nat)
  : option string :=
  if existsb (fun r => Nat.eqb (fst r) (fst row)) rows
  then Some "duplicate key value violates unique constraint"%string
  else None.

Definition one_row_store : connection nat nat :=
  mkConnection [(1, 10)]%nat Idle None 0.

End VectorStoreSpec.

Module SearchSpec.

Import JS Chunker SearchRoute.

Definition placeholder (c : condition) : Z :=
  match c with
  | TitleAmong n | ThemesOverlap n | ScoreAtLeast n => n
  end.

(** The parameter that [$n] stands for. *)
Definition bound (s : statement) (n : Z) : option param :=
  if (1 <=? n)%Z then nth_error (params s) (Z.to_nat (n - 1)) else None.

(** The condition [c] of [s] is about a filter that is set, and its
    placeholder stands for the value of that filter. *)
Definition binds (f : filters) (s : statement) (c : condition) : Prop :=
  match c with
  | TitleAmong n =>
      exists items,
        books f = Items items /\ items <> [] /\ bound s n = Some (Array items)
  | ThemesOverlap n =>
      exists items,
        themes f = Items items /\ items <> [] /\ bound s n = Some (Array items)
  | ScoreAtLeast n =>
      exists q, minScore f = Some q /\ ~ q == 0 /\ bound s n = Some (Score q)
  end.

(** The filters that are set: one per condition, in the order of the
    [if]s. *)
Definition active (f : filters) : list bool :=
  [match non_empty (books f) with Some _ => true | None => false end;
   match non_empty (themes f) with Some _ => true | None => false end;
   match minScore f with Some q => negb (Qeq_bool q 0) | None => false end].

Definition well_bound (first : param) (limit : Z) (f : filters)
  (s : statement) : Prop :=
  bound s 1 = Some first
  /\ bound s (limit_placeholder s) = Some (Number limit)
  /\ limit_placeholder s = Z.of_nat (List.length (params s))
  /\ List.length (params s) = (2 + List.length (conditions s))%nat
  /\ List.length (conditions s) = List.length (List.filter (fun b => b) (active f))
  /\ NoDup (List.map placeholder (conditions s))
  /\ Forall (binds f s) (conditions s).

(** The endpoint answers a keyword search for [q]. *)
Definition keyword_request (req : request) (q t : jsstring) : Prop :=
  query req = Some q /\ q <> [] /\ searchType req = Some t
  /\ same_text t (lit "semantic") = false.

(** The endpoint answers a semantic search for [q]. *)
Definition semantic_request (req : request) (q : jsstring) : Prop :=
  query req = Some q /\ q <> []
  /\ (searchType req = None \/ searchType req = Some (lit "semantic")).

Definition ends_with_dots (s : jsstring) : Prop :=
  exists cut, s = cut ++ lit "...".

Definition store_down : backend :=
  mkBackend (fun _ => Rejected "No API key"%string)
    (fun _ => Rejected "Connection terminated unexpectedly"%string)
    (fun _ => Rejected "Connection terminated unexpectedly"%string).

Definition one_keyword_row : keyword_row :=
  mkKeywordRow (lit "7") (lit "Be glad always") (lit "Likutei Moharan 2:24:1")
    None (lit "Likutei Moharan") (1 # 10).

Definition one_similarity_row : similarity_row :=
  mkSimilarityRow (lit "7") (lit "Be glad always") None
    (lit "Likutei Moharan 2:24:1") None (lit "Likutei Moharan") (9 # 10).

Definition store_up : backend :=
  mkBackend (fun _ => Resolved [1 # 2])
    (fun _ => Resolved [one_similarity_row])
    (fun _ => Resolved [one_keyword_row]).

End SearchSpec.

(* ===================================================================== *)
(** * Facts about string-keyed maps                                       *)
(* ===================================================================== *)

Section MapFacts.

Import JS.
Variable V : Type.
Implicit Types (m : smap V) (k : string) (v : V).

Lemma map_get_set m k v k' :
  map_get (map_set m k v) k' = if String.eqb k k' then Some v else map_get m k'.
Proof.
  induction m as [|[k0 v0] m IH]; simpl.
  - destruct (String.eqb_spec k k'); reflexivity.
  - destruct (String.eqb_spec k0 k) as [-> | Hne]; simpl.
    + destruct (String.eqb_spec k k'); reflexivity.
    + rewrite IH. destruct (String.eqb_spec k0 k') as [-> | Hne'].
      * destruct (String.eqb_spec k k'); [congruence | reflexivity].
      * reflexivity.
Qed.

Lemma map_get_update m k (f : V -> V) k' :
  map_get (map_update m k f) k'
  = if String.eqb k k' then option_map f (map_get m k') else map_get m k'.
Proof.
  induction m as [|[k0 v0] m IH]; simpl.
  - destruct (String.eqb k k'); reflexivity.
  - destruct (String.eqb_spec k0 k) as [-> | Hne]; simpl.
    + destruct (String.eqb_spec k k'); reflexivity.
    + rewrite IH. destruct (String.eqb_spec k0 k') as [-> | Hne'].
      * destruct (String.eqb_spec k k'); [congruence | reflexivity].
      * reflexivity.
Qed.

Lemma map_get_None_not_key m k :
  map_get m k = None -> ~ In k (map_keys m).
Proof.
  induction m as [|[k0 v0] m IH]; simpl; intros Hget Hin.
  - exact Hin.
  - destruct (String.eqb_spec k0 k) as [-> | Hne]; [discriminate |].
    destruct Hin as [Heq | Hin]; [congruence | exact (IH Hget Hin)].
Qed.

Lemma map_get_Some_key m k v :
  map_get m k = Some v -> In k (map_keys m).
Proof.
  induction m as [|[k0 v0] m IH]; simpl; intros Hget.
  - discriminate.
  - destruct (String.eqb_spec k0 k) as [-> | Hne].
    + left. reflexivity.
    + right. exact (IH Hget).
Qed.

Lemma map_keys_update m k (f : V -> V) :
  map_keys (map_update m k f) = map_keys m.
Proof.
  induction m as [|[k0 v0] m IH]; simpl.
  - reflexivity.
  - destruct (String.eqb k0 k); simpl; [reflexivity | rewrite IH; reflexivity].
Qed.

Lemma map_keys_set_fresh m k v :
  map_get m k = None -> map_keys (map_set m k v) = map_keys m ++ [k].
Proof.
  induction m as [|[k0 v0] m IH]; simpl; intros Hget.
  - reflexivity.
  - destruct (String.eqb k0 k); [discriminate |]. simpl. rewrite IH by exact Hget.
    reflexivity.
Qed.

End MapFacts.

(* ===================================================================== *)
(** * Properties of result fusion and budget selection                    *)
(* ===================================================================== *)

Section FusionFacts.

Import JS Fusion FusionSpec.
Open Scope string_scope.
Open Scope list_scope.

(** ** Budget selection *)

Lemma total_tokens_app l c :
  total_tokens (l ++ [c]) = (total_tokens l + tokens c)%Z.
Proof.
  induction l as [|x l IH]; simpl.
  - lia.
  - rewrite IH. lia.
Qed.

(** The loop invariant of [selectBestChunks]: the running total is the sum
    over the selection, it stays below the limit once something is
    selected, and the loop is only entered with fewer than 20 chunks. *)
Lemma select_loop_invariant limit results :
  forall totalTokens selected,
    totalTokens = total_tokens selected ->
    (selected = [] \/ (totalTokens < limit)%Z) ->
    (List.length selected < 20)%nat ->
    let r := select_loop limit results totalTokens selected in
    (r = [] \/ (total_tokens r < limit)%Z) /\ (List.length r <= 20)%nat.
Proof.
  induction results as [|c rest IH]; intros total sel Htot Hlim Hlen;
    cbn [select_loop]; cbv zeta.
  - subst total. split; [assumption | lia].
  - destruct (total + tokens c <? limit)%Z eqn:Hfit.
    + apply Z.ltb_lt in Hfit.
      assert (Hsum : (total + tokens c)%Z = total_tokens (sel ++ [c]))
        by (rewrite total_tokens_app; lia).
      assert (Hl : List.length (sel ++ [c]) = S (List.length sel))
        by (rewrite length_app; simpl; lia).
      destruct (20 <=? List.length (sel ++ [c]))%nat eqn:Hcap.
      * split; [right; rewrite <- Hsum; exact Hfit | lia].
      * apply Nat.leb_gt in Hcap.
        apply IH; [exact Hsum | right; exact Hfit | exact Hcap].
    + destruct (20 <=? List.length sel)%nat eqn:Hcap.
      * apply Nat.leb_le in Hcap. lia.
      * apply IH; assumption.
Qed.

(** C3, as stated, fails.  [MAX_CONTEXT_TOKENS=-5] is a budget that the
    code takes: [parseInt] gives -5, which is truthy, so the default does
    not replace it.  No chunk of the fused scenario is selected, and the
    token counts of the empty selection sum to 0, which is more than the
    budget. *)
Lemma negative_budget_is_exceeded_by_the_empty_selection :
  maxTokens (Some (-5)%Z) = (-5)%Z
  /\ selectBestChunks (Some (-5)%Z) (combineSearchResults scenario) = []
  /\ ~ (total_tokens
          (selectBestChunks (Some (-5)%Z) (combineSearchResults scenario))
        <= maxTokens (Some (-5)%Z))%Z.
Proof.
  split; [reflexivity |]. split; [reflexivity |].
  vm_compute. intros H. apply H. reflexivity.
Qed.

(** C3, amended.  Whatever list is handed to [selectBestChunks] and
    whatever budget that is not negative [MAX_CONTEXT_TOKENS] configures
    (800000 when it is unset, not a number or 0), the token counts of the
    selected chunks sum to at most the budget and at most 20 chunks are
    selected. *)
Theorem selection_respects_budget_and_cap :
  forall (env_MAX_CONTEXT_TOKENS : option Z) (results : list chunk),
    (0 <= maxTokens env_MAX_CONTEXT_TOKENS)%Z ->
    (total_tokens (selectBestChunks env_MAX_CONTEXT_TOKENS results)
       <= maxTokens env_MAX_CONTEXT_TOKENS)%Z
    /\ (List.length (selectBestChunks env_MAX_CONTEXT_TOKENS results) <= 20)%nat.
Proof.
  intros env results Hbudget. unfold selectBestChunks.
  pose proof (select_loop_invariant (maxTokens env) results 0%Z []) as H.
  cbv zeta in H.
  destruct H as [[Hempty | Hlt] Hlen];
    [reflexivity | left; reflexivity | simpl; lia | |].
  - rewrite Hempty. simpl. lia.
  - split; [lia | exact Hlen].
Qed.

Lemma selection_respects_budget_and_cap_witness :
  (total_tokens (selectBestChunks (Some 300%Z) (combineSearchResults scenario))
     <= maxTokens (Some 300%Z))%Z
  /\ (List.length
        (selectBestChunks (Some 300%Z) (combineSearchResults scenario)) <= 20)%nat.
Proof.
  apply (selection_respects_budget_and_cap (Some 300%Z)
           (combineSearchResults scenario)).
  simpl. lia.
Defined.

(** C2, as stated, fails: under the budget of 300 the selection is A alone,
    because B would bring the running total to 200 + 150 = 350. *)
Lemma scenario_budget_300_selects_A_only :
  List.map id (selectBestChunks (Some 300%Z) (combineSearchResults scenario))
    = ["A"]
  /\ List.map id (selectBestChunks (Some 300%Z) (combineSearchResults scenario))
    <> ["A"; "B"].
Proof.
  split; [reflexivity | vm_compute; discriminate].
Qed.

(** C2, amended.  Fusion of the scenario yields A before B, with fused
    scores 0.9 and 0.6 + 0.2 = 0.8.  Budget selection with a budget of 300
    keeps A only (200 tokens); every budget above 350 keeps both, A before
    B. *)
Theorem scenario_fusion_then_selection :
  forall budget : Z,
    (350 < budget)%Z ->
    List.map id (combineSearchResults scenario) = ["A"; "B"]
    /\ (exists a b,
          fused_score scenario "A" = Some a /\ a == 9 # 10
          /\ fused_score scenario "B" = Some b /\ b == (6 # 10) + (2 # 10)
          /\ b == 8 # 10)
    /\ List.map id
         (selectBestChunks (Some 300%Z) (combineSearchResults scenario)) = ["A"]
    /\ total_tokens
         (selectBestChunks (Some 300%Z) (combineSearchResults scenario)) = 200%Z
    /\ List.map id
         (selectBestChunks (Some budget) (combineSearchResults scenario))
       = ["A"; "B"].
Proof.
  intros budget Hbudget.
  split; [reflexivity |].
  split.
  { eexists; eexists.
    split; [reflexivity |]. split; [reflexivity |].
    split; [reflexivity |]. split; reflexivity. }
  split; [reflexivity |]. split; [reflexivity |].
  assert (Hcombined : combineSearchResults scenario
            = [with_score chunk_A ((9 # 10) * 1) (Some Vector);
               with_score chunk_B ((6 # 10) * 1 + (2 # 10)) (Some Vector)])
    by reflexivity.
  rewrite Hcombined.
  unfold selectBestChunks, maxTokens.
  assert (Hnz : (budget =? 0)%Z = false) by (apply Z.eqb_neq; lia).
  rewrite Hnz. cbn [select_loop]; cbv zeta.
  assert (HA : (0 + tokens (with_score chunk_A ((9 # 10) * 1) (Some Vector))
                <? budget)%Z = true)
    by (apply Z.ltb_lt; change (0 + 200 < budget)%Z; lia).
  rewrite HA. cbn [List.length app Nat.leb].
  assert (HB : (0 + tokens (with_score chunk_A ((9 # 10) * 1) (Some Vector))
                + tokens (with_score chunk_B ((6 # 10) * 1 + (2 # 10)) (Some Vector))
                <? budget)%Z = true)
    by (apply Z.ltb_lt; change (0 + 200 + 150 < budget)%Z; lia).
  rewrite HB. reflexivity.
Qed.

Lemma scenario_fusion_then_selection_witness :
  List.map id (combineSearchResults scenario) = ["A"; "B"]
  /\ (exists a b,
        fused_score scenario "A" = Some a /\ a == 9 # 10
        /\ fused_score scenario "B" = Some b /\ b == (6 # 10) + (2 # 10)
        /\ b == 8 # 10)
  /\ List.map id
       (selectBestChunks (Some 300%Z) (combineSearchResults scenario)) = ["A"]
  /\ total_tokens
       (selectBestChunks (Some 300%Z) (combineSearchResults scenario)) = 200%Z
  /\ List.map id
       (selectBestChunks (Some 351%Z) (combineSearchResults scenario))
     = ["A"; "B"].
Proof.
  apply (scenario_fusion_then_selection 351). lia.
Defined.

(** ** The fused score of one chunk

    Fusion acts on the score stored under an id [k] only through the
    chunks of the streams that carry this id. *)

Lemma score_add_vector m c k :
  score_of (add_vector m c) k
  = if String.eqb (id c) k then Some (score c * 1) else score_of m k.
Proof.
  unfold score_of, add_vector. rewrite map_get_set.
  destruct (String.eqb (id c) k); reflexivity.
Qed.

Lemma score_add_boost boost base src m c k :
  score_of
    (if map_has m (id c)
     then map_boost m (id c) boost
     else map_set m (id c) (with_score c base src)) k
  = if String.eqb (id c) k then boosted boost base (score_of m k)
    else score_of m k.
Proof.
  unfold score_of, map_has.
  destruct (String.eqb_spec (id c) k) as [<- | Hne].
  - destruct (map_get m (id c)) as [v|] eqn:Hget.
    + unfold map_boost. rewrite map_get_update, String.eqb_refl, Hget.
      reflexivity.
    + rewrite map_get_set, String.eqb_refl. reflexivity.
  - apply String.eqb_neq in Hne.
    destruct (map_get m (id c)).
    + unfold map_boost. rewrite map_get_update, Hne. reflexivity.
    + rewrite map_get_set, Hne. reflexivity.
Qed.

Lemma score_fold (f : jsmap -> chunk -> jsmap) g k :
  (forall m c, score_of (f m c) k
               = if String.eqb (id c) k then g c (score_of m k) else score_of m k) ->
  forall stream m,
    score_of (fold_left f stream m) k = stream_effect g k stream (score_of m k).
Proof.
  intros Hstep stream. unfold stream_effect.
  induction stream as [|c stream IH]; intros m; simpl.
  - reflexivity.
  - rewrite IH, Hstep. reflexivity.
Qed.

Lemma fused_score_streams masterResults vectorResults themeResults k :
  fused_score (masterResults, vectorResults, themeResults) k
  = stream_effect (fun _ => boosted (2 # 10) (5 # 10)) k themeResults
      (stream_effect (fun _ => boosted (3 # 10) (7 # 10)) k masterResults
         (stream_effect (fun c _ => Some (score c * 1)) k vectorResults None)).
Proof.
  unfold fused_score, combine_map. fold (score_of).
  change (option_map score
            (map_get
               (fold_left add_theme themeResults
                  (fold_left add_master masterResults
                     (fold_left add_vector vectorResults []))) k))
    with (score_of
            (fold_left add_theme themeResults
               (fold_left add_master masterResults
                  (fold_left add_vector vectorResults []))) k).
  rewrite (score_fold add_theme (fun _ => boosted (2 # 10) (5 # 10)))
    by (intros; apply score_add_boost).
  rewrite (score_fold add_master (fun _ => boosted (3 # 10) (7 # 10)))
    by (intros; apply score_add_boost).
  rewrite (score_fold add_vector (fun c _ => Some (score c * 1)))
    by (intros; apply score_add_vector).
  reflexivity.
Qed.

(** A stream that does not carry [k] leaves its score alone. *)
Lemma stream_effect_absent g k stream current :
  ~ In k (List.map id stream) -> stream_effect g k stream current = current.
Proof.
  unfold stream_effect. revert current.
  induction stream as [|c stream IH]; intros current Hnot; simpl.
  - reflexivity.
  - simpl in Hnot.
    destruct (String.eqb_spec (id c) k) as [Heq | Hne].
    + exfalso. apply Hnot. left. exact Heq.
    + apply IH. intros Hin. apply Hnot. right. exact Hin.
Qed.

(** A stream without repeated ids acts through the one chunk it has for [k]. *)
Lemma stream_effect_once g k stream c current :
  NoDup (List.map id stream) -> In c stream -> id c = k ->
  stream_effect g k stream current = g c current.
Proof.
  unfold stream_effect. revert current.
  induction stream as [|c0 stream IH]; intros current Hnd Hin Hk; simpl.
  - destruct Hin.
  - simpl in Hnd. inversion Hnd as [|? ? Hfresh Hnd']; subst.
    destruct Hin as [-> | Hin].
    + rewrite String.eqb_refl.
      apply (stream_effect_absent g (id c) stream (g c current)). exact Hfresh.
    + destruct (String.eqb_spec (id c0) (id c)) as [Heq | Hne].
      * exfalso. apply Hfresh. rewrite Heq. apply in_map. exact Hin.
      * apply IH; [exact Hnd' | exact Hin | reflexivity].
Qed.

Lemma without_absent k stream : ~ In k (List.map id (without k stream)).
Proof.
  unfold without. intros Hin. apply in_map_iff in Hin.
  destruct Hin as [c [Hid Hc]]. apply filter_In in Hc. destruct Hc as [_ Hc].
  rewrite Hid, String.eqb_refl in Hc. discriminate.
Qed.

Lemma boosts_keep_apart boost base d k stream :
  forall x y,
    apart d x y ->
    apart d (stream_effect (fun _ => boosted boost base) k stream x)
            (stream_effect (fun _ => boosted boost base) k stream y).
Proof.
  unfold stream_effect.
  induction stream as [|c stream IH]; intros x y Hxy; simpl.
  - exact Hxy.
  - apply IH. destruct (String.eqb (id c) k); [| exact Hxy].
    destruct Hxy as [a [b [-> [-> Hd]]]]. simpl.
    exists (a + boost), (b + boost). repeat split. rewrite Hd. ring.
Qed.

(** C7, as stated, fails: a chunk with similarity 0.1 that the master index
    also routes to gets 0.1 + 0.3 = 0.4, below the 0.7 it gets from the
    master index alone. *)
Lemma low_similarity_chunk_scores_below_master_only :
  let in_vector := mkChunk "X" "ref" (Some 10%Z) (1 # 10) None in
  let in_master := mkChunk "X" "ref" (Some 10%Z) (7 # 10) None in
  exists both master_only,
    fused_score ([in_master], [in_vector], []) "X" = Some both
    /\ fused_score ([in_master], [], []) "X" = Some master_only
    /\ ~ (master_only < both).
Proof.
  eexists; eexists. split; [reflexivity |]. split; [reflexivity |].
  vm_compute. discriminate.
Qed.

(** C7, amended.  For streams without repeated ids, a chunk found by both
    similarity search (score [s]) and master-index routing is fused to a
    score strictly above what it gets from similarity search alone; it is
    above what it gets from master-index routing alone exactly when
    [s > 0.4]. *)
Theorem boost_beats_vector_only_and_master_only_above_04 :
  forall (masterResults vectorResults themeResults : list chunk) (c : chunk),
    NoDup (List.map id vectorResults) ->
    NoDup (List.map id masterResults) ->
    In c vectorResults ->
    In (id c) (List.map id masterResults) ->
    exists both vector_only master_only,
      fused_score (masterResults, vectorResults, themeResults) (id c)
        = Some both
      /\ fused_score (without (id c) masterResults, vectorResults, themeResults)
           (id c) = Some vector_only
      /\ fused_score (masterResults, without (id c) vectorResults, themeResults)
           (id c) = Some master_only
      /\ vector_only < both
      /\ (master_only < both <-> 4 # 10 < score c).
Proof.
  intros M V T c HV HM HcV HcM.
  apply in_map_iff in HcM. destruct HcM as [cm [Hcm HcmM]].
  rewrite !fused_score_streams.
  rewrite (stream_effect_once (fun c _ => Some (score c * 1)) (id c) V c None HV HcV eq_refl).
  rewrite (stream_effect_once (fun _ => boosted (3 # 10) (7 # 10)) (id c) M cm _ HM HcmM Hcm).
  rewrite (stream_effect_absent _ (id c) (without (id c) M) _ (without_absent (id c) M)).
  rewrite (stream_effect_absent _ (id c) (without (id c) V) _ (without_absent (id c) V)).
  rewrite (stream_effect_once (fun _ => boosted (3 # 10) (7 # 10)) (id c) M cm _ HM HcmM Hcm).
  cbn [boosted].
  destruct (boosts_keep_apart (2 # 10) (5 # 10) (3 # 10) (id c) T
              (Some (score c * 1)) (Some (score c * 1 + (3 # 10))))
    as [v [b [Hv [Hb Hvb]]]].
  { exists (score c * 1), (score c * 1 + (3 # 10)). repeat split. }
  destruct (boosts_keep_apart (2 # 10) (5 # 10) (score c - (4 # 10)) (id c) T
              (Some (7 # 10)) (Some (score c * 1 + (3 # 10))))
    as [m [b' [Hm [Hb' Hmb]]]].
  { exists (7 # 10), (score c * 1 + (3 # 10)). repeat split. ring. }
  rewrite Hb in Hb'. injection Hb' as <-.
  exists b, v, m. repeat split; try assumption.
  - rewrite Hvb. lra.
  - intros Hlt. rewrite Hmb in Hlt. lra.
  - intros Hs. rewrite Hmb. lra.
Qed.

Lemma boost_beats_vector_only_and_master_only_above_04_witness :
  exists both vector_only master_only,
    fused_score ([chunk_B_theme], [chunk_A; chunk_B], []) "B" = Some both
    /\ fused_score (without "B" [chunk_B_theme], [chunk_A; chunk_B], []) "B"
       = Some vector_only
    /\ fused_score ([chunk_B_theme], without "B" [chunk_A; chunk_B], []) "B"
       = Some master_only
    /\ vector_only < both
    /\ (master_only < both <-> 4 # 10 < 6 # 10).
Proof.
  apply (boost_beats_vector_only_and_master_only_above_04
           [chunk_B_theme] [chunk_A; chunk_B] [] chunk_B).
  - simpl. repeat constructor; simpl; intuition discriminate.
  - simpl. repeat constructor; simpl; intuition discriminate.
  - simpl. right. left. reflexivity.
  - simpl. left. reflexivity.
Defined.

End FusionFacts.

(* ===================================================================== *)
(** * The scenarios again, in IEEE binary64                               *)
(* ===================================================================== *)

Section Binary64Facts.

Import Binary64.
Open Scope float_scope.

(** B's fused score: 0.6 * 1.0 + 0.2 is the double 0.8, below A's 0.9. *)
Example scenario_scores_binary64 :
  (boosted_score64 (6 / 10) (2 / 10) =? 8 / 10) = true
  /\ (boosted_score64 (6 / 10) (2 / 10) <? (9 / 10) * 1) = true.
Proof. split; vm_compute; reflexivity. Qed.

(** A similarity of 0.1 boosted by 0.3 stays below the base score 0.7. *)
Example low_similarity_binary64 :
  (boosted_score64 (1 / 10) (3 / 10) <? 7 / 10) = true.
Proof. vm_compute. reflexivity. Qed.

(** 10 occurrences over 5 documents score 1.0, above the 0.76 of 20
    occurrences in one document. *)
Example importance_scores_binary64 :
  (calculateImportanceScore64 10 5 =? 1) = true
  /\ (calculateImportanceScore64 20 1 <? calculateImportanceScore64 10 5) = true.
Proof. split; vm_compute; reflexivity. Qed.

End Binary64Facts.

(* ===================================================================== *)
(** * Properties of the master index                                      *)
(* ===================================================================== *)

Section MasterIndexFacts.

Import JS MasterIndex MasterIndexSpec.
Open Scope string_scope.
Open Scope list_scope.

(** ** Importance score *)

Lemma Qmin_unit_interval (x : Q) : 0 <= x -> 0 <= Qmin x 1 /\ Qmin x 1 <= 1.
Proof.
  intros Hx. split.
  - apply Q.min_glb; [exact Hx | lra].
  - apply Q.le_min_r.
Qed.

(** C5.  For a term that occurs [f] times in [d] distinct documents the
    score is [0.7 * min(f/10, 1) + 0.3 * min(d/5, 1)], it lies in [0, 1],
    and 10 occurrences over 5 documents score above 20 occurrences in one
    document.  It is the score that the index builder writes: the row it
    hands to [addIndexEntry] for a term carries the score of the term's
    frequency and of the size of its set of books. *)
Theorem importance_score_formula_range_and_spread :
  forall (f d : N) (type : string) (entry : string * term_data),
    let frequency := inject_Z (Z.of_N f) in
    let bookCount := inject_Z (Z.of_N d) in
    calculateImportanceScore frequency bookCount
      == (7 # 10) * Qmin (frequency / 10) 1 + (3 # 10) * Qmin (bookCount / 5) 1
    /\ 0 <= calculateImportanceScore frequency bookCount
    /\ calculateImportanceScore frequency bookCount <= 1
    /\ calculateImportanceScore 20 1 < calculateImportanceScore 10 5
    /\ importance_score (entry_of type entry)
       = calculateImportanceScore
           (inject_Z (td_frequency (snd entry)))
           (inject_Z (Z.of_nat (List.length (td_books (snd entry))))).
Proof.
  intros f d type entry frequency bookCount.
  assert (Hf : 0 <= frequency / 10).
  { unfold frequency. apply Qle_shift_div_l; [reflexivity |].
    rewrite Qmult_0_l. change 0 with (inject_Z 0). rewrite <- Zle_Qle. lia. }
  assert (Hd : 0 <= bookCount / 5).
  { unfold bookCount. apply Qle_shift_div_l; [reflexivity |].
    rewrite Qmult_0_l. change 0 with (inject_Z 0). rewrite <- Zle_Qle. lia. }
  destruct (Qmin_unit_interval _ Hf) as [Hf0 Hf1].
  destruct (Qmin_unit_interval _ Hd) as [Hd0 Hd1].
  unfold calculateImportanceScore.
  split; [ring |]. split; [lra |]. split; [lra |].
  split; [vm_compute; reflexivity |].
  destruct entry as [term data]. reflexivity.
Qed.

(** ** The statements of a rebuild, one by one *)

(** The loop of [addIndexEntry] calls on a table with the unique index:
    the served calls are upserted in order, and the loop completes when
    all of them were served. *)
Lemma insert_entries_with_arbiter schema type m :
  infer_arbiter schema conflict_target = true ->
  forall table chunks budget,
    let r := insert_entries schema type m (mkStore table chunks budget) in
    snd r = mkStore
              (fold_left upsert (served budget (List.map (entry_of type) m)) table)
              chunks
              (after_calls budget (List.length m))
    /\ (all_served budget m = true -> fst r = Resolved tt)
    /\ (all_served budget m = false -> exists e, fst r = Rejected e).
Proof.
  intros Harb. induction m as [|e m IH]; intros table chunks budget.
  - cbn. destruct budget as [k|]; cbn.
    + rewrite firstn_nil, Nat.sub_0_r. cbn.
      split; [reflexivity |]. split; [reflexivity | discriminate].
    + split; [reflexivity |]. split; [reflexivity | discriminate].
  - cbn [insert_entries]. unfold bindDB, addIndexEntry, pool_query.
    cbn [statements_left master_index text_chunks].
    destruct budget as [[|k]|].
    + cbn. split; [reflexivity |]. split; [discriminate | eauto].
    + unfold insert_on_conflict. fold conflict_target. rewrite Harb.
      cbn [master_index text_chunks statements_left].
      specialize (IH (upsert table (entry_of type e)) chunks (Some k)).
      cbv zeta in IH. destruct IH as [Hst [Hok Hko]].
      cbn [served after_calls all_served List.map firstn fold_left List.length
             Nat.sub Nat.leb] in *.
      split; [exact Hst |]. split; assumption.
    + unfold insert_on_conflict. fold conflict_target. rewrite Harb.
      cbn [master_index text_chunks statements_left].
      specialize (IH (upsert table (entry_of type e)) chunks None).
      cbv zeta in IH. destruct IH as [Hst [Hok Hko]].
      cbn [served after_calls all_served List.map fold_left] in *.
      split; [exact Hst |]. split; assumption.
Qed.

(** The same loop on the table as created: the first call is rejected,
    nothing is written. *)
Lemma insert_entries_without_arbiter schema type m :
  infer_arbiter schema conflict_target = false ->
  forall table chunks budget,
    let r := insert_entries schema type m (mkStore table chunks budget) in
    master_index (snd r) = table
    /\ text_chunks (snd r) = chunks
    /\ (m <> [] -> exists e, fst r = Rejected e)
    /\ (m = [] -> r = (Resolved tt, mkStore table chunks budget)).
Proof.
  intros Harb table chunks budget. destruct m as [|e m].
  - cbn. repeat split; congruence.
  - cbn [insert_entries]. unfold bindDB, addIndexEntry, pool_query.
    cbn [statements_left master_index text_chunks].
    destruct budget as [[|k]|]; unfold insert_on_conflict;
      fold conflict_target; try rewrite Harb; cbn;
      (split; [reflexivity |]; split; [reflexivity |];
       split; [eauto | discriminate]).
Qed.

(** ** The two maps of a rebuild

    Each map is filled from the (term, chunk) occurrences of its column,
    in row order. *)

Lemma fold_record_terms c terms m :
  fold_left (record_occurrence c) terms m
  = fold_left record (List.map (fun t => (t, c)) terms) m.
Proof.
  revert m. induction terms as [|t terms IH]; intros m; simpl.
  - reflexivity.
  - rewrite IH. reflexivity.
Qed.

Lemma build_maps_occurrences chunks :
  forall themeMap keywordMap,
    fold_left process_chunk chunks (themeMap, keywordMap)
    = (fold_left record (occurrences themes_of chunks) themeMap,
       fold_left record (occurrences keywords_of chunks) keywordMap).
Proof.
  induction chunks as [|c chunks IH]; intros tm km; simpl.
  - reflexivity.
  - unfold occurrences in *. simpl. rewrite !fold_left_app, <- !fold_record_terms.
    rewrite <- IH. unfold themes_of, keywords_of.
    destruct (themes c), (keywords c); reflexivity.
Qed.

Lemma build_maps_eq chunks :
  build_maps chunks = (theme_map chunks, keyword_map chunks).
Proof. apply build_maps_occurrences. Qed.

Lemma index_entries_eq chunks :
  index_entries chunks
  = List.map (entry_of "theme") (theme_map chunks)
    ++ List.map (entry_of "concept") (keyword_map chunks).
Proof. unfold index_entries. rewrite build_maps_eq. reflexivity. Qed.

(** *** Keys are never repeated *)

Lemma record_keeps_keys_distinct m o :
  NoDup (map_keys m) -> NoDup (map_keys (record m o)).
Proof.
  intros Hnd. unfold record, record_occurrence, map_has.
  rewrite map_keys_update.
  destruct (map_get m (fst o)) eqn:Hget; [exact Hnd |].
  rewrite map_keys_set_fresh by exact Hget.
  apply NoDup_app; [exact Hnd | repeat constructor; simpl; tauto |].
  intros k Hk [<- | []]. exact (map_get_None_not_key _ _ _ Hget Hk).
Qed.

Lemma fold_record_keys_distinct os :
  forall m, NoDup (map_keys m) -> NoDup (map_keys (fold_left record os m)).
Proof.
  induction os as [|o os IH]; intros m Hnd; simpl.
  - exact Hnd.
  - apply IH, record_keeps_keys_distinct, Hnd.
Qed.

(** *** What a map holds for one term *)

Lemma get_record m o term :
  map_get (record m o) term
  = if String.eqb (fst o) term
    then Some (extend (snd o) (data_or_empty (map_get m term)))
    else map_get m term.
Proof.
  unfold record, record_occurrence, map_has.
  fold (extend (snd o)).
  change (fun d : term_data =>
            mkTermData (td_chunks d ++ [chunk_id (snd o)])
              (set_add (td_books d) (book_title (snd o))) (td_frequency d + 1))
    with (extend (snd o)).
  rewrite map_get_update.
  destruct (String.eqb_spec (fst o) term) as [<- | Hne].
  - destruct (map_get m (fst o)) eqn:Hget.
    + rewrite Hget. reflexivity.
    + rewrite map_get_set, String.eqb_refl. reflexivity.
  - destruct (map_get m (fst o)); [reflexivity |].
    rewrite map_get_set. apply String.eqb_neq in Hne. rewrite Hne. reflexivity.
Qed.

Lemma get_fold_record term os :
  forall m,
    map_get (fold_left record os m) term
    = match of_term term os with
      | [] => map_get m term
      | rel =>
          let d := data_or_empty (map_get m term) in
          Some (mkTermData
                  (td_chunks d ++ List.map (fun o => chunk_id (snd o)) rel)
                  (fold_left set_add
                     (List.map (fun o => book_title (snd o)) rel) (td_books d))
                  (td_frequency d + Z.of_nat (List.length rel)))
      end.
Proof.
  induction os as [|o os IH]; intros m; simpl.
  - reflexivity.
  - rewrite IH, get_record. unfold of_term in *.
    destruct (String.eqb (fst o) term); [| reflexivity].
    destruct (List.filter (fun o0 => String.eqb (fst o0) term) os) as [|o' rel];
      cbv zeta; unfold extend;
      cbn [data_or_empty td_chunks td_books td_frequency List.map fold_left
             List.length].
    + reflexivity.
    + rewrite <- app_assoc. cbn [app]. f_equal. f_equal. lia.
Qed.

(** *** Sets of book titles *)

Lemma mem_In x l : mem x l = true <-> In x l.
Proof.
  induction l as [|y l IH]; simpl.
  - split; [discriminate | tauto].
  - destruct (String.eqb_spec y x) as [-> | Hne].
    + split; [left; reflexivity | reflexivity].
    + rewrite IH. split; [right; assumption |].
      intros [Heq | Hin]; [congruence | exact Hin].
Qed.

Lemma set_add_In s x y : In y (set_add s x) <-> In y s \/ y = x.
Proof.
  unfold set_add. destruct (mem x s) eqn:Hmem.
  - apply mem_In in Hmem. split; [tauto |]. intros [H | ->]; assumption.
  - rewrite in_app_iff. simpl. split.
    + intros [H | [<- | []]]; [left; exact H | right; reflexivity].
    + intros [H | ->]; [left; exact H | right; left; reflexivity].
Qed.

Lemma set_add_NoDup s x : NoDup s -> NoDup (set_add s x).
Proof.
  intros Hnd. unfold set_add. destruct (mem x s) eqn:Hmem; [exact Hnd |].
  apply NoDup_app; [exact Hnd | repeat constructor; simpl; tauto |].
  intros a Ha [<- | []]. apply mem_In in Ha. congruence.
Qed.

Lemma fold_set_add_In xs : forall s y,
  In y (fold_left set_add xs s) <-> In y s \/ In y xs.
Proof.
  induction xs as [|x xs IH]; intros s y; simpl.
  - tauto.
  - rewrite IH, set_add_In. intuition congruence.
Qed.

Lemma fold_set_add_NoDup xs : forall s,
  NoDup s -> NoDup (fold_left set_add xs s).
Proof.
  induction xs as [|x xs IH]; intros s Hnd; simpl.
  - exact Hnd.
  - apply IH, set_add_NoDup, Hnd.
Qed.

(** The size of the set does not depend on the order of the additions. *)
Lemma fold_set_add_length_perm xs ys :
  Permutation xs ys ->
  List.length (fold_left set_add xs []) = List.length (fold_left set_add ys []).
Proof.
  intros Hperm. apply Permutation_length, NoDup_Permutation.
  - apply fold_set_add_NoDup. constructor.
  - apply fold_set_add_NoDup. constructor.
  - intros y. rewrite !fold_set_add_In. split; intros [H | H];
      try (left; exact H); right.
    + exact (Permutation_in _ Hperm H).
    + exact (Permutation_in _ (Permutation_sym Hperm) H).
Qed.

Lemma filter_perm {A} (f : A -> bool) (l l' : list A) :
  Permutation l l' -> Permutation (List.filter f l) (List.filter f l').
Proof.
  induction 1 as [| x l l' _ IH | x y l | l l' l'' _ IH1 _ IH2]; simpl.
  - constructor.
  - destruct (f x); [constructor |]; exact IH.
  - destruct (f x), (f y); try reflexivity. constructor.
  - exact (Permutation_trans IH1 IH2).
Qed.

(** *** The rebuilt rows do not depend on the order of the chunk rows *)

Lemma summary_fold_record_perm term os os' :
  Permutation os os' ->
  option_map summary (map_get (fold_left record os []) term)
  = option_map summary (map_get (fold_left record os' []) term).
Proof.
  intros Hperm. rewrite !get_fold_record.
  assert (Hrel : Permutation (of_term term os) (of_term term os'))
    by (apply filter_perm, Hperm).
  pose proof (Permutation_length Hrel) as Hlen.
  pose proof (fold_set_add_length_perm _ _
                (Permutation_map (fun o => book_title (snd o)) Hrel)) as Hbooks.
  destruct (of_term term os) as [|o rel], (of_term term os') as [|o' rel'];
    try discriminate; [reflexivity |].
  cbv zeta. cbn [map_get data_or_empty empty_term_data td_chunks td_books
                   td_frequency option_map].
  unfold summary. cbn [td_books td_frequency].
  rewrite Hbooks, Hlen. reflexivity.
Qed.

Lemma occurrences_perm terms_of chunks chunks' :
  Permutation chunks chunks' ->
  Permutation (occurrences terms_of chunks) (occurrences terms_of chunks').
Proof. intros Hperm. unfold occurrences. rewrite Hperm. reflexivity. Qed.

(** *** Looking a term up in the rows of a rebuild *)

Lemma entry_of_key type e :
  key_term (entry_of type e) = fst e /\ index_type (entry_of type e) = type.
Proof. destruct e as [term d]. split; reflexivity. Qed.

Lemma find_entry_rows type (m : term_map) rest term type' :
  find_entry (List.map (entry_of type) m ++ rest) term type'
  = if String.eqb type type'
    then match map_get m term with
         | Some d => Some (entry_of type (term, d))
         | None => find_entry rest term type'
         end
    else find_entry rest term type'.
Proof.
  induction m as [|[k d] m IH]; simpl.
  - destruct (String.eqb type type'); reflexivity.
  - rewrite IH. destruct (String.eqb_spec k term) as [-> | Hne]; simpl.
    + destruct (String.eqb type type'); reflexivity.
    + reflexivity.
Qed.

Lemma row_score_from_summary type e :
  importance_score (entry_of type e)
  = calculateImportanceScore
      (inject_Z (fst (row_summary (entry_of type e))))
      (inject_Z (Z.of_nat (snd (row_summary (entry_of type e))))).
Proof. destruct e as [term d]. reflexivity. Qed.

Lemma find_entry_index_entries chunks term type :
  option_map row_summary (find_entry (index_entries chunks) term type)
  = if String.eqb "theme" type
    then option_map summary (map_get (theme_map chunks) term)
    else if String.eqb "concept" type
    then option_map summary (map_get (keyword_map chunks) term)
    else None.
Proof.
  rewrite index_entries_eq, find_entry_rows.
  rewrite <- (app_nil_r (List.map (entry_of "concept") (keyword_map chunks))).
  rewrite find_entry_rows.
  destruct (String.eqb_spec "theme" type) as [<- | Hne].
  - destruct (map_get (theme_map chunks) term); reflexivity.
  - destruct (String.eqb "concept" type); [| reflexivity].
    destruct (map_get (keyword_map chunks) term); reflexivity.
Qed.

Lemma row_summary_perm chunks chunks' term type :
  Permutation chunks chunks' ->
  option_map row_summary (find_entry (index_entries chunks) term type)
  = option_map row_summary (find_entry (index_entries chunks') term type).
Proof.
  intros Hperm. rewrite !find_entry_index_entries.
  unfold theme_map, keyword_map.
  rewrite (summary_fold_record_perm term _ _
             (occurrences_perm themes_of _ _ Hperm)).
  rewrite (summary_fold_record_perm term _ _
             (occurrences_perm keywords_of _ _ Hperm)).
  reflexivity.
Qed.

(** *** The keys of the rows of a rebuild *)

Lemma keys_rows type (m : term_map) :
  keys (List.map (entry_of type) m) = List.map (fun k => (k, type)) (map_keys m).
Proof.
  unfold keys, map_keys. rewrite !map_map. apply map_ext.
  intros [term d]. reflexivity.
Qed.

Lemma NoDup_tagged {A B} (tag : B) (l : list A) :
  NoDup l -> NoDup (List.map (fun k => (k, tag)) l).
Proof.
  induction 1 as [|x l Hx _ IH]; simpl; constructor; [| exact IH].
  intros Hin. apply in_map_iff in Hin. destruct Hin as [y [Heq Hy]].
  injection Heq as ->. exact (Hx Hy).
Qed.

Lemma index_entries_keys_distinct chunks : NoDup (keys (index_entries chunks)).
Proof.
  rewrite index_entries_eq. unfold keys. rewrite map_app. fold (keys).
  change (NoDup (keys (List.map (entry_of "theme") (theme_map chunks))
                 ++ keys (List.map (entry_of "concept") (keyword_map chunks)))).
  rewrite !keys_rows. apply NoDup_app.
  - apply NoDup_tagged, fold_record_keys_distinct. constructor.
  - apply NoDup_tagged, fold_record_keys_distinct. constructor.
  - intros [k ty] H1 H2. apply in_map_iff in H1, H2.
    destruct H1 as [? [H1 _]], H2 as [? [H2 _]]. congruence.
Qed.

Lemma keys_firstn n table : keys (firstn n table) = firstn n (keys table).
Proof. unfold keys. symmetry. apply firstn_map. Qed.

Lemma In_prefix {A} (x : A) n (l : list A) : In x (firstn n l) -> In x l.
Proof.
  revert n. induction l as [|y l IH]; intros [|n]; simpl; try tauto.
  intros [Heq | Hin]; [left; exact Heq | right; exact (IH n Hin)].
Qed.

Lemma NoDup_prefix {A} n (l : list A) : NoDup l -> NoDup (firstn n l).
Proof.
  revert n. induction l as [|x l IH]; intros [|n] Hnd; simpl;
    try constructor.
  - inversion Hnd as [|? ? Hx Hl]; subst.
    intros Hin. apply Hx. exact (In_prefix _ _ _ Hin).
  - inversion Hnd; subst. apply IH. assumption.
Qed.

(** *** Upserting rows with fresh keys appends them *)

Lemma upsert_fresh table row :
  ~ In (key_term row, index_type row) (keys table) ->
  upsert table row = table ++ [row].
Proof.
  induction table as [|old table IH]; simpl; intros Hfresh.
  - reflexivity.
  - unfold same_key.
    destruct (String.eqb_spec (key_term old) (key_term row)) as [Hk | Hk];
      destruct (String.eqb_spec (index_type old) (index_type row)) as [Ht | Ht];
      simpl; try (rewrite IH; [reflexivity | tauto]).
    exfalso. apply Hfresh. left. congruence.
Qed.

Lemma upsert_all_fresh rows : forall table,
  NoDup (keys (table ++ rows)) -> fold_left upsert rows table = table ++ rows.
Proof.
  induction rows as [|row rows IH]; intros table Hnd; simpl.
  - rewrite app_nil_r. reflexivity.
  - assert (Hfresh : ~ In (key_term row, index_type row) (keys table)).
    { unfold keys in *. rewrite map_app in Hnd. simpl in Hnd.
      apply NoDup_remove_2 in Hnd. intros Hin. apply Hnd.
      apply in_or_app. left. exact Hin. }
    rewrite (upsert_fresh _ _ Hfresh), IH, <- app_assoc; [reflexivity |].
    rewrite <- app_assoc. exact Hnd.
Qed.

Lemma upsert_prefix_of_rebuild n chunks :
  fold_left upsert (firstn n (index_entries chunks)) []
  = firstn n (index_entries chunks).
Proof.
  apply (upsert_all_fresh _ []). simpl. rewrite keys_firstn.
  apply NoDup_prefix, index_entries_keys_distinct.
Qed.

(** *** Every index a rebuild can leave behind *)

Lemma served_app {A} budget (l1 l2 : list A) :
  served budget (l1 ++ l2)
  = served budget l1
    ++ (if all_served budget l1
        then served (after_calls budget (List.length l1)) l2 else []).
Proof.
  destruct budget as [k|]; simpl; [| reflexivity].
  rewrite firstn_app. destruct (Nat.leb_spec (List.length l1) k) as [Hle | Hlt].
  - reflexivity.
  - replace (k - List.length l1)%nat with 0%nat by lia. reflexivity.
Qed.

Lemma rebuild_inserts schema table chunks budget :
  let r :=
    (_ <-- insert_entries schema "theme" (theme_map chunks) ;;
     _ <-- insert_entries schema "concept" (keyword_map chunks) ;;
     ret tt) (mkStore table chunks budget) in
  master_index (snd r)
  = if infer_arbiter schema conflict_target
    then fold_left upsert (served budget (index_entries chunks)) table
    else table.
Proof.
  cbv zeta. unfold bindDB.
  destruct (infer_arbiter schema conflict_target) eqn:Harb.
  - destruct (insert_entries_with_arbiter schema "theme" (theme_map chunks) Harb
                table chunks budget) as [Hst [Hok Hko]].
    rewrite index_entries_eq, served_app, fold_left_app, length_map.
    destruct (insert_entries schema "theme" (theme_map chunks)
                (mkStore table chunks budget)) as [[[]|e] st1]; simpl in Hst;
      subst st1.
    + assert (Hall : all_served budget (theme_map chunks) = true).
      { destruct (all_served budget (theme_map chunks)) eqn:E;
          [reflexivity |]. destruct (Hko eq_refl) as [e He]. discriminate. }
      assert (Hall' : all_served budget
                        (List.map (entry_of "theme") (theme_map chunks)) = true).
      { destruct budget; simpl in *; [rewrite length_map |]; assumption. }
      rewrite Hall'.
      destruct (insert_entries_with_arbiter schema "concept" (keyword_map chunks)
                  Harb
                  (fold_left upsert
                     (served budget
                        (List.map (entry_of "theme") (theme_map chunks))) table)
                  chunks (after_calls budget (List.length (theme_map chunks))))
        as [Hst2 _].
      destruct (insert_entries schema "concept" (keyword_map chunks) _)
        as [[[]|e2] st2]; simpl in Hst2; subst st2; reflexivity.
    + assert (Hall : all_served budget (theme_map chunks) = false).
      { destruct (all_served budget (theme_map chunks)) eqn:E;
          [| reflexivity]. discriminate (Hok eq_refl). }
      assert (Hall' : all_served budget
                        (List.map (entry_of "theme") (theme_map chunks)) = false).
      { destruct budget; simpl in *; [rewrite length_map |]; assumption. }
      rewrite Hall'. reflexivity.
  - destruct (insert_entries_without_arbiter schema "theme" (theme_map chunks)
                Harb table chunks budget) as [Hidx [Hch [Hne Hnil]]].
    destruct (theme_map chunks) as [|e tm] eqn:Htm.
    + rewrite (Hnil eq_refl).
      destruct (insert_entries_without_arbiter schema "concept"
                  (keyword_map chunks) Harb table chunks budget)
        as [Hidx2 _].
      destruct (insert_entries schema "concept" (keyword_map chunks) _)
        as [[[]|e2] st2]; exact Hidx2.
    + destruct Hne as [e1 He1]; [discriminate |].
      destruct (insert_entries schema "theme" (e :: tm) _) as [o st1].
      simpl in He1. subst o. exact Hidx.
Qed.

Lemma rebuild_leaves schema table chunks budget :
  master_index
    (snd (buildIndexFromChunks schema (mkStore table chunks budget)))
  = match budget with
    | Some 0%nat => table
    | Some 1%nat => []
    | _ =>
        if infer_arbiter schema conflict_target
        then served (after_calls budget 2) (index_entries chunks)
        else []
    end.
Proof.
  unfold buildIndexFromChunks.
  unfold bindDB at 1. unfold pool_query at 1.
  cbn [statements_left master_index text_chunks].
  destruct budget as [[|[|k]]|].
  - reflexivity.
  - unfold delete_master_index. cbn. reflexivity.
  - unfold delete_master_index. cbn [master_index text_chunks statements_left].
    unfold bindDB at 1. unfold pool_query at 1.
    cbn [statements_left master_index text_chunks select_chunks].
    rewrite build_maps_eq.
    rewrite (rebuild_inserts schema [] chunks (Some k)).
    destruct (infer_arbiter schema conflict_target); [| reflexivity].
    cbn [served after_calls]. rewrite upsert_prefix_of_rebuild.
    replace (S (S k) - 2)%nat with k by lia. reflexivity.
  - unfold delete_master_index. cbn [master_index text_chunks statements_left].
    unfold bindDB at 1. unfold pool_query at 1.
    cbn [statements_left master_index text_chunks select_chunks].
    rewrite build_maps_eq.
    rewrite (rebuild_inserts schema [] chunks None).
    destruct (infer_arbiter schema conflict_target); [| reflexivity].
    cbn [served after_calls].
    rewrite <- (firstn_all (index_entries chunks)).
    apply upsert_prefix_of_rebuild.
Qed.

(** A rebuild never writes to [text_chunks]. *)
Lemma insert_entries_keeps_chunks schema type m :
  forall st,
    text_chunks (snd (insert_entries schema type m st)) = text_chunks st.
Proof.
  induction m as [|e m IH]; intros st; [reflexivity |].
  cbn [insert_entries]. unfold bindDB, addIndexEntry, pool_query,
    insert_on_conflict.
  destruct (statements_left st) as [[|k]|];
    destruct (infer_arbiter schema ["key_term"; "index_type"]);
    try reflexivity; rewrite IH; reflexivity.
Qed.

Lemma rebuild_keeps_chunks schema st :
  text_chunks (snd (buildIndexFromChunks schema st)) = text_chunks st.
Proof.
  unfold buildIndexFromChunks, bindDB, pool_query, delete_master_index,
    select_chunks.
  destruct (statements_left st) as [[|[|k]]|];
    cbn [statements_left master_index text_chunks]; try reflexivity.
  - destruct (build_maps (text_chunks st)) as [tm km].
    pose proof (insert_entries_keeps_chunks schema "theme" tm
                  (mkStore [] (text_chunks st) (Some k))) as H1.
    destruct (insert_entries schema "theme" tm _) as [[[]|e1] st1];
      [| exact H1].
    pose proof (insert_entries_keeps_chunks schema "concept" km st1) as H2.
    destruct (insert_entries schema "concept" km st1) as [[[]|e2] st2];
      simpl in *; congruence.
  - destruct (build_maps (text_chunks st)) as [tm km].
    pose proof (insert_entries_keeps_chunks schema "theme" tm
                  (mkStore [] (text_chunks st) None)) as H1.
    destruct (insert_entries schema "theme" tm _) as [[[]|e1] st1];
      [| exact H1].
    pose proof (insert_entries_keeps_chunks schema "concept" km st1) as H2.
    destruct (insert_entries schema "concept" km st1) as [[[]|e2] st2];
      simpl in *; congruence.
Qed.

Lemma find_entry_keys table term type :
  In (term, type) (keys table) <-> find_entry table term type <> None.
Proof.
  induction table as [|r table IH]; simpl.
  - split; [tauto | congruence].
  - destruct (String.eqb_spec (key_term r) term) as [Hk | Hk];
      destruct (String.eqb_spec (index_type r) type) as [Ht | Ht]; simpl;
      try (rewrite <- IH; split;
           [intros [Heq | Hin]; [congruence | exact Hin]
           | intros Hin; right; exact Hin]).
    split; [discriminate | intros _; left; congruence].
Qed.

(** ** Rebuilding is not atomic *)

(** C4, as stated, fails.  A rebuild cut off after its first statement
    leaves an empty index, and one cut off after its third statement
    leaves one entry of three; neither is the previous index nor the new
    one. *)
Lemma interrupted_rebuild_exposes_empty_and_partial_index :
  let old := master_index store_before_rebuild in
  let new := index_entries (text_chunks store_before_rebuild) in
  let emptied := index_after master_index_with_unique_key store_before_rebuild 1 in
  let partial := index_after master_index_with_unique_key store_before_rebuild 3 in
  List.length old = 1%nat /\ List.length new = 3%nat
  /\ emptied = [] /\ ~ (emptied = old \/ emptied = new)
  /\ List.length partial = 1%nat /\ ~ (partial = old \/ partial = new).
Proof.
  cbv zeta. repeat split; try reflexivity.
  - vm_compute. intros [H | H]; discriminate.
  - vm_compute. intros [H | H]; discriminate.
Qed.

(** C4, amended.  The rebuild deletes the previous index with its first
    statement and writes the new entries one statement at a time, with no
    transaction around them.  On a table whose inserts are accepted (it
    has the unique index on (key_term, index_type) that their
    [ON CONFLICT] clause names): cut off before any statement the rebuild
    leaves the previous index; cut off after the delete it leaves an
    empty index; cut off [k] statements after the chunks were read it
    leaves the first [k] entries of the new index; run to the end it
    leaves the whole new index. *)
Theorem rebuild_empties_then_fills_entry_by_entry :
  forall (schema : table_schema) (st : store) (k : nat),
    infer_arbiter schema ["key_term"; "index_type"] = true ->
    let new := index_entries (text_chunks st) in
    index_after schema st 0 = master_index st
    /\ index_after schema st 1 = []
    /\ index_after schema st (2 + k) = firstn k new
    /\ rebuilt_index schema st = new.
Proof.
  intros schema st k Hwritable. cbv zeta. unfold index_after, rebuilt_index.
  rewrite !rebuild_leaves. fold conflict_target.
  unfold conflict_target. rewrite Hwritable.
  repeat split; try reflexivity.
  cbn [Nat.add after_calls served].
  replace (S (S k) - 2)%nat with k by lia. reflexivity.
Qed.

Lemma rebuild_empties_then_fills_entry_by_entry_witness :
  let schema := master_index_with_unique_key in
  let st := store_before_rebuild in
  let new := index_entries (text_chunks st) in
  infer_arbiter schema ["key_term"; "index_type"] = true
  /\ List.length new = 3%nat
  /\ index_after schema st 0 = master_index st
  /\ index_after schema st 1 = []
  /\ index_after schema st (2 + 1) = firstn 1 new
  /\ rebuilt_index schema st = new.
Proof.
  split; [reflexivity |]. split; [reflexivity |].
  apply (rebuild_empties_then_fills_entry_by_entry
           master_index_with_unique_key store_before_rebuild 1).
  reflexivity.
Defined.

(** ** Rebuilding is deterministic and keeps keys unique *)

(** C6.  Two rebuilds over the same chunk rows, in whatever order the
    SELECT returns them and whatever the index held before, leave indexes
    with the same (key_term, index_type) pairs and, for each pair, the
    same frequency and importance score; no pair occurs twice.  In
    particular a second rebuild right after the first changes nothing,
    and no pair occurs twice either in the index that a rebuild leaves
    when it is cut off after its delete. *)
Theorem rebuild_is_deterministic_with_unique_keys :
  forall (schema : table_schema) (st st' : store),
    Permutation (text_chunks st) (text_chunks st') ->
    let first := rebuilt_index schema st in
    let second := rebuilt_index schema st' in
    NoDup (keys first) /\ NoDup (keys second)
    /\ (forall term type,
          In (term, type) (keys first) <-> In (term, type) (keys second))
    /\ (forall term type,
          option_map importance_score (find_entry first term type)
          = option_map importance_score (find_entry second term type)
          /\ option_map frequency (find_entry first term type)
             = option_map frequency (find_entry second term type))
    /\ rebuilt_index schema
         (snd (buildIndexFromChunks schema
                 (mkStore (master_index st) (text_chunks st) None)))
       = first
    /\ (forall k, NoDup (keys (index_after schema st (S k)))).
Proof.
  intros schema st st' Hperm. cbv zeta.
  assert (Hsame : forall term type,
            option_map row_summary (find_entry (rebuilt_index schema st) term type)
            = option_map row_summary
                (find_entry (rebuilt_index schema st') term type)).
  { intros term type. unfold rebuilt_index. rewrite !rebuild_leaves.
    destruct (infer_arbiter schema conflict_target); [| reflexivity].
    cbn [after_calls served]. apply row_summary_perm, Hperm. }
  assert (Hrows : forall s, rebuilt_index schema s
                            = if infer_arbiter schema conflict_target
                              then index_entries (text_chunks s) else []).
  { intros s. unfold rebuilt_index. rewrite rebuild_leaves. reflexivity. }
  assert (Hnd : forall s, NoDup (keys (rebuilt_index schema s))).
  { intros s. rewrite Hrows.
    destruct (infer_arbiter schema conflict_target);
      [apply index_entries_keys_distinct | constructor]. }
  assert (Hscore : forall s term type r,
            find_entry (rebuilt_index schema s) term type = Some r ->
            importance_score r
            = calculateImportanceScore (inject_Z (fst (row_summary r)))
                (inject_Z (Z.of_nat (snd (row_summary r))))).
  { intros s term type r. rewrite Hrows.
    destruct (infer_arbiter schema conflict_target); [| discriminate].
    rewrite index_entries_eq, find_entry_rows.
    rewrite <- (app_nil_r (List.map (entry_of "concept") (keyword_map _))).
    rewrite find_entry_rows. simpl find_entry.
    destruct (String.eqb "theme" type).
    - destruct (map_get (theme_map (text_chunks s)) term);
        [intros [= <-]; reflexivity |].
      destruct (String.eqb "concept" type); [| discriminate].
      destruct (map_get (keyword_map (text_chunks s)) term);
        [intros [= <-]; reflexivity | discriminate].
    - destruct (String.eqb "concept" type); [| discriminate].
      destruct (map_get (keyword_map (text_chunks s)) term);
        [intros [= <-]; reflexivity | discriminate]. }
  split; [apply Hnd |]. split; [apply Hnd |]. split; [| split; [| split]].
  - intros term type. rewrite !find_entry_keys.
    specialize (Hsame term type).
    destruct (find_entry (rebuilt_index schema st) term type),
             (find_entry (rebuilt_index schema st') term type);
      simpl in Hsame; try discriminate; split; congruence.
  - intros term type. specialize (Hsame term type).
    pose proof (Hscore st term type) as H1.
    pose proof (Hscore st' term type) as H2.
    destruct (find_entry (rebuilt_index schema st) term type) as [r|],
             (find_entry (rebuilt_index schema st') term type) as [r'|];
      simpl in Hsame; try discriminate; simpl; [| split; reflexivity].
    assert (Hsum : row_summary r = row_summary r') by congruence.
    rewrite (H1 r eq_refl), (H2 r' eq_refl), Hsum.
    split; [reflexivity |]. unfold row_summary in Hsum. congruence.
  - rewrite !Hrows, rebuild_keeps_chunks. reflexivity.
  - intros k. unfold index_after. rewrite rebuild_leaves.
    destruct k as [|k]; [constructor |].
    destruct (infer_arbiter schema conflict_target); [| constructor].
    cbn [after_calls served]. rewrite keys_firstn.
    apply NoDup_prefix, index_entries_keys_distinct.
Qed.

Lemma rebuild_is_deterministic_with_unique_keys_witness :
  let schema := master_index_with_unique_key in
  let st := store_before_rebuild in
  let st' := mkStore [] (List.rev two_chunks) None in
  let first := rebuilt_index schema st in
  let second := rebuilt_index schema st' in
  NoDup (keys first) /\ NoDup (keys second)
  /\ (forall term type,
        In (term, type) (keys first) <-> In (term, type) (keys second))
  /\ (forall term type,
        option_map importance_score (find_entry first term type)
        = option_map importance_score (find_entry second term type)
        /\ option_map frequency (find_entry first term type)
           = option_map frequency (find_entry second term type))
  /\ rebuilt_index schema
       (snd (buildIndexFromChunks schema
               (mkStore (master_index st) (text_chunks st) None)))
     = first
  /\ (forall k, NoDup (keys (index_after schema st (S k)))).
Proof.
  apply (rebuild_is_deterministic_with_unique_keys
           master_index_with_unique_key store_before_rebuild
           (mkStore [] (List.rev two_chunks) None)).
  simpl. apply perm_swap.
Defined.

End MasterIndexFacts.

(* ===================================================================== *)
(** * Properties of the /ask query path                                   *)
(* ===================================================================== *)

Section QueryFacts.

Import JS Fusion Query QuerySpec.
Open Scope string_scope.
Open Scope list_scope.

(** ** The lookups of the master index turn failures into no results *)

Lemma getChunksByIds_resolves w chunkIds :
  exists l, getChunksByIds w chunkIds = Resolved l.
Proof.
  unfold getChunksByIds, try_catch. destruct chunkIds; [eauto |].
  destruct (chunks_by_ids w _); eauto.
Qed.

Lemma searchByTerm_resolves w term indexType :
  exists l, searchByTerm w term indexType = Resolved l.
Proof.
  unfold searchByTerm, try_catch, bind.
  destruct (index_rows w term indexType) as [rows|e]; [| eauto].
  destruct (collect_ids rows) as [|i ids]; [eauto |].
  destruct (getChunksByIds_resolves w (i :: ids)) as [l ->]. eauto.
Qed.

Lemma searchByBook_resolves w bookName :
  exists l, searchByBook w bookName = Resolved l.
Proof.
  unfold searchByBook, try_catch. destruct (chunks_of_book w bookName); eauto.
Qed.

Lemma gather_resolves lookup xs :
  (forall x, exists l, lookup x = Resolved l) ->
  forall results, exists l, gather lookup xs results = Resolved l.
Proof.
  intros Hlookup. induction xs as [|x xs IH]; intros results; simpl.
  - eauto.
  - destruct (Hlookup x) as [found ->]. simpl. apply IH.
Qed.

Lemma search_resolves w queryAnalysis ts books :
  themes queryAnalysis = Some ts ->
  suspected_books queryAnalysis = Some books ->
  exists l, search w queryAnalysis = Resolved l.
Proof.
  intros Hts Hbooks. unfold search. rewrite Hts, Hbooks. cbn [iterate bind].
  destruct (gather_resolves (fun theme => searchByTerm w theme (Some "theme"))
              ts (fun x => searchByTerm_resolves w x _) []) as [r1 ->].
  cbn [bind].
  destruct (gather_resolves (searchByBook w) books
              (searchByBook_resolves w) r1) as [r2 ->].
  cbn [bind].
  destruct (gather_resolves (fun term => searchByTerm w term (Some "concept"))
              (match key_terms queryAnalysis with Some ts => ts | None => [] end)
              (fun x => searchByTerm_resolves w x _) r2) as [r3 ->].
  cbn [bind]. eauto.
Qed.

Lemma searchByThemes_resolves w ts :
  exists l, searchByThemes w (Some ts) = Resolved l.
Proof.
  unfold searchByThemes. cbn [iterate bind].
  destruct (gather_resolves (fun theme => searchByTerm w theme (Some "theme"))
              ts (fun x => searchByTerm_resolves w x _) []) as [r1 ->].
  cbn [bind]. eauto.
Qed.

(** [Promise.all] rejects as soon as one of its promises does. *)
Lemma promise_all3_rejected {A B C} (p1 : outcome A) (p2 : outcome B)
  (p3 : outcome C) :
  is_rejected p1 = true \/ is_rejected p2 = true \/ is_rejected p3 = true ->
  is_rejected (promise_all3 p1 p2 p3) = true.
Proof.
  destruct p1, p2, p3; cbn; intuition congruence.
Qed.

(** ** A query whose embedding call fails *)

(** C1, as stated, fails.  With the embedding provider down and the other
    two streams each delivering chunk X, the handler answers 500: one
    failed stream out of three fails the whole query and the results of
    the other two are dropped. *)
Lemma embedding_failure_alone_fails_the_query :
  let w := world_embedding_down in
  let queryAnalysis := joy_analysis in
  search w queryAnalysis = Resolved [chunk_X]
  /\ searchByThemes w (themes queryAnalysis) = Resolved [chunk_X]
  /\ is_rejected (vector_search w (hebrew_query queryAnalysis) 10) = true
  /\ ask w "Que dit Rabbi Nachman sur la joie ?" 10
     = InternalError
         "Vector search failed: OpenRouter API failed: timeout of 30000ms exceeded"
  /\ List.map id
       (selectBestChunks None (combineSearchResults ([chunk_X], [], [chunk_X])))
     = ["X"].
Proof.
  cbv zeta. repeat split; reflexivity.
Qed.

(** C1, amended.  A failure of the similarity-search stream, be it the
    embedding call or the SELECT that fails, is rethrown by
    [VectorSearchService.search] and rejects the [Promise.all] over the
    three streams: nothing is fused and the handler answers with an
    internal error whatever the master-index and theme streams returned.
    When these two resolved, the error reported is the one of the
    similarity search. *)
Theorem similarity_failure_fails_the_whole_query :
  forall (w : world) (question : string) (maxResults : Z)
         (queryAnalysis : query_analysis) (message : string),
    question <> "" ->
    analyzeQuery w question = Resolved queryAnalysis ->
    vector_search w (hebrew_query queryAnalysis) maxResults = Rejected message ->
    is_rejected (retrieve w queryAnalysis maxResults) = true
    /\ (exists debug, ask w question maxResults = InternalError debug)
    /\ (forall fromMaster fromThemes,
          search w queryAnalysis = Resolved fromMaster ->
          searchByThemes w (themes queryAnalysis) = Resolved fromThemes ->
          ask w question maxResults = InternalError message)
    /\ (forall query limit e,
          generateEmbedding w query = Rejected e ->
          vector_search w query limit
          = Rejected (String.append "Vector search failed: " e))
    /\ (forall query limit embedding e,
          generateEmbedding w query = Resolved embedding ->
          nearest_chunks w embedding limit = Rejected e ->
          vector_search w query limit
          = Rejected (String.append "Vector search failed: " e)).
Proof.
  intros w question maxResults qa message Hq Hqa Hvec.
  assert (Hret : is_rejected (retrieve w qa maxResults) = true).
  { unfold retrieve. apply promise_all3_rejected. right. left.
    rewrite Hvec. reflexivity. }
  assert (Hask : forall e, retrieve w qa maxResults = Rejected e ->
                           ask w question maxResults = InternalError e).
  { intros e He. unfold ask. destruct question as [|a q]; [congruence |].
    rewrite Hqa. cbn [bind]. rewrite He. reflexivity. }
  split; [exact Hret |].
  split; [| split; [| split]].
  - destruct (retrieve w qa maxResults) as [r|e] eqn:He; [discriminate |].
    exists e. apply Hask. reflexivity.
  - intros m t Hm Ht. apply Hask.
    unfold retrieve, promise_all3. rewrite Hm, Hvec. reflexivity.
  - intros query limit e Hemb. unfold vector_search, try_catch, bind.
    rewrite Hemb. reflexivity.
  - intros query limit embedding e Hemb Hrows.
    unfold vector_search, try_catch, bind. rewrite Hemb, Hrows. reflexivity.
Qed.

Lemma similarity_failure_fails_the_whole_query_witness :
  let w := world_embedding_down in
  let message :=
    "Vector search failed: OpenRouter API failed: timeout of 30000ms exceeded" in
  is_rejected (retrieve w joy_analysis 10) = true
  /\ (exists debug,
        ask w "Que dit Rabbi Nachman sur la joie ?" 10 = InternalError debug)
  /\ (forall fromMaster fromThemes,
        search w joy_analysis = Resolved fromMaster ->
        searchByThemes w (themes joy_analysis) = Resolved fromThemes ->
        ask w "Que dit Rabbi Nachman sur la joie ?" 10 = InternalError message)
  /\ (forall query limit e,
        generateEmbedding w query = Rejected e ->
        vector_search w query limit
        = Rejected (String.append "Vector search failed: " e))
  /\ (forall query limit embedding e,
        generateEmbedding w query = Resolved embedding ->
        nearest_chunks w embedding limit = Rejected e ->
        vector_search w query limit
        = Rejected (String.append "Vector search failed: " e)).
Proof.
  apply (similarity_failure_fails_the_whole_query
           world_embedding_down "Que dit Rabbi Nachman sur la joie ?" 10
           joy_analysis
           "Vector search failed: OpenRouter API failed: timeout of 30000ms exceeded").
  - discriminate.
  - reflexivity.
  - reflexivity.
Defined.

End QueryFacts.

(* ===================================================================== *)
(** * Properties of the chunker                                           *)
(* ===================================================================== *)

Section ChunkerFacts.

Import JS Chunker ChunkerSpec TokenBoundSpec.
Open Scope Z_scope.
Open Scope list_scope.

(** ** Chunk creation survives a failing provider *)

(** C10.  [createChunk] always returns a chunk.  When the analysis call
    fails (the provider rejects, answers without a choice, or answers text
    that is not a JSON object), [themes] and [keywords] are empty lists;
    when the summary call fails, [chunk_summary] is "Enseignement de "
    followed by the section title. *)
Theorem createChunk_survives_provider_failure :
  forall (chatCompletion : request -> outcome (list (option jsstring)))
         (JSON_parse : jsstring -> outcome json) (params : chunk_params),
    exists c log,
      createChunk chatCompletion JSON_parse params = (c, log)
      /\ content c = p_content params
      /\ (is_rejected
            (analysis_attempt chatCompletion JSON_parse (p_content params)
               (book_title (p_book_metadata params))) = true ->
          themes c = JArray [] /\ keywords c = JArray [])
      /\ (is_rejected
            (summary_attempt chatCompletion (p_content params)
               (p_section_title params)) = true ->
          chunk_summary c = fallback_summary (p_section_title params)).
Proof.
  intros chat parse params.
  unfold createChunk, analyzeChunkContent, generateChunkSummary.
  destruct (analysis_attempt chat parse (p_content params)
              (book_title (p_book_metadata params))) as [a|e1];
    destruct (summary_attempt chat (p_content params) (p_section_title params))
      as [s|e2];
    cbn; eexists; eexists; (split; [reflexivity |]); cbn;
    repeat split; try reflexivity; try discriminate.
Qed.

Lemma createChunk_survives_provider_failure_witness :
  let params :=
    mkParams (lit "Il faut toujours etre joyeux") TextAbsent TextAbsent
      (lit "Section 1") (lit "Likutei Moharan II:24") 0 0 likutei 7 true in
  exists c log,
    createChunk provider_down never_parsed params = (c, log)
    /\ content c = p_content params
    /\ themes c = JArray [] /\ keywords c = JArray []
    /\ chunk_summary c = lit "Enseignement de Section 1".
Proof.
  cbv zeta.
  destruct (createChunk_survives_provider_failure provider_down never_parsed
              (mkParams (lit "Il faut toujours etre joyeux") TextAbsent TextAbsent
                 (lit "Section 1") (lit "Likutei Moharan II:24") 0 0 likutei 7
                 true))
    as [c [log [Hrun [Hcontent [Hanalysis Hsummary]]]]].
  exists c, log. split; [exact Hrun |]. split; [exact Hcontent |].
  destruct (Hanalysis eq_refl) as [Ht Hk].
  split; [exact Ht |]. split; [exact Hk |]. exact (Hsummary eq_refl).
Defined.

(** ** Overlap between adjacent chunks *)

Lemma overlap_loop_length cfg rest : forall cur,
  List.length (overlap_loop cfg cur rest) = S (List.length rest).
Proof.
  induction rest as [|next rest IH]; intros cur; simpl.
  - reflexivity.
  - rewrite IH. reflexivity.
Qed.

Lemma overlap_loop_step cfg rest : forall cur i a b orig,
  nth_error (overlap_loop cfg cur rest) i = Some a ->
  nth_error (overlap_loop cfg cur rest) (S i) = Some b ->
  nth_error rest i = Some orig ->
  b = receive_overlap cfg a orig.
Proof.
  induction rest as [|next rest IH]; intros cur i a b orig Ha Hb Ho.
  - destruct i; discriminate.
  - destruct i as [|i]; simpl in *.
    + injection Ha as <-. injection Ho as <-.
      destruct rest; simpl in Hb; injection Hb as <-; reflexivity.
    + exact (IH _ _ _ _ _ Ha Hb Ho).
Qed.

(** What [receive_overlap] writes. *)
Lemma receive_overlap_spec cfg cur orig :
  let words :=
    slice_from (overlap_slice_start cfg) (split_whitespace (content cur)) in
  (words = [] /\ receive_overlap cfg cur orig = orig)
  \/ (words <> []
      /\ content (receive_overlap cfg cur orig)
         = join (lit " ") words ++ lit " " ++ content orig
      /\ token_count (receive_overlap cfg cur orig)
         = token_count orig + Z.of_nat (List.length words)).
Proof.
  cbv zeta. unfold receive_overlap, overlapWords.
  destruct (slice_from (overlap_slice_start cfg)
              (split_whitespace (content cur))) as [|w ws].
  - left. split; reflexivity.
  - right. split; [discriminate |]. split; reflexivity.
Qed.

Lemma jsstring_eqb_refl s : jsstring_eqb s s = true.
Proof.
  induction s as [|c s IH]; simpl; [reflexivity |].
  rewrite N.eqb_refl, IH. reflexivity.
Qed.

Lemma shares_boundary_complete cur next :
  ends_as_next_begins cur next -> shares_boundary cur next = true.
Proof.
  intros [w [a [b [Hw [-> ->]]]]]. unfold shares_boundary.
  apply existsb_exists. exists (List.length w). split.
  - apply in_seq. rewrite length_app. destruct w; [congruence |]. simpl. lia.
  - rewrite length_app.
    replace (List.length a + List.length w - List.length w)%nat
      with (List.length a + 0)%nat by lia.
    rewrite skipn_app, skipn_all2 by lia.
    replace (List.length a + 0 - List.length a)%nat with 0%nat by lia.
    rewrite firstn_app, firstn_all, Nat.sub_diag. simpl.
    rewrite app_nil_r. apply jsstring_eqb_refl.
Qed.

(** C9, as stated, fails.  With the default configuration the first chunk
    is "shalom aleichem", a blank line, "peace upon you"; the second chunk
    receives its five words joined by single spaces, so no text at the
    end of the first chunk reappears at the start of the second. *)
Lemma overlap_is_not_verbatim_across_a_blank_line :
  exists c1 c2,
    fst (chunkBook provider_down never_parsed default_config
           sections_as_given
           two_sections likutei) = [c1; c2]
    /\ content c1 = lit "shalom aleichem" ++ [newline; newline] ++ lit "peace upon you"
    /\ content c2 = lit "shalom aleichem peace upon you second teaching"
    /\ ~ ends_as_next_begins (content c1) (content c2).
Proof.
  eexists; eexists. split; [vm_compute; reflexivity |].
  split; [reflexivity |]. split; [reflexivity |].
  intros H. apply shares_boundary_complete in H. vm_compute in H. discriminate.
Qed.

(** C9, amended.  Whatever the list of chunks,
    [addOverlapBetweenChunks] keeps the number of chunks and the first
    chunk, and leaves a list of fewer than two chunks as it is.  Every
    later chunk receives the trailing whitespace-separated words of the
    chunk before it (as many as [slice] keeps), joined by single spaces
    and followed by one space, in front of its own content; its token
    count grows by the number of those words.  The last chunk hands
    nothing on. *)
Theorem overlap_prepends_trailing_words_rejoined :
  forall (cfg : config) (chunks : list chunk),
    let result := addOverlapBetweenChunks cfg chunks in
    List.length result = List.length chunks
    /\ nth_error result 0 = nth_error chunks 0
    /\ ((List.length chunks < 2)%nat -> result = chunks)
    /\ (forall (i : nat) (cur next orig : chunk),
          nth_error result i = Some cur ->
          nth_error result (S i) = Some next ->
          nth_error chunks (S i) = Some orig ->
          let words :=
            slice_from (overlap_slice_start cfg)
              (split_whitespace (content cur)) in
          (words = [] /\ next = orig)
          \/ (words <> []
              /\ content next = join (lit " ") words ++ lit " " ++ content orig
              /\ token_count next
                 = token_count orig + Z.of_nat (List.length words))).
Proof.
  intros cfg chunks. cbv zeta.
  destruct chunks as [|first rest]; cbn [addOverlapBetweenChunks].
  - split; [reflexivity |]. split; [reflexivity |]. split; [reflexivity |].
    intros i cur next orig Hcur. destruct i; discriminate.
  - split; [apply overlap_loop_length |].
    split; [destruct rest; reflexivity |].
    split.
    + intros Hlen.
      destruct rest as [|c rest]; [reflexivity | simpl in Hlen; lia].
    + intros i cur next orig Hcur Hnext Horig.
      cbn [nth_error] in Horig.
      rewrite (overlap_loop_step cfg rest first i cur next orig Hcur Hnext Horig).
      pose proof (receive_overlap_spec cfg cur orig) as H. cbv zeta in H.
      destruct H as [[Hw Hr] | [Hw [Hc Ht]]].
      * left. split; assumption.
      * right. split; [exact Hw |]. split; assumption.
Qed.

Lemma overlap_prepends_trailing_words_rejoined_witness :
  let one := [plain_chunk "alpha beta" 3] in
  let three :=
    [plain_chunk "alpha beta" 3; plain_chunk "gamma" 2; plain_chunk "delta" 1] in
  let result := addOverlapBetweenChunks default_config three in
  let cur := plain_chunk "alpha beta gamma" 4 in
  let next := plain_chunk "alpha beta gamma delta" 4 in
  let orig := plain_chunk "delta" 1 in
  let words :=
    slice_from (overlap_slice_start default_config)
      (split_whitespace (content cur)) in
  addOverlapBetweenChunks default_config one = one
  /\ List.length result = 3%nat
  /\ nth_error result 0 = Some (plain_chunk "alpha beta" 3)
  /\ nth_error result 1 = Some cur
  /\ nth_error result 2 = Some next
  /\ ((words = [] /\ next = orig)
      \/ (words <> []
          /\ content next = join (lit " ") words ++ lit " " ++ content orig
          /\ token_count next
             = token_count orig + Z.of_nat (List.length words))).
Proof.
  cbv zeta.
  split.
  { apply (overlap_prepends_trailing_words_rejoined default_config
             [plain_chunk "alpha beta" 3]).
    simpl. lia. }
  destruct (overlap_prepends_trailing_words_rejoined default_config
              [plain_chunk "alpha beta" 3; plain_chunk "gamma" 2;
               plain_chunk "delta" 1])
    as (Hlen & Hfirst & _ & Hstep).
  split; [exact Hlen |]. split; [exact Hfirst |].
  split; [vm_compute; reflexivity |]. split; [vm_compute; reflexivity |].
  apply (Hstep 1%nat (plain_chunk "alpha beta gamma" 4)
           (plain_chunk "alpha beta gamma delta" 4) (plain_chunk "delta" 1)).
  - vm_compute. reflexivity.
  - vm_compute. reflexivity.
  - reflexivity.
Defined.

(** ** Blank strings *)

Lemma trim_start_blank s : truthy (trim_start s) = negb (blank s).
Proof.
  induction s as [|c s IH]; simpl; [reflexivity |].
  destruct (is_space c); simpl; [exact IH | reflexivity].
Qed.

Lemma blank_trim_start s : blank (trim_start s) = blank s.
Proof.
  induction s as [|c s IH]; simpl; [reflexivity |].
  destruct (is_space c) eqn:Hc; simpl; [exact IH | rewrite Hc; reflexivity].
Qed.

Lemma blank_app a b : blank (a ++ b) = blank a && blank b.
Proof. apply forallb_app. Qed.

Lemma blank_rev s : blank (rev s) = blank s.
Proof.
  induction s as [|c s IH]; simpl; [reflexivity |].
  rewrite blank_app, IH. simpl. rewrite andb_true_r. apply andb_comm.
Qed.

Lemma reverse_rev (s : jsstring) : reverse s = rev s.
Proof. unfold reverse. symmetry. apply rev_alt. Qed.

Lemma truthy_rev (s : jsstring) : truthy (rev s) = truthy s.
Proof.
  destruct s as [|c s]; [reflexivity |]. simpl.
  destruct (rev s); reflexivity.
Qed.

Lemma non_blank_spec s : non_blank s = negb (blank s).
Proof.
  unfold non_blank, trim, trim_end. rewrite !reverse_rev.
  rewrite truthy_rev, trim_start_blank, blank_rev, blank_trim_start.
  reflexivity.
Qed.

Lemma non_blank_app_r a b : non_blank b = true -> non_blank (a ++ b) = true.
Proof.
  rewrite !non_blank_spec, blank_app. intros H.
  apply negb_true_iff in H. rewrite H, andb_false_r. reflexivity.
Qed.

Lemma non_blank_nonempty s : non_blank s = true -> (0 < List.length s)%nat.
Proof. destruct s; [discriminate | simpl; lia]. Qed.

Lemma estimate_positive s : non_blank s = true -> 0 < estimateTokenCount s.
Proof.
  intros H. apply non_blank_nonempty in H. unfold estimateTokenCount.
  apply Z.div_str_pos. lia.
Qed.

(** ** Sentences hold no terminator *)

Lemma split_runs_pieces sep s : forall piece in_run,
  Forall (fun c => sep c = false) piece ->
  Forall (Forall (fun c => sep c = false)) (split_runs sep s piece in_run).
Proof.
  induction s as [|c s IH]; intros piece in_run Hpiece; simpl.
  - constructor; [| constructor]. rewrite reverse_rev.
    apply Forall_rev. exact Hpiece.
  - destruct (sep c) eqn:Hc.
    + destruct in_run.
      * apply IH. exact Hpiece.
      * constructor; [rewrite reverse_rev; apply Forall_rev; exact Hpiece |].
        apply IH. constructor.
    + apply IH. constructor; assumption.
Qed.

Lemma sentences_unbroken text :
  Forall (fun s => unbroken s /\ non_blank s = true) (splitIntoSentences text).
Proof.
  unfold splitIntoSentences. apply Forall_forall. intros s Hs.
  apply filter_In in Hs. destruct Hs as [Hs Hnb]. split; [| exact Hnb].
  pose proof (split_runs_pieces is_terminator text [] false (Forall_nil _)) as H.
  rewrite Forall_forall in H. exact (H s Hs).
Qed.

Lemma paragraphs_non_blank text :
  Forall (fun p => non_blank p = true) (splitIntoParagraphs text).
Proof.
  unfold splitIntoParagraphs. apply Forall_forall. intros p Hp.
  apply filter_In in Hp. tauto.
Qed.

(** ** The log monad *)

Lemma bindM_fst {A B} (m : M A) (k : A -> M B) :
  fst (bindM m k) = fst (k (fst m)).
Proof.
  unfold bindM. destruct m as [a l1]. simpl. destruct (k a). reflexivity.
Qed.

Lemma bindM_snd {A B} (m : M A) (k : A -> M B) :
  snd (bindM m k) = snd m ++ snd (k (fst m)).
Proof.
  unfold bindM. destruct m as [a l1]. simpl. destruct (k a). reflexivity.
Qed.

Lemma foldM_invariant {S X} (I : S -> Prop) (Q : log_entry -> Prop)
  (R : X -> Prop) (f : S -> X -> M S) xs :
  Forall R xs ->
  (forall s x, R x -> I s -> I (fst (f s x)) /\ Forall Q (snd (f s x))) ->
  forall s, I s -> I (fst (foldM f xs s)) /\ Forall Q (snd (foldM f xs s)).
Proof.
  intros HR Hstep. induction HR as [|x xs Hx _ IH]; intros s Hs; simpl.
  - split; [exact Hs | constructor].
  - rewrite bindM_fst, bindM_snd.
    destruct (Hstep s x Hx Hs) as [H1 H2].
    destruct (IH _ H1) as [H3 H4].
    split; [exact H3 | apply Forall_app; split; assumption].
Qed.

(** ** Token counts of the chunks of a section *)

Section TokenBound.

Variable chat : request -> outcome (list (option jsstring)).
Variable parse : jsstring -> outcome json.
Variable cfg : config.

Lemma createChunk_result params :
  content (fst (createChunk chat parse params)) = p_content params
  /\ token_count (fst (createChunk chat parse params))
     = (if p_token_count params =? 0
        then estimateTokenCount (p_content params)
        else p_token_count params)
  /\ Forall provider_warning (snd (createChunk chat parse params)).
Proof.
  unfold createChunk, analyzeChunkContent, generateChunkSummary.
  destruct (analysis_attempt chat parse (p_content params)
              (book_title (p_book_metadata params)));
    destruct (summary_attempt chat (p_content params) (p_section_title params));
    cbn; repeat split; repeat constructor.
Qed.

Section OneSection.

Variable section : section_record.
Variable bookMetadata : book_metadata.
Variable sectionIndex : Z.

Lemma flush_ok st :
  (current_ok cfg) st -> non_blank (currentChunk st) = true ->
  (within_size_or_single_sentence cfg)
    (fst (flush chat parse section bookMetadata sectionIndex st))
  /\ Forall provider_warning
       (snd (flush chat parse section bookMetadata sectionIndex st)).
Proof.
  intros Hcur Hnb. unfold flush.
  destruct (createChunk_result
              (mkParams (trim (currentChunk st)) TextAbsent TextAbsent
                 (title section)
                 (reference section ++ lit ":" ++ decimal (chunkIndex st + 1))
                 (chunkIndex st) sectionIndex bookMetadata (currentTokens st)
                 false)) as [Hc [Ht Hlog]].
  cbn [p_content p_token_count] in Hc, Ht.
  split; [| exact Hlog].
  destruct Hcur as [[Hnil _] | [_ [Hpos Hsize]]].
  - rewrite Hnil in Hnb. discriminate.
  - assert (Hnz : (currentTokens st =? 0) = false) by (apply Z.eqb_neq; lia).
    rewrite Hnz in Ht.
    destruct Hsize as [Hle | [Hunb [Hest Hgt]]].
    + left. rewrite Ht. exact Hle.
    + right. exists (currentChunk st).
      split; [exact Hunb |]. split; [exact Hc |].
      split; [rewrite Ht; exact Hest | rewrite <- Hest; exact Hgt].
Qed.

Lemma fresh_unit_ok chunks0 unit index :
  (addable cfg) unit ->
  (current_ok cfg) (mkSplit chunks0 unit (estimateTokenCount unit) index).
Proof.
  intros [Hnb Hfit]. right. cbn.
  split; [exact Hnb |]. split; [apply estimate_positive, Hnb |].
  destruct (Z_le_gt_dec (estimateTokenCount unit) (chunkSize cfg)) as [Hle | Hgt].
  - left. exact Hle.
  - destruct Hfit as [Hle | Hunb]; [left; exact Hle |].
    right. split; [exact Hunb |]. split; [reflexivity | lia].
Qed.

Lemma add_unit_ok separator st unit :
  (addable cfg) unit -> (state_ok cfg) st ->
  (state_ok cfg) (fst (add_unit chat parse cfg section bookMetadata sectionIndex
                   separator st unit))
  /\ Forall provider_warning
       (snd (add_unit chat parse cfg section bookMetadata sectionIndex
               separator st unit)).
Proof.
  intros Hunit [Hchunks Hcur]. unfold add_unit.
  fold (non_blank (currentChunk st)).
  destruct (currentTokens st + estimateTokenCount unit >? chunkSize cfg) eqn:Hover;
    destruct (non_blank (currentChunk st)) eqn:Hnb; cbn [andb].
  - (* the running chunk is emitted and the unit starts a new one *)
    rewrite bindM_fst, bindM_snd. cbn [retM fst snd].
    destruct (flush_ok st Hcur Hnb) as [Hc Hlog].
    split; [| rewrite app_nil_r; exact Hlog].
    split; cbn [chunks].
    + apply Forall_app. split; [exact Hchunks | constructor; [exact Hc | constructor]].
    + apply (fresh_unit_ok _ unit _ Hunit).
  - (* nothing is running: the unit becomes the running chunk *)
    cbn [retM fst snd]. split; [| constructor].
    destruct Hcur as [[Hnil Hzero] | [Hnb' _]]; [| congruence].
    split; cbn [chunks]; [exact Hchunks |].
    rewrite Hnil, Hzero. cbn [truthy app]. rewrite Z.add_0_l.
    apply (fresh_unit_ok _ unit _ Hunit).
  - (* the unit fits behind the running chunk *)
    cbn [retM fst snd]. split; [| constructor].
    split; cbn [chunks]; [exact Hchunks |].
    destruct Hcur as [[Hnil _] | [_ [Hpos _]]];
      [rewrite Hnil in Hnb; discriminate |].
    destruct Hunit as [Hunb _].
    right. cbn [currentChunk currentTokens].
    split; [rewrite app_assoc; apply non_blank_app_r, Hunb |].
    pose proof (estimate_positive unit Hunb).
    rewrite Z.gtb_ltb in Hover. apply Z.ltb_ge in Hover.
    split; [lia | left; lia].
  - cbn [retM fst snd]. split; [| constructor].
    destruct Hcur as [[Hnil Hzero] | [Hnb' _]]; [| congruence].
    split; cbn [chunks]; [exact Hchunks |].
    rewrite Hnil, Hzero. cbn [truthy app]. rewrite Z.add_0_l.
    apply (fresh_unit_ok _ unit _ Hunit).
Qed.

Lemma add_paragraph_ok st paragraph :
  non_blank paragraph = true -> (state_ok cfg) st ->
  (state_ok cfg) (fst (add_paragraph chat parse cfg section bookMetadata sectionIndex
                   st paragraph))
  /\ Forall provider_warning
       (snd (add_paragraph chat parse cfg section bookMetadata sectionIndex
               st paragraph)).
Proof.
  intros Hnb Hst. unfold add_paragraph.
  destruct (estimateTokenCount paragraph >? chunkSize cfg) eqn:Hbig.
  - rewrite bindM_fst, bindM_snd.
    fold (non_blank (currentChunk st)).
    assert (Hpre :
      (state_ok cfg)
        (fst (if non_blank (currentChunk st)
              then c <~ flush chat parse section bookMetadata sectionIndex st ;;
                   retM (mkSplit (chunks st ++ [c]) [] 0 (chunkIndex st + 1))
              else retM st))
      /\ Forall provider_warning
           (snd (if non_blank (currentChunk st)
                 then c <~ flush chat parse section bookMetadata sectionIndex st ;;
                      retM (mkSplit (chunks st ++ [c]) [] 0 (chunkIndex st + 1))
                 else retM st))).
    { destruct Hst as [Hchunks Hcur].
      destruct (non_blank (currentChunk st)) eqn:Hcb.
      - rewrite bindM_fst, bindM_snd. cbn [retM fst snd].
        destruct (flush_ok st Hcur Hcb) as [Hc Hlog].
        split; [| rewrite app_nil_r; exact Hlog].
        split; cbn [chunks].
        + apply Forall_app. split; [exact Hchunks |].
          constructor; [exact Hc | constructor].
        + left. split; reflexivity.
      - cbn [retM fst snd]. split; [split; assumption | constructor]. }
    destruct Hpre as [Hpre Hlog1].
    destruct (foldM_invariant (state_ok cfg) provider_warning (addable cfg)
                (add_unit chat parse cfg section bookMetadata sectionIndex (lit " "))
                (splitIntoSentences paragraph)) with (s := fst
                  (if non_blank (currentChunk st)
                   then c <~ flush chat parse section bookMetadata sectionIndex st ;;
                        retM (mkSplit (chunks st ++ [c]) [] 0 (chunkIndex st + 1))
                   else retM st)) as [Hfin Hlog2].
    + eapply Forall_impl; [| apply sentences_unbroken].
      intros s [Hunb Hsnb]. split; [exact Hsnb | right; exact Hunb].
    + intros s x Hx Hs. apply add_unit_ok; assumption.
    + exact Hpre.
    + split; [exact Hfin | apply Forall_app; split; assumption].
  - apply add_unit_ok; [| exact Hst].
    split; [exact Hnb | left].
    rewrite Z.gtb_ltb in Hbig. apply Z.ltb_ge in Hbig. exact Hbig.
Qed.

Lemma intelligentSplit_ok fullText :
  Forall (within_size_or_single_sentence cfg)
    (fst (intelligentSplit chat parse cfg section bookMetadata sectionIndex
            fullText))
  /\ Forall provider_warning
       (snd (intelligentSplit chat parse cfg section bookMetadata sectionIndex
               fullText)).
Proof.
  unfold intelligentSplit. rewrite bindM_fst, bindM_snd.
  destruct (foldM_invariant (state_ok cfg) provider_warning
              (fun p => non_blank p = true)
              (add_paragraph chat parse cfg section bookMetadata sectionIndex)
              (splitIntoParagraphs fullText)
              (paragraphs_non_blank fullText)
              (fun s x Hx Hs => add_paragraph_ok s x Hx Hs)
              (mkSplit [] [] 0 0)) as [[Hchunks Hcur] Hlog].
  { split; [constructor | left; split; reflexivity]. }
  set (st := fst (foldM _ _ _)) in *.
  fold (non_blank (currentChunk st)).
  destruct (non_blank (currentChunk st)) eqn:Hnb.
  - rewrite bindM_fst, bindM_snd. cbn [retM fst snd].
    destruct (flush_ok st Hcur Hnb) as [Hc Hlog'].
    split.
    + apply Forall_app. split; [exact Hchunks |].
      constructor; [exact Hc | constructor].
    + apply Forall_app. split; [exact Hlog |].
      rewrite app_nil_r. exact Hlog'.
  - cbn [retM fst snd]. split; [exact Hchunks |].
    rewrite app_nil_r. exact Hlog.
Qed.

End OneSection.

Lemma chunkSection_ok section bookMetadata sectionIndex :
  let r := chunkSection chat parse cfg section bookMetadata sectionIndex in
  Forall (within_size_or_single_sentence cfg) (fst r)
  /\ if non_blank (combineTexts (hebrew_text section) (english_text section))
     then Forall provider_warning (snd r)
     else snd r = [Warn_EmptySection sectionIndex (book_title bookMetadata)].
Proof.
  cbv zeta. unfold chunkSection.
  fold (non_blank (combineTexts (hebrew_text section) (english_text section))).
  destruct (non_blank (combineTexts (hebrew_text section) (english_text section)));
    cbn [negb].
  - destruct (estimateTokenCount
                (combineTexts (hebrew_text section) (english_text section))
              <=? chunkSize cfg) eqn:Hfit.
    + rewrite bindM_fst, bindM_snd. cbn [retM fst snd].
      match goal with
      | |- context [createChunk chat parse ?p] =>
          destruct (createChunk_result p) as [_ [Ht Hlog]]
      end.
      cbn [p_content p_token_count] in Ht.
      split; [| rewrite app_nil_r; exact Hlog].
      constructor; [| constructor]. left. rewrite Ht.
      apply Z.leb_le in Hfit.
      destruct (estimateTokenCount _ =? 0); exact Hfit.
    + apply intelligentSplit_ok.
  - split; [constructor | reflexivity].
Qed.

Lemma provider_warnings_filtered l :
  Forall provider_warning l -> List.filter routine_entry l = [].
Proof.
  induction 1 as [|e l He _ IH]; simpl; [reflexivity |].
  destruct e; simpl in *; try contradiction; exact IH.
Qed.

Lemma chunk_sections_ok bookMetadata total sections : forall i,
  let r := chunk_sections chat parse cfg bookMetadata total sections i in
  Forall (within_size_or_single_sentence cfg) (fst r)
  /\ List.filter routine_entry (snd r)
     = section_lines bookMetadata total sections i.
Proof.
  induction sections as [|section sections IH]; intros i; cbv zeta;
    cbn [chunk_sections section_lines].
  - split; [constructor | reflexivity].
  - rewrite !bindM_fst, !bindM_snd. cbn [logM retM fst snd].
    pose proof (chunkSection_ok section bookMetadata i) as Hsec.
    cbv zeta in Hsec. destruct Hsec as [Hchunks Hlog].
    destruct (IH (i + 1)) as [Hmore Hlines].
    split.
    + apply Forall_app. split; assumption.
    + rewrite app_nil_r. cbn [app List.filter routine_entry].
      rewrite filter_app, Hlines. f_equal. f_equal.
      destruct (non_blank (combineTexts (hebrew_text section) (english_text section))).
      * apply provider_warnings_filtered, Hlog.
      * rewrite Hlog. reflexivity.
Qed.

(** *** Overlap adds at most as many tokens as [slice] keeps words *)

Lemma slice_last_length {A} (k : Z) (l : list A) :
  1 <= k -> Z.of_nat (List.length (slice_from (Integer (- k)) l)) <= k.
Proof.
  intros Hk. unfold slice_from.
  assert (Hneg : (- k <? 0) = true) by (apply Z.ltb_lt; lia).
  rewrite Hneg, length_skipn. lia.
Qed.

Lemma receive_overlap_tokens k cur orig :
  overlap_slice_start cfg = Integer (- k) -> 1 <= k ->
  token_count orig <= token_count (receive_overlap cfg cur orig)
                   <= token_count orig + k.
Proof.
  intros Hstart Hk.
  pose proof (receive_overlap_spec cfg cur orig) as H. cbv zeta in H.
  pose proof (slice_last_length k (split_whitespace (content cur)) Hk) as Hlen.
  rewrite Hstart in H.
  destruct H as [[_ ->] | [_ [_ ->]]]; lia.
Qed.

Lemma overlap_loop_tokens k rest :
  overlap_slice_start cfg = Integer (- k) -> 1 <= k ->
  forall cur i c,
    nth_error (overlap_loop cfg cur rest) i = Some c ->
    exists c0,
      nth_error (cur :: rest) i = Some c0
      /\ (i = 0%nat -> c = c0)
      /\ token_count c0 <= token_count c <= token_count c0 + k.
Proof.
  intros Hstart Hk. induction rest as [|next rest IH]; intros cur i c Hc.
  - destruct i as [|i]; simpl in Hc; [| destruct i; discriminate].
    injection Hc as <-. exists cur.
    split; [reflexivity |]. split; [reflexivity | lia].
  - destruct i as [|i]; simpl in Hc.
    + injection Hc as <-. exists cur.
      split; [reflexivity |]. split; [reflexivity | lia].
    + destruct (IH _ _ _ Hc) as [c0 [Hnth [Hfirst Hbound]]].
      destruct i as [|i]; simpl in Hnth |- *.
      * injection Hnth as <-. exists next.
        rewrite (Hfirst eq_refl).
        pose proof (receive_overlap_tokens k cur next Hstart Hk).
        split; [reflexivity |]. split; [discriminate | lia].
      * exists c0. split; [exact Hnth |]. split; [discriminate | exact Hbound].
Qed.

Lemma addOverlap_tokens k chunks i c :
  overlap_slice_start cfg = Integer (- k) -> 1 <= k ->
  nth_error (addOverlapBetweenChunks cfg chunks) i = Some c ->
  exists c0,
    nth_error chunks i = Some c0
    /\ token_count c0 <= token_count c <= token_count c0 + k.
Proof.
  intros Hstart Hk Hc. destruct chunks as [|first rest].
  - destruct i; discriminate.
  - destruct (overlap_loop_tokens k rest Hstart Hk first i c Hc)
      as [c0 [Hnth [_ Hb]]].
    exists c0. split; assumption.
Qed.

End TokenBound.

(** ** The token bound of a whole book *)

Lemma overflow_exceeds_size cfg c :
  single_sentence_overflow cfg c -> chunkSize cfg < token_count c.
Proof. intros (s & _ & _ & -> & H). exact H. Qed.

(** C8, as stated, fails, in four ways.
    - With the default configuration a sentence of 48004 characters
      becomes one chunk of 12001 tokens, above 1.2 * 10000, which the
      exception allows; but the log of the run has its three routine
      lines only, so the overflow is not logged.
    - With a chunk size of 40, forty paragraphs of four letters make one
      chunk: its recorded count is the sum 40 of their estimates, but the
      238 characters of its content are estimated at 60 tokens, above
      1.2 * 40, and the chunk is no single sentence.
    - With a chunk size of 20 and the default overlap, which is less than
      one word, [slice(-0)] hands the whole first chunk on: the second
      chunk records 36 tokens and holds 40, above 1.2 * 20.
    - With a chunk size of 20 and an overlap of 100 %, five words are
      handed on: the second chunk records 25 tokens and holds 26.
    In the last three runs no chunk is a sentence that exceeds the chunk
    size. *)
Lemma token_bound_is_exceeded_and_overflow_is_not_logged :
  (List.map token_count (fst long_sentence_run) = [12001]
   /\ 6 * chunkSize default_config < 5 * 12001
   /\ snd long_sentence_run
      = [Info_StartingChunking (lit "Likutei Moharan");
         Debug_ProcessingSection 1 1 (lit "Torah 3");
         Info_ChunkingComplete 1 (lit "Likutei Moharan")])
  /\ (List.map token_count (fst (run chunks_of_40 forty_paragraphs)) = [40]
      /\ content_estimates (fst (run chunks_of_40 forty_paragraphs)) = [60]
      /\ 6 * chunkSize chunks_of_40 < 5 * 60
      /\ Forall (fun c => ~ single_sentence_overflow chunks_of_40 c)
           (fst (before_overlap chunks_of_40 forty_paragraphs)))
  /\ (overlap_slice_start chunks_of_20 = Integer 0
      /\ List.map token_count (fst (run chunks_of_20 two_full_sections))
         = [20; 36]
      /\ content_estimates (fst (run chunks_of_20 two_full_sections))
         = [20; 40]
      /\ 6 * chunkSize chunks_of_20 < 5 * 36
      /\ Forall (fun c => ~ single_sentence_overflow chunks_of_20 c)
           (fst (before_overlap chunks_of_20 two_full_sections)))
  /\ (overlap_slice_start full_overlap = Integer (- 5)
      /\ 5 * 5 > chunkSize full_overlap
      /\ List.map token_count (fst (run full_overlap two_full_sections))
         = [20; 25]
      /\ content_estimates (fst (run full_overlap two_full_sections))
         = [20; 26]
      /\ 6 * chunkSize full_overlap < 5 * 25
      /\ Forall (fun c => ~ single_sentence_overflow full_overlap c)
           (fst (before_overlap full_overlap two_full_sections))).
Proof.
  assert (Hno : forall cfg l,
            forallb (fun c => token_count c <=? chunkSize cfg) l = true ->
            Forall (fun c => ~ single_sentence_overflow cfg c) l).
  { intros cfg l H. apply Forall_forall. intros c Hin Hover.
    rewrite forallb_forall in H. specialize (H c Hin).
    apply Z.leb_le in H. apply overflow_exceeds_size in Hover. lia. }
  split; [| split; [| split]].
  - split; [vm_compute; reflexivity |].
    split; [vm_compute; reflexivity |]. vm_compute. reflexivity.
  - split; [vm_compute; reflexivity |]. split; [vm_compute; reflexivity |].
    split; [vm_compute; reflexivity |]. apply Hno. vm_compute. reflexivity.
  - split; [vm_compute; reflexivity |]. split; [vm_compute; reflexivity |].
    split; [vm_compute; reflexivity |]. split; [vm_compute; reflexivity |].
    apply Hno. vm_compute. reflexivity.
  - split; [vm_compute; reflexivity |]. split; [vm_compute; reflexivity |].
    split; [vm_compute; reflexivity |]. split; [vm_compute; reflexivity |].
    split; [vm_compute; reflexivity |]. apply Hno. vm_compute. reflexivity.
Qed.

(** C8, amended.  Let [k] be the number of words that overlap copies
    ([overlap_slice_start] is [-k]; 375 by default), with
    [1 <= k <= chunkSize / 5].  Then every chunk of a book has a recorded
    [token_count] (the sum of the estimates of the paragraphs or
    sentences it was built from, plus one per word received as overlap)
    of at most [1.2 * chunkSize], unless the chunk as it was before
    overlap is a single sentence, free of terminators, whose own estimate
    exceeds [chunkSize].  Nothing is logged about such a chunk: apart
    from provider warnings the log holds the start line, one line per
    section with the warning of an empty section, and the completion
    line. *)
Theorem chunk_tokens_within_tolerance_unless_single_sentence :
  forall (chatCompletion : request -> outcome (list (option jsstring)))
         (JSON_parse : jsstring -> outcome json) (cfg : config)
         (book_data : Type) (extractSections : book_data -> list section_record)
         (bookData : book_data) (bookMetadata : book_metadata) (k : Z),
    overlap_slice_start cfg = Integer (- k) ->
    1 <= k ->
    5 * k <= chunkSize cfg ->
    let out :=
      chunkBook chatCompletion JSON_parse cfg extractSections bookData
        bookMetadata in
    let before :=
      chunks_before_overlap chatCompletion JSON_parse cfg bookMetadata
        (extractSections bookData) in
    (forall i c,
        nth_error (fst out) i = Some c ->
        exists c0,
          nth_error (fst before) i = Some c0
          /\ (5 * token_count c <= 6 * chunkSize cfg
              \/ single_sentence_overflow cfg c0))
    /\ List.filter routine_entry (snd out)
       = Info_StartingChunking (book_title bookMetadata)
         :: section_lines bookMetadata
              (Z.of_nat (List.length (extractSections bookData)))
              (extractSections bookData) 0
         ++ [Info_ChunkingComplete (Z.of_nat (List.length (fst out)))
               (book_title bookMetadata)].
Proof.
  intros chat parse cfg book_data extract bookData bm k Hstart Hk Hfifth.
  cbv zeta. unfold chunkBook, chunks_before_overlap.
  rewrite !bindM_fst, !bindM_snd. cbn [logM retM fst snd].
  pose proof (chunk_sections_ok chat parse cfg bm
                (Z.of_nat (List.length (extract bookData)))
                (extract bookData) 0) as H.
  cbv zeta in H. destruct H as [Hchunks Hlines].
  split.
  - intros i c Hc.
    destruct (addOverlap_tokens cfg k _ i c Hstart Hk Hc) as [c0 [Hnth Hb]].
    exists c0. split; [exact Hnth |].
    rewrite Forall_forall in Hchunks.
    destruct (Hchunks c0 (nth_error_In _ _ Hnth)) as [Hle | Hover].
    + left. lia.
    + right. exact Hover.
  - cbn [app List.filter routine_entry].
    rewrite filter_app, Hlines. reflexivity.
Qed.

Lemma chunk_tokens_within_tolerance_unless_single_sentence_witness :
  let out := run half_overlap mixed_book in
  let before := before_overlap half_overlap mixed_book in
  overlap_slice_start half_overlap = Integer (- 5)
  /\ List.map token_count (fst before) = [40; 20; 50]
  /\ List.map token_count (fst out) = [40; 25; 55]
  /\ (forall i c,
        nth_error (fst out) i = Some c ->
        exists c0,
          nth_error (fst before) i = Some c0
          /\ (5 * token_count c <= 6 * chunkSize half_overlap
              \/ single_sentence_overflow half_overlap c0))
  /\ List.filter routine_entry (snd out)
     = Info_StartingChunking (book_title likutei)
       :: section_lines likutei (Z.of_nat (List.length mixed_book))
            mixed_book 0
       ++ [Info_ChunkingComplete (Z.of_nat (List.length (fst out)))
             (book_title likutei)].
Proof.
  cbv zeta.
  split; [vm_compute; reflexivity |]. split; [vm_compute; reflexivity |].
  split; [vm_compute; reflexivity |].
  apply (chunk_tokens_within_tolerance_unless_single_sentence
           provider_ok parse_object half_overlap
           (list section_record)
           sections_as_given
           mixed_book likutei 5).
  - vm_compute. reflexivity.
  - lia.
  - vm_compute. discriminate.
Defined.

End ChunkerFacts.

(* ===================================================================== *)
(** * Further properties of result fusion and budget selection         *)
(* ===================================================================== *)

Section OrderFacts.

Import Order.

Lemma subsequence_refl {A} (l : list A) : subsequence l l.
Proof. induction l; constructor; assumption. Qed.

Lemma subsequence_nil_l {A} (l : list A) : subsequence [] l.
Proof. induction l; constructor; assumption. Qed.

Lemma subsequence_In {A} (l l' : list A) x :
  subsequence l l' -> In x l -> In x l'.
Proof.
  induction 1 as [|y l l' _ IH|y l l' _ IH]; simpl; intros Hin.
  - exact Hin.
  - right. exact (IH Hin).
  - destruct Hin as [-> | Hin]; [left; reflexivity | right; exact (IH Hin)].
Qed.

Lemma subsequence_length {A} (l l' : list A) :
  subsequence l l' -> (List.length l <= List.length l')%nat.
Proof. induction 1; simpl; lia. Qed.

End OrderFacts.

Section MapFacts2.

Import JS.
Variable V : Type.
Implicit Types (m : smap V) (k : string) (v : V).

Lemma map_keys_set_In m k v k' :
  In k' (map_keys (map_set m k v)) <-> In k' (map_keys m) \/ k' = k.
Proof.
  induction m as [|[k0 v0] m IH]; simpl.
  - intuition.
  - destruct (String.eqb_spec k0 k) as [-> | Hne]; simpl.
    + intuition.
    + rewrite IH. intuition.
Qed.

Lemma map_keys_set_NoDup m k v :
  NoDup (map_keys m) -> NoDup (map_keys (map_set m k v)).
Proof.
  induction m as [|[k0 v0] m IH]; simpl; intros Hnd.
  - constructor; [intros [] | constructor].
  - inversion Hnd as [|? ? Hfresh Hnd']; subst.
    destruct (String.eqb_spec k0 k) as [-> | Hne]; simpl.
    + constructor; assumption.
    + constructor; [| exact (IH Hnd')].
      intros Hin. apply map_keys_set_In in Hin.
      destruct Hin as [Hin | Heq]; [exact (Hfresh Hin) | congruence].
Qed.

(** With distinct keys, the entries of the map are what [get] returns. *)
Lemma map_In_get m k v :
  NoDup (map_keys m) -> In (k, v) m -> map_get m k = Some v.
Proof.
  induction m as [|[k0 v0] m IH]; simpl; intros Hnd Hin.
  - destruct Hin.
  - inversion Hnd as [|? ? Hfresh Hnd']; subst.
    destruct Hin as [Heq | Hin].
    + inversion Heq; subst. rewrite String.eqb_refl. reflexivity.
    + destruct (String.eqb_spec k0 k) as [-> | Hne].
      * exfalso. apply Hfresh. change k with (fst (k, v)).
        apply in_map. exact Hin.
      * exact (IH Hnd' Hin).
Qed.

Lemma map_get_In m k v : map_get m k = Some v -> In (k, v) m.
Proof.
  induction m as [|[k0 v0] m IH]; simpl; intros Hget.
  - discriminate.
  - destruct (String.eqb_spec k0 k) as [-> | Hne].
    + left. congruence.
    + right. exact (IH Hget).
Qed.

End MapFacts2.

Section FusionFacts2.

Import JS Fusion FusionSpec FusionOrigin Order.
Open Scope string_scope.
Open Scope list_scope.

(** ** The sort *)

Lemma insert_desc_perm x l : Permutation (insert_desc x l) (x :: l).
Proof.
  induction l as [|y l IH]; simpl.
  - apply Permutation_refl.
  - destruct (score x ?= score y)%Q.
    + rewrite IH. apply perm_swap.
    + rewrite IH. apply perm_swap.
    + apply Permutation_refl.
Qed.

Lemma sort_desc_perm_acc l : forall acc,
  Permutation (fold_left (fun acc x => insert_desc x acc) l acc) (acc ++ l).
Proof.
  induction l as [|x l IH]; intros acc; simpl.
  - rewrite app_nil_r. apply Permutation_refl.
  - rewrite IH, insert_desc_perm.
    simpl. apply Permutation_middle.
Qed.

Lemma sort_desc_perm l : Permutation (sort_desc l) l.
Proof. unfold sort_desc. apply (sort_desc_perm_acc l []). Qed.

Lemma insert_desc_sorted x l :
  StronglySorted descending l -> StronglySorted descending (insert_desc x l).
Proof.
  induction l as [|y l IH]; simpl; intros Hs.
  - constructor; [constructor | constructor].
  - inversion Hs as [|? ? Hs' Hall]; subst.
    destruct (score x ?= score y)%Q eqn:Hcmp.
    + constructor; [exact (IH Hs') |].
      apply (Permutation_Forall (Permutation_sym (insert_desc_perm x l))).
      constructor; [| exact Hall].
      unfold descending. apply Qeq_alt in Hcmp. rewrite Hcmp. apply Qle_refl.
    + constructor; [exact (IH Hs') |].
      apply (Permutation_Forall (Permutation_sym (insert_desc_perm x l))).
      constructor; [| exact Hall].
      unfold descending. apply Qlt_alt in Hcmp. apply Qlt_le_weak. exact Hcmp.
    + apply Qgt_alt in Hcmp.
      constructor; [exact Hs |].
      constructor.
      * unfold descending. apply Qlt_le_weak. exact Hcmp.
      * apply (Forall_impl (P := descending y)); [| exact Hall].
        unfold descending. intros z Hz.
        apply (Qle_trans _ (score y)); [exact Hz | apply Qlt_le_weak; exact Hcmp].
Qed.

Lemma sort_desc_sorted_acc l : forall acc,
  StronglySorted descending acc ->
  StronglySorted descending (fold_left (fun acc x => insert_desc x acc) l acc).
Proof.
  induction l as [|x l IH]; intros acc Hacc; simpl.
  - exact Hacc.
  - apply IH, insert_desc_sorted, Hacc.
Qed.

Lemma results_of_scored rows : forall results,
  SimilarityRows.results_of rows = Some results ->
  Forall (fun row => SimilarityRows.row_score row <> None) rows
  /\ ids results = List.map SimilarityRows.row_id rows.
Proof.
  induction rows as [|row rows IH]; intros results; cbn [SimilarityRows.results_of].
  - intros [= <-]. split; [constructor | reflexivity].
  - unfold SimilarityRows.result_of, SimilarityRows.parseFloat.
    destruct (SimilarityRows.row_score row) as [q|] eqn:Hq; [| discriminate].
    destruct (SimilarityRows.results_of rows) as [cs|]; [| discriminate].
    intros [= <-]. destruct (IH cs eq_refl) as [Hall Hids].
    split; [constructor; [congruence | exact Hall] |].
    unfold ids in *. cbn [List.map id]. rewrite Hids. reflexivity.
Qed.

(** When every row of the similarity search has a score (no [NULL],
    which [parseFloat] would turn into [NaN]), [combineSearchResults]
    returns its list in non-increasing order of fused score, whatever
    the master-index and theme streams hold. *)
Theorem fused_results_sorted_by_score :
  forall (masterResults themeResults : list chunk)
         (rows : list SimilarityRows.similarity_row)
         (vectorResults : list chunk),
    SimilarityRows.results_of rows = Some vectorResults ->
    Forall (fun row => SimilarityRows.row_score row <> None) rows
    /\ ids vectorResults = List.map SimilarityRows.row_id rows
    /\ StronglySorted descending
         (combineSearchResults (masterResults, vectorResults, themeResults)).
Proof.
  intros m t rows v Hrows.
  destruct (results_of_scored rows v Hrows) as [Hall Hids].
  split; [exact Hall |]. split; [exact Hids |].
  unfold combineSearchResults, sort_desc.
  apply sort_desc_sorted_acc. constructor.
Qed.

Lemma fused_results_sorted_by_score_witness :
  let vectorResults :=
    [mkChunk "A" "Likutei Moharan 1:1" (Some 200%Z) (6 # 10) None;
     mkChunk "B" "Likutei Moharan 1:2" (Some 150%Z) (9 # 10) None] in
  SimilarityRows.results_of scored_rows = Some vectorResults
  /\ List.map id
       (combineSearchResults ([chunk_B_theme], vectorResults, [chunk_B_theme]))
     = ["B"; "A"]
  /\ Forall (fun row => SimilarityRows.row_score row <> None) scored_rows
  /\ ids vectorResults = List.map SimilarityRows.row_id scored_rows
  /\ StronglySorted descending
       (combineSearchResults ([chunk_B_theme], vectorResults, [chunk_B_theme])).
Proof.
  cbv zeta. split; [reflexivity |]. split; [reflexivity |].
  apply (fused_results_sorted_by_score [chunk_B_theme] [chunk_B_theme]
           scored_rows).
  reflexivity.
Defined.

(** ** The ids of the fused list *)

Lemma keyed_set m k v : keyed m -> id v = k -> keyed (map_set m k v).
Proof.
  unfold keyed. intros Hm <-.
  induction m as [|[k0 v0] m IH]; simpl.
  - constructor; [reflexivity | constructor].
  - inversion Hm as [|? ? H0 Hm']; subst.
    destruct (String.eqb_spec k0 (id v)) as [-> | Hne].
    + constructor; [reflexivity | exact Hm'].
    + constructor; [exact H0 | exact (IH Hm')].
Qed.

Lemma keyed_update m k f :
  keyed m -> (forall c, id (f c) = id c) -> keyed (map_update m k f).
Proof.
  unfold keyed. intros Hm Hf.
  induction m as [|[k0 v0] m IH]; simpl.
  - constructor.
  - inversion Hm as [|? ? H0 Hm']; subst.
    destruct (String.eqb k0 k).
    + constructor; [simpl in *; rewrite Hf; exact H0 | exact Hm'].
    + constructor; [exact H0 | exact (IH Hm')].
Qed.

Lemma keyed_values m : keyed m -> List.map id (map_values m) = map_keys m.
Proof.
  unfold keyed, map_values, map_keys.
  induction 1 as [|[k v] m H0 _ IH]; simpl.
  - reflexivity.
  - simpl in H0. rewrite H0, IH. reflexivity.
Qed.

(** The three loop bodies keep the map well formed and add the id of the
    chunk to its keys. *)
Lemma add_vector_wf m c : well_formed m -> well_formed (add_vector m c).
Proof.
  intros [Hk Hnd]. unfold add_vector. split.
  - apply keyed_set; [exact Hk | reflexivity].
  - apply map_keys_set_NoDup. exact Hnd.
Qed.

Lemma add_boost_wf boost base src m c :
  well_formed m ->
  well_formed (if map_has m (id c)
               then map_boost m (id c) boost
               else map_set m (id c) (with_score c base src)).
Proof.
  intros [Hk Hnd]. destruct (map_has m (id c)); split.
  - apply keyed_update; [exact Hk | reflexivity].
  - unfold map_boost. rewrite map_keys_update. exact Hnd.
  - apply keyed_set; [exact Hk | reflexivity].
  - apply map_keys_set_NoDup. exact Hnd.
Qed.

Lemma add_vector_keys m c k :
  In k (map_keys (add_vector m c)) <-> In k (map_keys m) \/ k = id c.
Proof. unfold add_vector. apply map_keys_set_In. Qed.

Lemma add_boost_keys boost base src m c k :
  In k (map_keys (if map_has m (id c)
                  then map_boost m (id c) boost
                  else map_set m (id c) (with_score c base src)))
  <-> In k (map_keys m) \/ k = id c.
Proof.
  unfold map_has. destruct (map_get m (id c)) as [v|] eqn:Hget.
  - unfold map_boost. rewrite map_keys_update. split; [tauto |].
    intros [Hin | ->]; [exact Hin |].
    exact (map_get_Some_key _ _ _ _ Hget).
  - apply map_keys_set_In.
Qed.

Lemma fold_wf (f : jsmap -> chunk -> jsmap) :
  (forall m c, well_formed m -> well_formed (f m c)) ->
  forall stream m, well_formed m -> well_formed (fold_left f stream m).
Proof.
  intros Hstep stream. induction stream as [|c stream IH]; intros m Hm; simpl.
  - exact Hm.
  - apply IH, Hstep, Hm.
Qed.

Lemma fold_keys (f : jsmap -> chunk -> jsmap) :
  (forall m c k, In k (map_keys (f m c)) <-> In k (map_keys m) \/ k = id c) ->
  forall stream m k,
    In k (map_keys (fold_left f stream m))
    <-> In k (map_keys m) \/ In k (ids stream).
Proof.
  intros Hstep stream. induction stream as [|c stream IH]; intros m k; simpl.
  - tauto.
  - rewrite IH, Hstep. intuition.
Qed.

Lemma combine_map_wf searchResults : well_formed (combine_map searchResults).
Proof.
  destruct searchResults as [[m v] t]. unfold combine_map.
  apply (fold_wf add_theme); [intros; apply add_boost_wf; assumption |].
  apply (fold_wf add_master); [intros; apply add_boost_wf; assumption |].
  apply (fold_wf add_vector); [intros; apply add_vector_wf; assumption |].
  split; constructor.
Qed.

Lemma combine_map_keys m v t k :
  In k (map_keys (combine_map (m, v, t)))
  <-> In k (ids v) \/ In k (ids m) \/ In k (ids t).
Proof.
  unfold combine_map.
  rewrite (fold_keys add_theme) by (intros; apply add_boost_keys).
  rewrite (fold_keys add_master) by (intros; apply add_boost_keys).
  rewrite (fold_keys add_vector) by (intros; apply add_vector_keys).
  simpl. tauto.
Qed.

Lemma fused_ids searchResults :
  Permutation (ids (combineSearchResults searchResults))
              (map_keys (combine_map searchResults)).
Proof.
  unfold combineSearchResults, ids.
  rewrite (Permutation_map id (sort_desc_perm _)).
  rewrite keyed_values by apply combine_map_wf.
  apply Permutation_refl.
Qed.

(** Fusion returns one result per chunk id: the ids of the fused list
    are pairwise distinct and are exactly the ids that occur in some
    stream, so the list is never longer than the three streams together. *)
Theorem fusion_returns_each_id_once :
  forall masterResults vectorResults themeResults : list chunk,
    let fused := combineSearchResults (masterResults, vectorResults, themeResults) in
    NoDup (ids fused)
    /\ (forall k, In k (ids fused)
                  <-> In k (ids vectorResults) \/ In k (ids masterResults)
                      \/ In k (ids themeResults))
    /\ (List.length fused
        <= List.length vectorResults + List.length masterResults
           + List.length themeResults)%nat.
Proof.
  intros m v t fused. subst fused.
  pose proof (fused_ids (m, v, t)) as Hperm.
  pose proof (combine_map_wf (m, v, t)) as [_ Hnd].
  assert (Hnd' : NoDup (ids (combineSearchResults (m, v, t)))).
  { apply (Permutation_NoDup (Permutation_sym Hperm)). exact Hnd. }
  assert (Hin : forall k, In k (ids (combineSearchResults (m, v, t)))
                  <-> In k (ids v) \/ In k (ids m) \/ In k (ids t)).
  { intros k. rewrite <- combine_map_keys. split; intros Hin.
    - exact (Permutation_in k Hperm Hin).
    - exact (Permutation_in k (Permutation_sym Hperm) Hin). }
  split; [exact Hnd' |]. split; [exact Hin |].
  assert (Hincl : incl (ids (combineSearchResults (m, v, t)))
                       (ids v ++ ids m ++ ids t)).
  { intros k Hk. apply Hin in Hk. rewrite !in_app_iff. exact Hk. }
  pose proof (NoDup_incl_length Hnd' Hincl) as Hlen.
  unfold ids in Hlen. rewrite !length_app, !length_map in Hlen.
  lia.
Qed.

(** ** Where a fused chunk comes from *)

Lemma info_add_vector m c k :
  option_map info (map_get (add_vector m c) k)
  = if String.eqb (id c) k
    then enter_vector c (option_map info (map_get m k))
    else option_map info (map_get m k).
Proof.
  unfold add_vector. rewrite map_get_set.
  destruct (String.eqb (id c) k); reflexivity.
Qed.

Lemma info_add_boost boost base p m c k :
  option_map info
    (map_get (if map_has m (id c)
              then map_boost m (id c) boost
              else map_set m (id c) (with_score c base (Some p))) k)
  = if String.eqb (id c) k
    then enter_new p c (option_map info (map_get m k))
    else option_map info (map_get m k).
Proof.
  unfold map_has.
  destruct (String.eqb_spec (id c) k) as [<- | Hne].
  - destruct (map_get m (id c)) as [v|] eqn:Hget.
    + unfold map_boost. rewrite map_get_update, String.eqb_refl, Hget.
      reflexivity.
    + rewrite map_get_set, String.eqb_refl. reflexivity.
  - apply String.eqb_neq in Hne.
    destruct (map_get m (id c)).
    + unfold map_boost. rewrite map_get_update, Hne. reflexivity.
    + rewrite map_get_set, Hne. reflexivity.
Qed.

Lemma info_fold (f : jsmap -> chunk -> jsmap) g k :
  (forall m c, option_map info (map_get (f m c) k)
               = if String.eqb (id c) k
                 then g c (option_map info (map_get m k))
                 else option_map info (map_get m k)) ->
  forall stream m,
    option_map info (map_get (fold_left f stream m) k)
    = effect_on g k stream (option_map info (map_get m k)).
Proof.
  intros Hstep stream. unfold effect_on.
  induction stream as [|c stream IH]; intros m; simpl.
  - reflexivity.
  - rewrite IH, Hstep. reflexivity.
Qed.

Lemma existsb_ids k stream :
  existsb (String.eqb k) (ids stream) = true <-> In k (ids stream).
Proof.
  rewrite existsb_exists. split.
  - intros [x [Hin Heq]]. apply String.eqb_eq in Heq. subst. exact Hin.
  - intros Hin. exists k. split; [exact Hin | apply String.eqb_refl].
Qed.

Lemma effect_on_absent {B} (g : chunk -> option B -> option B) k stream :
  forall current,
    ~ In k (ids stream) -> effect_on g k stream current = current.
Proof.
  unfold effect_on.
  induction stream as [|c stream IH]; intros current Hnot; simpl.
  - reflexivity.
  - simpl in Hnot.
    destruct (String.eqb_spec (id c) k) as [Heq | Hne].
    + exfalso. apply Hnot. left. exact Heq.
    + apply IH. intros Hin. apply Hnot. right. exact Hin.
Qed.

Lemma effect_vector_present k stream :
  forall current,
    In k (ids stream) ->
    exists c, In c stream /\ id c = k
              /\ effect_on enter_vector k stream current
                 = Some (Some Vector, payload c).
Proof.
  induction stream as [|c stream IH]; intros current Hin; simpl in Hin.
  - destruct Hin.
  - destruct (in_dec string_dec k (ids stream)) as [Hlater | Hlast].
    + destruct (IH (if String.eqb (id c) k then enter_vector c current
                    else current) Hlater) as [c' [Hc' [Hid Heff]]].
      exists c'. split; [right; exact Hc' |]. split; [exact Hid | exact Heff].
    + destruct Hin as [Hid | Hin]; [| contradiction].
      exists c. split; [left; reflexivity |]. split; [exact Hid |].
      unfold effect_on. simpl. rewrite Hid, String.eqb_refl.
      apply (effect_on_absent enter_vector k stream). exact Hlast.
Qed.

Lemma effect_new_kept p k stream i :
  effect_on (enter_new p) k stream (Some i) = Some i.
Proof.
  unfold effect_on. induction stream as [|c stream IH]; simpl.
  - reflexivity.
  - destruct (String.eqb (id c) k); exact IH.
Qed.

Lemma effect_new_present p k stream :
  In k (ids stream) ->
  exists c, In c stream /\ id c = k
            /\ effect_on (enter_new p) k stream None = Some (Some p, payload c).
Proof.
  induction stream as [|c stream IH]; intros Hin; simpl in Hin.
  - destruct Hin.
  - unfold effect_on. simpl.
    destruct (String.eqb_spec (id c) k) as [Hid | Hne].
    + exists c. split; [left; reflexivity |]. split; [exact Hid |].
      apply effect_new_kept.
    + destruct Hin as [Hid | Hin]; [contradiction |].
      destruct (IH Hin) as [c' [Hc' [Hid Heff]]].
      exists c'. split; [right; exact Hc' |]. split; [exact Hid | exact Heff].
Qed.

Lemma combine_map_info m v t k :
  option_map info (map_get (combine_map (m, v, t)) k)
  = effect_on (enter_new Theme) k t
      (effect_on (enter_new Master) k m
         (effect_on enter_vector k v None)).
Proof.
  unfold combine_map.
  rewrite (info_fold add_theme (enter_new Theme))
    by (intros; apply info_add_boost).
  rewrite (info_fold add_master (enter_new Master))
    by (intros; apply info_add_boost).
  rewrite (info_fold add_vector enter_vector)
    by (intros; apply info_add_vector).
  reflexivity.
Qed.

Lemma fused_chunk_stored searchResults r :
  In r (combineSearchResults searchResults) ->
  map_get (combine_map searchResults) (id r) = Some r.
Proof.
  intros Hin. unfold combineSearchResults in Hin.
  apply (Permutation_in r (sort_desc_perm _)) in Hin.
  unfold map_values in Hin. apply in_map_iff in Hin.
  destruct Hin as [[k c] [Hc Hkc]]. simpl in Hc. subst c.
  destruct (combine_map_wf searchResults) as [Hkeyed Hnd].
  unfold keyed in Hkeyed. rewrite Forall_forall in Hkeyed.
  pose proof (Hkeyed _ Hkc) as Hid. simpl in Hid. rewrite Hid.
  apply map_In_get; assumption.
Qed.

(** Every fused result is labelled with the first of the streams
    vector, master, theme that holds its id, and its reference and token
    count are those of a chunk of that stream: what a later stream holds
    under the same id does not replace them. *)
Theorem fused_chunk_comes_from_its_first_stream :
  forall (masterResults vectorResults themeResults : list chunk) (r : chunk),
    In r (combineSearchResults (masterResults, vectorResults, themeResults)) ->
    let p := origin masterResults vectorResults (id r) in
    source r = Some p
    /\ exists c,
         In c (stream_of (masterResults, vectorResults, themeResults) p)
         /\ id c = id r /\ payload r = payload c.
Proof.
  intros m v t r Hin p.
  pose proof (fused_chunk_stored _ _ Hin) as Hget.
  pose proof (combine_map_info m v t (id r)) as Hinfo.
  rewrite Hget in Hinfo. simpl in Hinfo.
  assert (Hkey : In (id r) (ids v) \/ In (id r) (ids m) \/ In (id r) (ids t)).
  { apply combine_map_keys. exact (map_get_Some_key _ _ _ _ Hget). }
  subst p. unfold origin, stream_of.
  destruct (existsb (String.eqb (id r)) (ids v)) eqn:Hv.
  - apply existsb_ids in Hv.
    destruct (effect_vector_present (id r) v None Hv) as [c [Hc [Hid Heff]]].
    rewrite Heff, !effect_new_kept in Hinfo.
    unfold info in Hinfo. injection Hinfo as Hsrc Href Htok.
    split; [exact Hsrc |]. exists c. repeat split; try assumption.
    unfold payload. rewrite Href, Htok. reflexivity.
  - assert (Hnv : ~ In (id r) (ids v)).
    { intros H. apply existsb_ids in H. congruence. }
    rewrite (effect_on_absent enter_vector (id r) v None Hnv) in Hinfo.
    destruct (existsb (String.eqb (id r)) (ids m)) eqn:Hm.
    + apply existsb_ids in Hm.
      destruct (effect_new_present Master (id r) m Hm) as [c [Hc [Hid Heff]]].
      rewrite Heff, effect_new_kept in Hinfo.
      unfold info in Hinfo. injection Hinfo as Hsrc Href Htok.
      split; [exact Hsrc |]. exists c. repeat split; try assumption.
      unfold payload. rewrite Href, Htok. reflexivity.
    + assert (Hnm : ~ In (id r) (ids m)).
      { intros H. apply existsb_ids in H. congruence. }
      rewrite (effect_on_absent (enter_new Master) (id r) m None Hnm) in Hinfo.
      destruct Hkey as [H | [H | Ht]]; [contradiction | contradiction |].
      destruct (effect_new_present Theme (id r) t Ht) as [c [Hc [Hid Heff]]].
      rewrite Heff in Hinfo.
      unfold info in Hinfo. injection Hinfo as Hsrc Href Htok.
      split; [exact Hsrc |]. exists c. repeat split; try assumption.
      unfold payload. rewrite Href, Htok. reflexivity.
Qed.

Lemma fused_chunk_comes_from_its_first_stream_witness :
  let r := mkChunk "B" "Likutei Moharan 1:2" (Some 150%Z) (80 # 100) (Some Vector) in
  In r (combineSearchResults scenario)
  /\ source r = Some Vector
  /\ exists c, In c [chunk_A; chunk_B] /\ id c = "B" /\ payload r = payload c.
Proof.
  split.
  - vm_compute. right. left. reflexivity.
  - apply (fused_chunk_comes_from_its_first_stream
             [] [chunk_A; chunk_B] [chunk_B_theme]
             (mkChunk "B" "Likutei Moharan 1:2" (Some 150%Z) (80 # 100)
                (Some Vector))).
    vm_compute. right. left. reflexivity.
Defined.

(** ** Budget selection keeps the ranking *)

(** The loop only appends to the selection, and what it appends is taken
    from the results in their order. *)
Lemma select_loop_appends limit results :
  forall totalTokens selected,
    exists picked,
      select_loop limit results totalTokens selected = selected ++ picked
      /\ subsequence picked results.
Proof.
  induction results as [|c rest IH]; intros total sel;
    cbn [select_loop]; cbv zeta.
  - exists []. split; [rewrite app_nil_r; reflexivity | constructor].
  - destruct (total + tokens c <? limit)%Z.
    + destruct (20 <=? List.length (sel ++ [c]))%nat.
      * exists [c]. split; [reflexivity |].
        apply subsequence_keep, subsequence_nil_l.
      * destruct (IH (total + tokens c)%Z (sel ++ [c])) as [picked [Heq Hsub]].
        exists (c :: picked). split.
        -- rewrite Heq, <- app_assoc. reflexivity.
        -- apply subsequence_keep. exact Hsub.
    + destruct (20 <=? List.length sel)%nat.
      * exists []. split; [rewrite app_nil_r; reflexivity |].
        apply subsequence_nil_l.
      * destruct (IH total sel) as [picked [Heq Hsub]].
        exists picked. split; [exact Heq |].
        apply subsequence_skip. exact Hsub.
Qed.

(** [selectBestChunks] neither reorders nor invents chunks: the
    selection is a subsequence of the ranked list it is given. *)
Theorem selection_keeps_ranking_order :
  forall (env_MAX_CONTEXT_TOKENS : option Z) (results : list chunk),
    subsequence (selectBestChunks env_MAX_CONTEXT_TOKENS results) results.
Proof.
  intros env results. unfold selectBestChunks.
  destruct (select_loop_appends (maxTokens env) results 0%Z [])
    as [picked [-> Hsub]].
  exact Hsub.
Qed.

(** The selection is empty exactly when no chunk fits the budget on
    its own, that is when every chunk has at least [maxTokens] tokens (the
    comparison with the budget is strict). *)
Theorem nothing_selected_iff_no_chunk_fits :
  forall (env_MAX_CONTEXT_TOKENS : option Z) (results : list chunk),
    selectBestChunks env_MAX_CONTEXT_TOKENS results = []
    <-> (forall c, In c results ->
                   (maxTokens env_MAX_CONTEXT_TOKENS <= tokens c)%Z).
Proof.
  intros env results. unfold selectBestChunks.
  generalize (maxTokens env). intros limit.
  induction results as [|c rest IH]; cbn [select_loop]; cbv zeta.
  - split; [intros _ x [] | reflexivity].
  - destruct (0 + tokens c <? limit)%Z eqn:Hfit.
    + apply Z.ltb_lt in Hfit. split.
      * intros Hsel. exfalso.
        change (20 <=? List.length ([] ++ [c]))%nat with false in Hsel.
        cbv iota in Hsel.
        destruct (select_loop_appends limit rest (0 + tokens c)%Z ([] ++ [c]))
          as [picked [Heq _]].
        rewrite Heq in Hsel. discriminate.
      * intros Hall. specialize (Hall c (or_introl eq_refl)). lia.
    + apply Z.ltb_ge in Hfit.
      change (20 <=? List.length (@nil chunk))%nat with false. cbv iota.
      rewrite IH. split.
      * intros Hall x [<- | Hx]; [lia | exact (Hall x Hx)].
      * intros Hall x Hx. apply Hall. right. exact Hx.
Qed.

(** With token counts that are not negative, a run of chunks that fits as
    a whole is taken as a whole, up to the cap. *)
Lemma select_loop_takes_all limit results :
  forall totalTokens selected,
    (forall c, In c results -> (0 <= tokens c)%Z) ->
    (List.length selected < 20)%nat ->
    (totalTokens
     + total_tokens (firstn (20 - List.length selected) results) < limit)%Z ->
    select_loop limit results totalTokens selected
    = selected ++ firstn (20 - List.length selected) results.
Proof.
  induction results as [|c rest IH]; intros total sel Hpos Hlen Hfit;
    cbn [select_loop]; cbv zeta.
  - rewrite firstn_nil, app_nil_r. reflexivity.
  - destruct (20 - List.length sel)%nat as [|n] eqn:Hn; [lia |].
    cbn [firstn] in Hfit |- *. cbn [total_tokens fold_right] in Hfit.
    fold (total_tokens (firstn n rest)) in Hfit.
    assert (Hrest : (0 <= total_tokens (firstn n rest))%Z).
    { clear - Hpos. revert n. induction rest as [|x rest IHr]; intros n.
      - rewrite firstn_nil. simpl. lia.
      - destruct n; simpl; [lia |].
        assert (0 <= tokens x)%Z by (apply Hpos; right; left; reflexivity).
        assert (0 <= total_tokens (firstn n rest))%Z.
        { apply IHr. intros c' [-> | Hc'].
          - apply Hpos. left. reflexivity.
          - apply Hpos. right. right. exact Hc'. }
        unfold total_tokens in *. lia. }
    assert (Hc : (0 <= tokens c)%Z) by (apply Hpos; left; reflexivity).
    assert (Hlt : (total + tokens c <? limit)%Z = true)
      by (apply Z.ltb_lt; lia).
    rewrite Hlt.
    assert (Hl : List.length (sel ++ [c]) = S (List.length sel))
      by (rewrite length_app; simpl; lia).
    destruct (20 <=? List.length (sel ++ [c]))%nat eqn:Hcap.
    + apply Nat.leb_le in Hcap.
      assert (n = 0)%nat by lia. subst n. reflexivity.
    + apply Nat.leb_gt in Hcap.
      rewrite IH.
      * rewrite Hl, <- app_assoc.
        replace (20 - S (List.length sel))%nat with n by lia. reflexivity.
      * intros x Hx. apply Hpos. right. exact Hx.
      * exact Hcap.
      * rewrite Hl. replace (20 - S (List.length sel))%nat with n by lia.
        unfold total_tokens in *. lia.
Qed.

(** When token counts are not negative and the twenty best chunks
    together stay under the budget, the selection is exactly these
    twenty (or the whole list when it is shorter). *)
Theorem top_twenty_selected_when_they_fit :
  forall (env_MAX_CONTEXT_TOKENS : option Z) (results : list chunk),
    (forall c, In c results -> (0 <= tokens c)%Z) ->
    (total_tokens (firstn 20 results) < maxTokens env_MAX_CONTEXT_TOKENS)%Z ->
    selectBestChunks env_MAX_CONTEXT_TOKENS results = firstn 20 results.
Proof.
  intros env results Hpos Hfit. unfold selectBestChunks.
  rewrite select_loop_takes_all.
  - reflexivity.
  - exact Hpos.
  - simpl. lia.
  - change (20 - List.length (@nil chunk))%nat with 20%nat. lia.
Qed.

Lemma top_twenty_selected_when_they_fit_witness :
  selectBestChunks None (combineSearchResults scenario)
  = firstn 20 (combineSearchResults scenario).
Proof.
  apply (top_twenty_selected_when_they_fit None (combineSearchResults scenario)).
  - vm_compute. intros c [<- | [<- | []]]; discriminate.
  - vm_compute. reflexivity.
Defined.

End FusionFacts2.

(* ===================================================================== *)
(** * Further properties of the lookups and of the /ask query path     *)
(* ===================================================================== *)

Section LookupFacts.

Import JS Fusion Query QuerySpec FusionOrigin Order LookupSpec.
Open Scope string_scope.
Open Scope list_scope.

(** ** [deduplicateResults] *)

Lemma seen_spec seen k :
  existsb (String.eqb k) seen = true <-> In k seen.
Proof.
  rewrite existsb_exists. split.
  - intros [x [Hin Heq]]. apply String.eqb_eq in Heq. subst. exact Hin.
  - intros Hin. exists k. split; [exact Hin | apply String.eqb_refl].
Qed.

Lemma dedup_from_ids results : forall seen k,
  In k (ids (dedup_from seen results)) <-> In k (ids results) /\ ~ In k seen.
Proof.
  induction results as [|r rest IH]; intros seen k; simpl.
  - tauto.
  - destruct (existsb (String.eqb (id r)) seen) eqn:Hseen.
    + apply seen_spec in Hseen. rewrite IH. split.
      * intros [Hin Hns]. split; [right; exact Hin | exact Hns].
      * intros [[<- | Hin] Hns]; [contradiction | split; assumption].
    + assert (Hns : ~ In (id r) seen).
      { intros H. apply seen_spec in H. congruence. }
      simpl. rewrite IH. simpl. split.
      * intros [<- | [Hin Hn]]; [split; [left; reflexivity | exact Hns] |].
        split; [right; exact Hin | intros H; apply Hn; right; exact H].
      * intros [[<- | Hin] Hn]; [left; reflexivity |].
        destruct (string_dec (id r) k) as [-> | Hne]; [left; reflexivity |].
        right. split; [exact Hin |]. intros [Heq | H]; [congruence | exact (Hn H)].
Qed.

Lemma dedup_from_NoDup results : forall seen,
  NoDup (ids (dedup_from seen results)).
Proof.
  induction results as [|r rest IH]; intros seen; simpl.
  - constructor.
  - destruct (existsb (String.eqb (id r)) seen); [apply IH |].
    simpl. constructor; [| apply IH].
    intros Hin. apply dedup_from_ids in Hin. destruct Hin as [_ Hn].
    apply Hn. left. reflexivity.
Qed.

Lemma dedup_from_subsequence results : forall seen,
  subsequence (dedup_from seen results) results.
Proof.
  induction results as [|r rest IH]; intros seen; simpl.
  - constructor.
  - destruct (existsb (String.eqb (id r)) seen).
    + apply subsequence_skip, IH.
    + apply subsequence_keep, IH.
Qed.

Lemma dedup_from_first results : forall seen r,
  In r (dedup_from seen results) ->
  exists pre post,
    results = pre ++ r :: post /\ ~ In (id r) (ids pre) /\ ~ In (id r) seen.
Proof.
  induction results as [|r0 rest IH]; intros seen r; simpl; intros Hin.
  - destruct Hin.
  - destruct (existsb (String.eqb (id r0)) seen) eqn:Hseen.
    + apply seen_spec in Hseen.
      destruct (IH seen r Hin) as [pre [post [-> [Hpre Hns]]]].
      exists (r0 :: pre), post. split; [reflexivity |]. split; [| exact Hns].
      simpl. intros [Heq | H]; [| exact (Hpre H)].
      apply Hns. rewrite <- Heq. exact Hseen.
    + assert (Hns : ~ In (id r0) seen).
      { intros H. apply seen_spec in H. congruence. }
      destruct Hin as [<- | Hin].
      * exists [], rest. split; [reflexivity |]. split; [intros [] | exact Hns].
      * destruct (IH (id r0 :: seen) r Hin) as [pre [post [-> [Hpre Hn]]]].
        exists (r0 :: pre), post. split; [reflexivity |]. split.
        -- simpl. intros [Heq | H]; [| exact (Hpre H)].
           apply Hn. left. exact Heq.
        -- intros H. apply Hn. right. exact H.
Qed.

(** [deduplicateResults] keeps, for every id, the first result that
    carries it and nothing else: the ids of its result are distinct and
    are those of its argument, the order is kept, and no kept result has
    an earlier result with the same id. *)
Theorem deduplication_keeps_first_result_of_each_id :
  forall results : list chunk,
    NoDup (ids (deduplicateResults results))
    /\ (forall k, In k (ids (deduplicateResults results)) <-> In k (ids results))
    /\ subsequence (deduplicateResults results) results
    /\ (forall r, In r (deduplicateResults results) ->
          exists pre post,
            results = pre ++ r :: post /\ ~ In (id r) (ids pre)).
Proof.
  intros results. unfold deduplicateResults.
  split; [apply dedup_from_NoDup |].
  split; [| split; [apply dedup_from_subsequence |]].
  - intros k. rewrite dedup_from_ids. simpl. tauto.
  - intros r Hin.
    destruct (dedup_from_first results [] r Hin) as [pre [post [H1 [H2 _]]]].
    exists pre, post. split; assumption.
Qed.

(** ** [sortByImportance] *)

Lemma insert_by_importance_perm x l :
  Permutation (insert_by_importance x l) (x :: l).
Proof.
  induction l as [|y l IH]; simpl.
  - apply Permutation_refl.
  - destruct (truthy_number (score y) && truthy_number (score x)).
    + destruct (score x ?= score y)%Q.
      * rewrite IH. apply perm_swap.
      * rewrite IH. apply perm_swap.
      * apply Permutation_refl.
    + rewrite IH. apply perm_swap.
Qed.

Lemma sortByImportance_perm_acc l : forall acc,
  Permutation (fold_left (fun acc x => insert_by_importance x acc) l acc)
              (acc ++ l).
Proof.
  induction l as [|x l IH]; intros acc; simpl.
  - rewrite app_nil_r. apply Permutation_refl.
  - rewrite IH, insert_by_importance_perm. simpl. apply Permutation_middle.
Qed.

Lemma sortByImportance_perm l : Permutation (sortByImportance l) l.
Proof. unfold sortByImportance. apply (sortByImportance_perm_acc l []). Qed.

Lemma truthy_scored c : scored c -> truthy_number (score c) = true.
Proof.
  unfold scored, truthy_number. intros H.
  destruct (Qeq_bool (score c) 0) eqn:E; [| reflexivity].
  apply Qeq_bool_eq in E. contradiction.
Qed.

Lemma insert_by_importance_scored x l :
  scored x -> Forall scored l -> insert_by_importance x l = insert_desc x l.
Proof.
  intros Hx. induction 1 as [|y l Hy _ IH]; simpl.
  - reflexivity.
  - rewrite (truthy_scored _ Hx), (truthy_scored _ Hy). simpl.
    rewrite IH. reflexivity.
Qed.

Lemma sortByImportance_scored_acc l : forall acc,
  Forall scored l -> Forall scored acc ->
  fold_left (fun acc x => insert_by_importance x acc) l acc
  = fold_left (fun acc x => insert_desc x acc) l acc.
Proof.
  induction l as [|x l IH]; intros acc Hl Hacc; simpl.
  - reflexivity.
  - inversion Hl as [|? ? Hx Hl']; subst.
    rewrite insert_by_importance_scored by assumption.
    apply IH; [exact Hl' |].
    apply (Permutation_Forall (Permutation_sym (insert_desc_perm x acc))).
    constructor; assumption.
Qed.

(** When no score is 0 (the case in which the comparator of
    [sortByImportance] gives up), the sort returns a permutation of its
    argument in non-increasing order of score. *)
Theorem sortByImportance_orders_scored_results :
  forall results : list chunk,
    (forall c, In c results -> ~ score c == 0) ->
    Permutation (sortByImportance results) results
    /\ StronglySorted descending (sortByImportance results).
Proof.
  intros results Hscored. split; [apply sortByImportance_perm |].
  unfold sortByImportance.
  rewrite sortByImportance_scored_acc.
  - apply sort_desc_sorted_acc. constructor.
  - apply Forall_forall. exact Hscored.
  - constructor.
Qed.

Lemma sortByImportance_orders_scored_results_witness :
  Permutation (sortByImportance [chunk_Y; mkChunk "Z" "" None (8 # 10) None])
              [chunk_Y; mkChunk "Z" "" None (8 # 10) None]
  /\ StronglySorted descending
       (sortByImportance [chunk_Y; mkChunk "Z" "" None (8 # 10) None]).
Proof.
  apply (sortByImportance_orders_scored_results
           [chunk_Y; mkChunk "Z" "" None (8 # 10) None]).
  intros c [<- | [<- | []]]; simpl; intros H; discriminate H.
Defined.

(** ** The two master-index streams *)


(** ** The handler *)

Lemma selection_length env results :
  (List.length (selectBestChunks env results) <= 20)%nat.
Proof.
  unfold selectBestChunks.
  pose proof (select_loop_invariant (maxTokens env) results 0%Z []) as H.
  cbv zeta in H. apply H; [reflexivity | left; reflexivity | simpl; lia].
Qed.

(** When [/ask] answers with a number [n] of chunks used, [n] is at least
    1 and at most 20, the analysis of the question succeeded, and the
    answer is the one generated for the question from [n] chunks. *)
Theorem answer_is_generated_from_1_to_20_chunks :
  forall (w : world) (question : string) (maxResults : Z) (a : answer) (n : nat),
    ask w question maxResults = Answered a n ->
    (1 <= n <= 20)%nat
    /\ exists queryAnalysis topChunks,
         analyzeQuery w question = Resolved queryAnalysis
         /\ List.length topChunks = n
         /\ generatePreciseAnswer w question topChunks queryAnalysis = Resolved a.
Proof.
  intros w question maxResults a n. unfold ask.
  destruct question as [|ch q]; [discriminate |].
  destruct (analyzeQuery w (String ch q)) as [qa|e]; [| discriminate].
  cbn [bind].
  destruct (retrieve w qa maxResults) as [sr|e]; [| discriminate].
  cbn [bind]. cbv zeta.
  pose proof (selection_length (env_MAX_CONTEXT_TOKENS w)
                (combineSearchResults sr)) as Hlen.
  destruct (selectBestChunks (env_MAX_CONTEXT_TOKENS w)
              (combineSearchResults sr)) as [|c top] eqn:Hsel;
    [destruct (generateSuggestions qa); discriminate |].
  destruct (generatePreciseAnswer w (String ch q) (c :: top) qa) as [r|e] eqn:Hgen;
    [| discriminate].
  cbn [bind]. intros Heq. injection Heq as -> <-.
  split; [simpl in *; lia |].
  exists qa, (c :: top). repeat split. exact Hgen.
Qed.

Lemma answer_is_generated_from_1_to_20_chunks_witness :
  (1 <= 2 <= 20)%nat
  /\ exists queryAnalysis topChunks,
       analyzeQuery world_all_up "Que dit Rabbi Nachman sur la joie ?"
       = Resolved queryAnalysis
       /\ List.length topChunks = 2%nat
       /\ generatePreciseAnswer world_all_up
            "Que dit Rabbi Nachman sur la joie ?" topChunks queryAnalysis
          = Resolved (mkAnswer "..." (1 # 1) ["Likutei Moharan 24:1"]).
Proof.
  apply (answer_is_generated_from_1_to_20_chunks world_all_up
           "Que dit Rabbi Nachman sur la joie ?" 10).
  vm_compute. reflexivity.
Defined.

End LookupFacts.

(* ===================================================================== *)
(** * Lookups in the master index                                      *)
(* ===================================================================== *)

Section IndexLookupFacts.

Import JS MasterIndex MasterIndexSpec IndexLookupSpec.
Open Scope string_scope.
Open Scope list_scope.

(** ** Looking a term up after a rebuild *)

Lemma term_map_matches type terms_of term chunks :
  entry_matches
    (option_map (fun d => entry_of type (term, d))
       (map_get (fold_left record (occurrences terms_of chunks) []) term))
    (carriers terms_of term chunks).
Proof.
  rewrite get_fold_record. unfold carriers.
  destruct (of_term term (occurrences terms_of chunks)) as [|o rel] eqn:Hrel.
  - reflexivity.
  - cbv zeta.
    cbn [map_get data_or_empty empty_term_data td_chunks td_books td_frequency
           option_map entry_of entry_matches related_chunks frequency
           book_references].
    split; [discriminate |]. split; [| split; [| split]].
    + cbn [app]. rewrite map_map. reflexivity.
    + rewrite length_map. lia.
    + apply fold_set_add_NoDup. constructor.
    + intros b. rewrite fold_set_add_In, map_map. simpl. tauto.
Qed.

Lemma find_theme chunks term :
  find_entry (index_entries chunks) term "theme"
  = option_map (fun d => entry_of "theme" (term, d))
      (map_get (theme_map chunks) term).
Proof.
  rewrite index_entries_eq, find_entry_rows.
  rewrite <- (app_nil_r (List.map (entry_of "concept") (keyword_map chunks))).
  rewrite find_entry_rows. simpl.
  destruct (map_get (theme_map chunks) term); reflexivity.
Qed.

Lemma find_concept chunks term :
  find_entry (index_entries chunks) term "concept"
  = option_map (fun d => entry_of "concept" (term, d))
      (map_get (keyword_map chunks) term).
Proof.
  rewrite index_entries_eq, find_entry_rows.
  rewrite <- (app_nil_r (List.map (entry_of "concept") (keyword_map chunks))).
  rewrite find_entry_rows. simpl.
  destruct (map_get (keyword_map chunks) term); reflexivity.
Qed.

Lemma rebuilt_index_complete schema st :
  infer_arbiter schema ["key_term"; "index_type"] = true ->
  rebuilt_index schema st = index_entries (text_chunks st).
Proof.
  intros Harb. unfold rebuilt_index. rewrite rebuild_leaves.
  fold conflict_target in Harb. rewrite Harb. reflexivity.
Qed.

(** On a table that has the unique index, after a rebuild that ran to
    its end the index holds, for a term and the type [theme] (resp.
    [concept]), an entry exactly when some chunk carries the term among
    its themes (resp. keywords); the entry lists these chunks in table
    order, once per occurrence, counts them, and names each of their
    books once.  No entry has another type. *)
Theorem rebuilt_entry_lists_the_chunks_of_its_term :
  forall (schema : table_schema) (st : store) (term : string),
    infer_arbiter schema ["key_term"; "index_type"] = true ->
    let index := rebuilt_index schema st in
    entry_matches (find_entry index term "theme")
      (carriers themes_of term (text_chunks st))
    /\ entry_matches (find_entry index term "concept")
         (carriers keywords_of term (text_chunks st))
    /\ (forall type, type <> "theme" -> type <> "concept" ->
                     find_entry index term type = None).
Proof.
  intros schema st term Harb index. subst index.
  rewrite (rebuilt_index_complete _ _ Harb).
  split; [| split].
  - rewrite find_theme. apply term_map_matches.
  - rewrite find_concept. apply term_map_matches.
  - intros type Ht Hc.
    rewrite index_entries_eq, find_entry_rows.
    rewrite <- (app_nil_r (List.map (entry_of "concept") (keyword_map _))).
    rewrite find_entry_rows.
    destruct (String.eqb_spec "theme" type) as [Heq | _]; [congruence |].
    destruct (String.eqb_spec "concept" type) as [Heq | _]; [congruence |].
    reflexivity.
Qed.

Lemma rebuilt_entry_lists_the_chunks_of_its_term_witness :
  entry_matches
    (find_entry (rebuilt_index master_index_with_unique_key store_before_rebuild)
       "joie" "theme")
    (carriers themes_of "joie" (text_chunks store_before_rebuild))
  /\ entry_matches
       (find_entry
          (rebuilt_index master_index_with_unique_key store_before_rebuild)
          "joie" "concept")
       (carriers keywords_of "joie" (text_chunks store_before_rebuild))
  /\ (forall type, type <> "theme" -> type <> "concept" ->
        find_entry
          (rebuilt_index master_index_with_unique_key store_before_rebuild)
          "joie" type = None).
Proof.
  apply (rebuilt_entry_lists_the_chunks_of_its_term
           master_index_with_unique_key store_before_rebuild "joie").
  reflexivity.
Defined.

(** ** [addIndexEntry] on a table with the unique index *)

Lemma find_entry_upsert table row term type :
  find_entry (upsert table row) term type
  = if String.eqb (key_term row) term && String.eqb (index_type row) type
    then match find_entry table term type with
         | Some old =>
             Some (mkIndexRow (index_type old) (key_term old)
                     (related_chunks row) (book_references row)
                     (frequency row) (importance_score row))
         | None => Some row
         end
    else find_entry table term type.
Proof.
  induction table as [|old table IH]; simpl.
  - destruct (String.eqb (key_term row) term && String.eqb (index_type row) type);
      reflexivity.
  - unfold same_key.
    destruct (String.eqb_spec (key_term old) (key_term row)) as [Hk | Hk];
      destruct (String.eqb_spec (index_type old) (index_type row)) as [Ht | Ht];
      simpl.
    + rewrite <- Hk, <- Ht.
      destruct (String.eqb (key_term old) term && String.eqb (index_type old) type);
        reflexivity.
    + rewrite IH.
      destruct (String.eqb_spec (key_term old) term) as [Hk' | Hk'];
        destruct (String.eqb_spec (index_type old) type) as [Ht' | Ht'];
        simpl; try reflexivity.
      subst term type.
      destruct (String.eqb_spec (index_type row) (index_type old));
        [congruence |].
      rewrite andb_false_r. reflexivity.
    + rewrite IH.
      destruct (String.eqb_spec (key_term old) term) as [Hk' | Hk'];
        destruct (String.eqb_spec (index_type old) type) as [Ht' | Ht'];
        simpl; try reflexivity.
      subst term type.
      destruct (String.eqb_spec (key_term row) (key_term old));
        [congruence |].
      reflexivity.
    + rewrite IH.
      destruct (String.eqb_spec (key_term old) term) as [Hk' | Hk'];
        destruct (String.eqb_spec (index_type old) type) as [Ht' | Ht'];
        simpl; try reflexivity.
      subst term type.
      destruct (String.eqb_spec (key_term row) (key_term old));
        [congruence |].
      reflexivity.
Qed.

Lemma upsert_keys table row :
  keys (upsert table row)
  = if existsb (same_key row) table then keys table
    else keys table ++ [(key_term row, index_type row)].
Proof.
  induction table as [|old table IH]; simpl.
  - reflexivity.
  - replace (same_key row old) with (same_key old row)
      by (unfold same_key;
          rewrite (String.eqb_sym (key_term row)),
                  (String.eqb_sym (index_type row)); reflexivity).
    destruct (same_key old row); simpl.
    + reflexivity.
    + rewrite IH. destruct (existsb (same_key row) table); reflexivity.
Qed.

Lemma existsb_same_key row table :
  existsb (same_key row) table = true
  <-> In (key_term row, index_type row) (keys table).
Proof.
  unfold keys. rewrite existsb_exists, in_map_iff. unfold same_key. split.
  - intros [old [Hin Heq]]. apply andb_true_iff in Heq.
    destruct Heq as [Hk Ht]. apply String.eqb_eq in Hk, Ht.
    exists old. split; [congruence | exact Hin].
  - intros [old [Heq Hin]]. injection Heq as Hk Ht. exists old.
    split; [exact Hin |]. rewrite Hk, Ht, !String.eqb_refl. reflexivity.
Qed.

(** On a table that has the unique index and a connection that still
    serves a statement, [addIndexEntry] resolves; afterwards a lookup of
    its key finds a row with the columns it assigned, every other key
    finds what it found before, keys that were distinct stay distinct,
    and the table grew by one row only if the key was new. *)
Theorem addIndexEntry_inserts_or_replaces :
  forall (schema : table_schema) (indexData : index_row) (st : store),
    infer_arbiter schema ["key_term"; "index_type"] = true ->
    statements_left st <> Some 0%nat ->
    let r := addIndexEntry schema indexData st in
    let before := master_index st in
    let after := master_index (snd r) in
    fst r = Resolved tt
    /\ (exists stored,
          find_entry after (key_term indexData) (index_type indexData)
          = Some stored
          /\ assigned stored = assigned indexData)
    /\ (forall term type,
          (term, type) <> (key_term indexData, index_type indexData) ->
          find_entry after term type = find_entry before term type)
    /\ (NoDup (keys before) -> NoDup (keys after))
    /\ List.length after
       = (if existsb (same_key indexData) before
          then List.length before else S (List.length before)).
Proof.
  intros schema row st Harb Hleft r before after.
  assert (Hr : r = (Resolved tt,
                    mkStore (upsert (master_index st) row) (text_chunks st)
                      (match statements_left st with
                       | Some (S n) => Some n
                       | _ => None
                       end))).
  { subst r. unfold addIndexEntry, pool_query, insert_on_conflict.
    destruct (statements_left st) as [[|n]|] eqn:Hs;
      [congruence | |]; rewrite Harb; cbn [master_index text_chunks statements_left];
      try rewrite Hs; reflexivity. }
  subst after before. rewrite Hr. cbn [fst snd master_index].
  split; [reflexivity |]. split; [| split; [| split]].
  - rewrite find_entry_upsert, !String.eqb_refl. cbn [andb].
    destruct (find_entry (master_index st) (key_term row) (index_type row));
      eexists; split; reflexivity.
  - intros term type Hne. rewrite find_entry_upsert.
    destruct (String.eqb_spec (key_term row) term) as [Hk | Hk];
      destruct (String.eqb_spec (index_type row) type) as [Ht | Ht];
      try reflexivity.
    exfalso. apply Hne. congruence.
  - intros Hnd. rewrite upsert_keys.
    destruct (existsb (same_key row) (master_index st)) eqn:Hex; [exact Hnd |].
    apply NoDup_app; [exact Hnd | repeat constructor; simpl; tauto |].
    intros k Hk [<- | []].
    apply existsb_same_key in Hk. congruence.
  - pose proof (upsert_keys (master_index st) row) as Hk.
    apply (f_equal (@List.length _)) in Hk. unfold keys in Hk at 1.
    rewrite length_map in Hk. rewrite Hk.
    destruct (existsb (same_key row) (master_index st)).
    + unfold keys. rewrite length_map. reflexivity.
    + rewrite length_app. unfold keys. rewrite length_map. simpl. lia.
Qed.

Lemma addIndexEntry_inserts_or_replaces_witness :
  let row := mkIndexRow "theme" "tikkun" ["c7"; "c9"] ["Tikkun HaKlali"] 2
               (20 # 100) in
  let r := addIndexEntry master_index_with_unique_key row store_before_rebuild in
  let before := master_index store_before_rebuild in
  let after := master_index (snd r) in
  fst r = Resolved tt
  /\ (exists stored,
        find_entry after "tikkun" "theme" = Some stored
        /\ assigned stored = assigned row)
  /\ (forall term type,
        (term, type) <> ("tikkun", "theme") ->
        find_entry after term type = find_entry before term type)
  /\ (NoDup (keys before) -> NoDup (keys after))
  /\ List.length after = 1%nat.
Proof.
  apply (addIndexEntry_inserts_or_replaces master_index_with_unique_key
           (mkIndexRow "theme" "tikkun" ["c7"; "c9"] ["Tikkun HaKlali"] 2
              (20 # 100))
           store_before_rebuild).
  - reflexivity.
  - discriminate.
Defined.

(** ** The score grows with both counts and saturates *)

Lemma Qmin_mono (x y : Q) : x <= y -> Qmin x 1 <= Qmin y 1.
Proof.
  intros H. apply Q.min_glb.
  - apply (Qle_trans _ x); [apply Q.le_min_l | exact H].
  - apply Q.le_min_r.
Qed.

(** The importance score grows with the frequency and with the number
    of books, no longer changes beyond 10 occurrences or beyond 5 books,
    and is 1 at 10 occurrences in 5 books. *)
Theorem importance_score_monotone_and_saturating :
  forall f f' d d' : Q,
    f <= f' -> d <= d' ->
    calculateImportanceScore f d <= calculateImportanceScore f' d'
    /\ (10 <= f -> calculateImportanceScore f d
                   == calculateImportanceScore 10 d)
    /\ (5 <= d -> calculateImportanceScore f d
                  == calculateImportanceScore f 5)
    /\ calculateImportanceScore 10 5 == 1.
Proof.
  intros f f' d d' Hf Hd. unfold calculateImportanceScore.
  assert (H1 : Qmin (f / 10) 1 <= Qmin (f' / 10) 1).
  { apply Qmin_mono. apply Qmult_le_compat_r; [exact Hf | discriminate]. }
  assert (H2 : Qmin (d / 5) 1 <= Qmin (d' / 5) 1).
  { apply Qmin_mono. apply Qmult_le_compat_r; [exact Hd | discriminate]. }
  split; [lra |]. split; [| split].
  - intros H10.
    assert (E : Qmin (f / 10) 1 == 1).
    { apply Q.min_r. apply Qle_shift_div_l; [reflexivity | lra]. }
    assert (E' : Qmin (10 / 10) 1 == 1) by reflexivity.
    rewrite E, E'. reflexivity.
  - intros H5.
    assert (E : Qmin (d / 5) 1 == 1).
    { apply Q.min_r. apply Qle_shift_div_l; [reflexivity | lra]. }
    assert (E' : Qmin (5 / 5) 1 == 1) by reflexivity.
    rewrite E, E'. reflexivity.
  - reflexivity.
Qed.

Lemma importance_score_monotone_and_saturating_witness :
  calculateImportanceScore 3 1 <= calculateImportanceScore 12 2
  /\ (10 <= 3 -> calculateImportanceScore 3 1
                 == calculateImportanceScore 10 1)
  /\ (5 <= 1 -> calculateImportanceScore 3 1
                == calculateImportanceScore 3 5)
  /\ calculateImportanceScore 10 5 == 1.
Proof.
  apply (importance_score_monotone_and_saturating 3 12 1 2).
  - discriminate.
  - discriminate.
Defined.

End IndexLookupFacts.

(* ===================================================================== *)
(** * What chunking keeps of the text                                  *)
(* ===================================================================== *)

Section ChunkingFacts.

Import JS Chunker ChunkerSpec ChunkingSpec.
Open Scope Z_scope.
Open Scope list_scope.

(** ** What splitting and trimming leave of a text *)

Lemma essence_app a b : essence (a ++ b) = essence a ++ essence b.
Proof. apply filter_app. Qed.

Lemma essence_rev s : essence (rev s) = rev (essence s).
Proof.
  induction s as [|c s IH]; simpl; [reflexivity |].
  rewrite essence_app, IH. simpl. destruct (kept c); simpl.
  - reflexivity.
  - rewrite app_nil_r. reflexivity.
Qed.

Lemma essence_space c s : is_space c = true -> essence (c :: s) = essence s.
Proof. intros H. unfold essence, kept. simpl. rewrite H. reflexivity. Qed.

Lemma essence_blank s : blank s = true -> essence s = [].
Proof.
  induction s as [|c s IH]; intros H; [reflexivity |].
  simpl in H. apply andb_true_iff in H. destruct H as [Hc Hs].
  rewrite (essence_space _ _ Hc). exact (IH Hs).
Qed.

Lemma essence_trim_start s : essence (trim_start s) = essence s.
Proof.
  induction s as [|c s IH]; [reflexivity |].
  cbn [trim_start]. destruct (is_space c) eqn:Hc; [| reflexivity].
  rewrite IH. symmetry. apply essence_space, Hc.
Qed.

Lemma essence_trim s : essence (trim s) = essence s.
Proof.
  unfold trim, trim_end. rewrite !reverse_rev.
  rewrite essence_rev, essence_trim_start, essence_rev, rev_involutive.
  apply essence_trim_start.
Qed.

Lemma essence_concat_filter pieces :
  essence (List.concat (List.filter non_blank pieces))
  = essence (List.concat pieces).
Proof.
  induction pieces as [|p pieces IH]; simpl; [reflexivity |].
  rewrite essence_app, <- IH.
  destruct (non_blank p) eqn:Hp; simpl.
  - rewrite essence_app. reflexivity.
  - rewrite non_blank_spec in Hp. apply negb_false_iff in Hp.
    rewrite (essence_blank _ Hp). reflexivity.
Qed.

Lemma essence_split_runs sep :
  (forall c, sep c = true -> kept c = false) ->
  forall s piece in_run,
    essence (List.concat (split_runs sep s piece in_run))
    = essence (rev piece ++ s).
Proof.
  intros Hsep. induction s as [|c s IH]; intros piece in_run; simpl.
  - rewrite reverse_rev, !app_nil_r. reflexivity.
  - destruct (sep c) eqn:Hc.
    + assert (Hdrop : essence (rev piece ++ c :: s) = essence (rev piece ++ s)).
      { rewrite !essence_app. f_equal. unfold essence. simpl.
        rewrite (Hsep c Hc). reflexivity. }
      destruct in_run.
      * rewrite IH. symmetry. exact Hdrop.
      * simpl. rewrite essence_app, IH, reverse_rev. simpl.
        rewrite Hdrop, essence_app. reflexivity.
    + rewrite IH. simpl. rewrite <- app_assoc. reflexivity.
Qed.

Lemma essence_sentences text :
  essence (List.concat (splitIntoSentences text)) = essence text.
Proof.
  unfold splitIntoSentences.
  rewrite essence_concat_filter, essence_split_runs.
  - reflexivity.
  - intros c Hc. unfold kept. rewrite Hc, orb_true_r. reflexivity.
Qed.

Lemma newline_space : is_space newline = true.
Proof. reflexivity. Qed.

Lemma essence_cons c s :
  essence (c :: s) = (if kept c then [c] else []) ++ essence s.
Proof. unfold essence. simpl. destruct (kept c); reflexivity. Qed.

Lemma kept_space c : is_space c = true -> kept c = false.
Proof. intros H. unfold kept. rewrite H. reflexivity. Qed.

Lemma essence_rev_blank ws : blank ws = true -> essence (rev ws) = [].
Proof. intros H. rewrite essence_rev, (essence_blank _ H). reflexivity. Qed.

Lemma essence_split_blank_lines s : forall piece pending matched,
  match pending with Some ws => blank ws = true | None => True end ->
  essence (List.concat (split_blank_lines s piece pending matched))
  = essence (rev piece ++ s).
Proof.
  induction s as [|c s IH]; intros piece pending matched Hws;
    cbn [split_blank_lines].
  - rewrite app_nil_r. destruct pending as [ws|].
    + destruct matched; cbn [List.concat]; rewrite !reverse_rev, ?app_nil_r.
      * rewrite essence_app, (essence_rev_blank _ Hws), app_nil_r.
        reflexivity.
      * rewrite rev_app_distr. cbn [rev]. rewrite <- !app_assoc.
        rewrite !essence_app, (essence_rev_blank _ Hws).
        rewrite (essence_cons newline), (kept_space _ newline_space).
        cbn [app]. rewrite app_nil_r. reflexivity.
    + cbn [List.concat]. rewrite reverse_rev, app_nil_r. reflexivity.
  - destruct pending as [ws|].
    + destruct (c =? newline)%N eqn:Hnl.
      * apply N.eqb_eq in Hnl. subst c.
        rewrite IH by reflexivity.
        rewrite !essence_app, essence_cons, (kept_space _ newline_space).
        reflexivity.
      * destruct (is_space c) eqn:Hc.
        -- rewrite IH by (cbn [blank forallb]; rewrite Hc; exact Hws).
           rewrite !essence_app, (essence_cons c), (kept_space _ Hc).
           reflexivity.
        -- destruct matched.
           ++ cbn [List.concat]. rewrite essence_app, IH by exact I.
              rewrite reverse_rev. cbn [rev]. rewrite <- !app_assoc.
              rewrite !essence_app, (essence_rev_blank _ Hws).
              cbn [app]. rewrite (essence_cons c s), (essence_cons c []).
              rewrite app_nil_r. reflexivity.
           ++ rewrite IH by exact I. cbn [rev].
              rewrite rev_app_distr. cbn [rev]. rewrite <- !app_assoc.
              rewrite !essence_app, (essence_rev_blank _ Hws).
              rewrite (essence_cons newline), (kept_space _ newline_space).
              cbn [app]. rewrite (essence_cons c s), (essence_cons c []).
              rewrite app_nil_r. reflexivity.
    + destruct (c =? newline)%N eqn:Hnl.
      * apply N.eqb_eq in Hnl. subst c.
        rewrite IH by reflexivity.
        rewrite !essence_app, essence_cons, (kept_space _ newline_space).
        reflexivity.
      * rewrite IH by exact I. cbn [rev]. rewrite <- app_assoc. reflexivity.
Qed.

Lemma essence_paragraphs text :
  essence (List.concat (splitIntoParagraphs text)) = essence text.
Proof.
  unfold splitIntoParagraphs.
  rewrite essence_concat_filter, essence_split_blank_lines by exact I.
  reflexivity.
Qed.

(** ** Chunking keeps the text *)

Section Preservation.

Variable chat : request -> outcome (list (option jsstring)).
Variable parse : jsstring -> outcome json.
Variable cfg : config.

Lemma contents_app a b : contents (a ++ b) = contents a ++ contents b.
Proof. unfold contents. rewrite map_app, concat_app. reflexivity. Qed.

Lemma contents_one c : contents [c] = content c.
Proof. unfold contents. simpl. apply app_nil_r. Qed.

Section OneSection.

Variable section : section_record.
Variable bookMetadata : book_metadata.
Variable sectionIndex : Z.

Lemma flush_content st :
  content (fst (flush chat parse section bookMetadata sectionIndex st))
  = trim (currentChunk st).
Proof.
  unfold flush.
  match goal with
  | |- context [createChunk chat parse ?p] =>
      destruct (createChunk_result chat parse p) as [Hc _]
  end.
  exact Hc.
Qed.

Lemma add_unit_text separator st unit :
  essence separator = [] ->
  essence (text_of (fst (add_unit chat parse cfg section bookMetadata
                           sectionIndex separator st unit)))
  = essence (text_of st) ++ essence unit.
Proof.
  intros Hsep. unfold add_unit, text_of.
  destruct ((currentTokens st + estimateTokenCount unit >? chunkSize cfg)
            && truthy (trim (currentChunk st))).
  - rewrite bindM_fst. cbn [retM fst chunks currentChunk].
    rewrite contents_app, contents_one, flush_content.
    rewrite !essence_app, essence_trim, <- !app_assoc. reflexivity.
  - cbn [retM fst chunks currentChunk].
    rewrite !essence_app, <- !app_assoc.
    destruct (truthy (currentChunk st)); [rewrite Hsep |]; reflexivity.
Qed.

Lemma add_units_text separator units :
  essence separator = [] ->
  forall st,
    essence (text_of (fst (foldM (add_unit chat parse cfg section bookMetadata
                                    sectionIndex separator) units st)))
    = essence (text_of st) ++ essence (List.concat units).
Proof.
  intros Hsep. induction units as [|u units IH]; intros st; simpl.
  - rewrite app_nil_r. reflexivity.
  - rewrite bindM_fst, IH, add_unit_text by exact Hsep.
    rewrite essence_app, app_assoc. reflexivity.
Qed.

Lemma add_paragraph_text st paragraph :
  essence (text_of (fst (add_paragraph chat parse cfg section bookMetadata
                           sectionIndex st paragraph)))
  = essence (text_of st) ++ essence paragraph.
Proof.
  unfold add_paragraph.
  destruct (estimateTokenCount paragraph >? chunkSize cfg).
  - rewrite bindM_fst, add_units_text by reflexivity.
    rewrite essence_sentences. f_equal.
    destruct (truthy (trim (currentChunk st))).
    + rewrite bindM_fst. cbn [retM fst]. unfold text_of.
      cbn [chunks currentChunk].
      rewrite contents_app, contents_one, flush_content, app_nil_r.
      rewrite !essence_app, essence_trim. reflexivity.
    + reflexivity.
  - apply add_unit_text. reflexivity.
Qed.

Lemma add_paragraphs_text paragraphs : forall st,
  essence (text_of (fst (foldM (add_paragraph chat parse cfg section
                                  bookMetadata sectionIndex) paragraphs st)))
  = essence (text_of st) ++ essence (List.concat paragraphs).
Proof.
  induction paragraphs as [|p paragraphs IH]; intros st; simpl.
  - rewrite app_nil_r. reflexivity.
  - rewrite bindM_fst, IH, add_paragraph_text.
    rewrite essence_app, app_assoc. reflexivity.
Qed.

Lemma intelligentSplit_text fullText :
  essence (contents (fst (intelligentSplit chat parse cfg section bookMetadata
                            sectionIndex fullText)))
  = essence fullText.
Proof.
  unfold intelligentSplit. rewrite bindM_fst.
  pose proof (add_paragraphs_text (splitIntoParagraphs fullText)
                (mkSplit [] [] 0 0)) as H.
  rewrite essence_paragraphs in H. cbn [app] in H.
  set (st := fst (foldM _ _ _)) in *.
  unfold text_of in H. rewrite essence_app in H.
  fold (non_blank (currentChunk st)).
  destruct (non_blank (currentChunk st)) eqn:Hnb.
  - rewrite bindM_fst. cbn [retM fst].
    rewrite contents_app, contents_one, flush_content.
    rewrite essence_app, essence_trim. exact H.
  - cbn [retM fst]. rewrite non_blank_spec in Hnb.
    apply negb_false_iff in Hnb.
    rewrite (essence_blank _ Hnb), app_nil_r in H. exact H.
Qed.

Lemma chunkSection_text :
  essence (contents (fst (chunkSection chat parse cfg section bookMetadata
                            sectionIndex)))
  = essence (combineTexts (hebrew_text section) (english_text section)).
Proof.
  unfold chunkSection.
  fold (non_blank (combineTexts (hebrew_text section) (english_text section))).
  destruct (non_blank (combineTexts (hebrew_text section) (english_text section)))
    eqn:Hnb; cbn [negb].
  - destruct (estimateTokenCount
                (combineTexts (hebrew_text section) (english_text section))
              <=? chunkSize cfg).
    + rewrite bindM_fst. cbn [retM fst]. rewrite contents_one.
      match goal with
      | |- context [createChunk chat parse ?p] =>
          destruct (createChunk_result chat parse p) as [Hc _]
      end.
      rewrite Hc. reflexivity.
    + apply intelligentSplit_text.
  - cbn [retM fst bindM logM]. rewrite non_blank_spec in Hnb.
    apply negb_false_iff in Hnb. rewrite (essence_blank _ Hnb). reflexivity.
Qed.

End OneSection.

Lemma chunk_sections_text bookMetadata total sections : forall i,
  essence (contents (fst (chunk_sections chat parse cfg bookMetadata total
                            sections i)))
  = essence (List.concat
               (List.map (fun s => combineTexts (hebrew_text s) (english_text s))
                  sections)).
Proof.
  induction sections as [|section sections IH]; intros i;
    cbn [chunk_sections List.map List.concat].
  - reflexivity.
  - rewrite !bindM_fst. cbn [logM retM fst].
    rewrite contents_app, !essence_app, chunkSection_text, IH. reflexivity.
Qed.

End Preservation.

(** Before overlap is added, the contents of the chunks of a book, read
    one after the other, are the texts of its sections up to whitespace
    and sentence terminators: chunking drops or duplicates no other
    character and keeps the order. *)
Theorem chunks_hold_the_text_of_their_sections :
  forall (chatCompletion : request -> outcome (list (option jsstring)))
         (JSON_parse : jsstring -> outcome json) (cfg : config)
         (bookMetadata : book_metadata) (sections : list section_record),
    essence (contents (fst (chunks_before_overlap chatCompletion JSON_parse cfg
                              bookMetadata sections)))
    = essence (List.concat
                 (List.map
                    (fun s => combineTexts (hebrew_text s) (english_text s))
                    sections)).
Proof.
  intros chat parse cfg book sections. unfold chunks_before_overlap.
  apply chunk_sections_text.
Qed.

(** ** The chunks of a section, one by one *)

Lemma createChunk_fields chat parse params :
  let c := fst (createChunk chat parse params) in
  c_book_id c = book_id (p_book_metadata params)
  /\ chunk_index c = p_chunk_index params
  /\ c_hebrew_text c
     = extractHebrewFromContent (p_content params) (p_hebrew_text params)
  /\ exact_reference c = p_exact_reference params
  /\ section_title c = p_section_title params
  /\ paragraph_number c = p_section_index params + 1
  /\ is_complete_section c = p_is_complete_section params.
Proof.
  unfold createChunk, analyzeChunkContent, generateChunkSummary.
  destruct (analysis_attempt chat parse (p_content params)
              (book_title (p_book_metadata params)));
    destruct (summary_attempt chat (p_content params) (p_section_title params));
    cbn; repeat split.
Qed.

Lemma blank_trim s : blank (trim s) = blank s.
Proof.
  unfold trim, trim_end. rewrite !reverse_rev.
  rewrite blank_rev, blank_trim_start, blank_rev. apply blank_trim_start.
Qed.

Lemma non_blank_trim s : non_blank (trim s) = non_blank s.
Proof. rewrite !non_blank_spec, blank_trim. reflexivity. Qed.

(** A property of the emitted chunks and of the next index that every
    emission keeps is kept by [intelligentSplit]. *)
Section SplitInvariant.

Variable chat : request -> outcome (list (option jsstring)).
Variable parse : jsstring -> outcome json.
Variable cfg : config.
Variable section : section_record.
Variable bookMetadata : book_metadata.
Variable sectionIndex : Z.

Variable Inv : list chunk -> Z -> Prop.

Hypothesis Inv_emit :
  forall st,
    current_ok cfg st -> non_blank (currentChunk st) = true ->
    Inv (chunks st) (chunkIndex st) ->
    Inv (chunks st
         ++ [fst (flush chat parse section bookMetadata sectionIndex st)])
        (chunkIndex st + 1).

Lemma add_unit_inv separator st unit :
  addable cfg unit ->
  state_ok cfg st /\ Inv (chunks st) (chunkIndex st) ->
  let st' := fst (add_unit chat parse cfg section bookMetadata sectionIndex
                    separator st unit) in
  state_ok cfg st' /\ Inv (chunks st') (chunkIndex st').
Proof.
  intros Hunit [Hst Hinv] st'. subst st'.
  split; [apply add_unit_ok; assumption |].
  unfold add_unit. fold (non_blank (currentChunk st)).
  destruct (currentTokens st + estimateTokenCount unit >? chunkSize cfg);
    destruct (non_blank (currentChunk st)) eqn:Hnb; cbn [andb];
    try (cbn [retM fst chunks chunkIndex]; exact Hinv).
  rewrite bindM_fst. cbn [retM fst chunks chunkIndex].
  apply Inv_emit; [apply Hst | exact Hnb | exact Hinv].
Qed.

Lemma add_paragraph_inv st paragraph :
  non_blank paragraph = true ->
  state_ok cfg st /\ Inv (chunks st) (chunkIndex st) ->
  let st' := fst (add_paragraph chat parse cfg section bookMetadata sectionIndex
                    st paragraph) in
  state_ok cfg st' /\ Inv (chunks st') (chunkIndex st').
Proof.
  intros Hnb [Hst Hinv] st'. subst st'.
  split; [apply add_paragraph_ok; assumption |].
  unfold add_paragraph.
  destruct (estimateTokenCount paragraph >? chunkSize cfg) eqn:Hbig.
  - rewrite bindM_fst. fold (non_blank (currentChunk st)).
    assert (Hpre :
      let st1 :=
        fst (if non_blank (currentChunk st)
             then c <~ flush chat parse section bookMetadata sectionIndex st ;;
                  retM (mkSplit (chunks st ++ [c]) [] 0 (chunkIndex st + 1))
             else retM st) in
      state_ok cfg st1 /\ Inv (chunks st1) (chunkIndex st1)).
    { cbv zeta. destruct (non_blank (currentChunk st)) eqn:Hcb.
      - rewrite bindM_fst. cbn [retM fst chunks chunkIndex].
        destruct Hst as [Hchunks Hcur].
        destruct (flush_ok chat parse cfg section bookMetadata sectionIndex
                    st Hcur Hcb) as [Hc _].
        split; [split |].
        + cbn [chunks]. apply Forall_app. split; [exact Hchunks |].
          constructor; [exact Hc | constructor].
        + left. split; reflexivity.
        + apply Inv_emit; assumption.
      - cbn [retM fst]. split; assumption. }
    cbv zeta in Hpre.
    destruct (foldM_invariant
                (fun s => state_ok cfg s /\ Inv (chunks s) (chunkIndex s))
                (fun _ => True) (addable cfg)
                (add_unit chat parse cfg section bookMetadata sectionIndex
                   (lit " "))
                (splitIntoSentences paragraph)) with (s := fst
                  (if non_blank (currentChunk st)
                   then c <~ flush chat parse section bookMetadata sectionIndex st ;;
                        retM (mkSplit (chunks st ++ [c]) [] 0 (chunkIndex st + 1))
                   else retM st)) as [[_ Hfin] _].
    + eapply Forall_impl; [| apply sentences_unbroken].
      intros s [Hunb Hsnb]. split; [exact Hsnb | right; exact Hunb].
    + intros s x Hx Hs. split; [apply add_unit_inv; assumption |].
      apply Forall_forall. intros; exact I.
    + exact Hpre.
    + exact Hfin.
  - apply add_unit_inv; [| split; assumption].
    split; [exact Hnb | left].
    rewrite Z.gtb_ltb in Hbig. apply Z.ltb_ge in Hbig. exact Hbig.
Qed.

Lemma intelligentSplit_inv fullText :
  Inv [] 0 ->
  exists index,
    Inv (fst (intelligentSplit chat parse cfg section bookMetadata sectionIndex
                fullText)) index.
Proof.
  intros Hinit. unfold intelligentSplit. rewrite bindM_fst.
  destruct (foldM_invariant
              (fun s => state_ok cfg s /\ Inv (chunks s) (chunkIndex s))
              (fun _ => True) (fun p => non_blank p = true)
              (add_paragraph chat parse cfg section bookMetadata sectionIndex)
              (splitIntoParagraphs fullText)
              (paragraphs_non_blank fullText)) with (s := mkSplit [] [] 0 0)
    as [[[_ Hcur] Hinv] _].
  - intros s x Hx Hs. split; [apply add_paragraph_inv; assumption |].
    apply Forall_forall. intros; exact I.
  - split; [split; [constructor | left; split; reflexivity] | exact Hinit].
  - set (st := fst (foldM _ _ _)) in *.
    fold (non_blank (currentChunk st)).
    destruct (non_blank (currentChunk st)) eqn:Hnb.
    + rewrite bindM_fst. cbn [retM fst]. exists (chunkIndex st + 1).
      apply Inv_emit; assumption.
    + cbn [retM fst]. exists (chunkIndex st). exact Hinv.
Qed.

End SplitInvariant.

Lemma flush_numbered chat parse section bookMetadata sectionIndex st :
  numbered section bookMetadata sectionIndex (chunks st) (chunkIndex st) ->
  numbered section bookMetadata sectionIndex
    (chunks st ++ [fst (flush chat parse section bookMetadata sectionIndex st)])
    (chunkIndex st + 1).
Proof.
  intros [Hindex Hparts]. split.
  - rewrite length_app. simpl. lia.
  - intros k c Hk.
    destruct (Nat.lt_ge_cases k (List.length (chunks st))) as [Hlt | Hge].
    + rewrite nth_error_app1 in Hk by exact Hlt. exact (Hparts k c Hk).
    + rewrite nth_error_app2 in Hk by exact Hge.
      destruct (k - List.length (chunks st))%nat as [|n] eqn:Hn;
        [| destruct n; discriminate].
      assert (k = List.length (chunks st)) by lia. subst k.
      simpl in Hk. injection Hk as <-.
      unfold flush.
      match goal with
      | |- context [createChunk chat parse ?p] =>
          pose proof (createChunk_fields chat parse p) as Hf;
          destruct (createChunk_result chat parse p) as [Hc _]
      end.
      cbv zeta in Hf.
      cbn [p_book_metadata p_chunk_index p_content p_hebrew_text
             p_exact_reference p_section_title p_section_index
             p_is_complete_section] in Hf, Hc.
      destruct Hf as [H1 [H2 [H3 [H4 [H5 [H6 H7]]]]]].
      unfold numbered_part, placed, part_reference.
      rewrite H1, H2, H3, H4, H5, H6, H7, Hc, Hindex. repeat split.
Qed.

(** A section without text gives no chunk.  A section that fits the
    chunk size gives one chunk, marked complete, with the text and the
    reference of the section.  Otherwise the [k]-th chunk (from 0) has
    [chunk_index] [k] and the reference of the section followed by
    [:k+1], is marked incomplete, and carries the book, the title and
    the number of the section. *)
Theorem section_chunks_are_numbered_in_order :
  forall (chatCompletion : request -> outcome (list (option jsstring)))
         (JSON_parse : jsstring -> outcome json) (cfg : config)
         (section : section_record) (bookMetadata : book_metadata)
         (sectionIndex : Z),
    let fullText := combineTexts (hebrew_text section) (english_text section) in
    let sectionChunks :=
      fst (chunkSection chatCompletion JSON_parse cfg section bookMetadata
             sectionIndex) in
    if non_blank fullText
    then if estimateTokenCount fullText <=? chunkSize cfg
         then exists c,
                sectionChunks = [c]
                /\ placed section bookMetadata sectionIndex 0 c
                /\ is_complete_section c = true
                /\ exact_reference c = reference section
                /\ content c = fullText
                /\ token_count c = estimateTokenCount fullText
                /\ c_hebrew_text c
                   = extractHebrewFromContent fullText (hebrew_text section)
         else forall k c,
                nth_error sectionChunks k = Some c ->
                numbered_part section bookMetadata sectionIndex k c
    else sectionChunks = [].
Proof.
  intros chat parse cfg section book i fullText sectionChunks.
  subst sectionChunks fullText. unfold chunkSection.
  fold (non_blank (combineTexts (hebrew_text section) (english_text section))).
  destruct (non_blank (combineTexts (hebrew_text section) (english_text section)));
    cbn [negb]; [| reflexivity].
  destruct (estimateTokenCount
              (combineTexts (hebrew_text section) (english_text section))
            <=? chunkSize cfg).
  - rewrite bindM_fst. cbn [retM fst].
    match goal with
    | |- context [createChunk chat parse ?p] =>
        pose proof (createChunk_fields chat parse p) as Hf;
        destruct (createChunk_result chat parse p) as [Hc [Ht _]]
    end.
    cbv zeta in Hf.
    cbn [p_book_metadata p_chunk_index p_content p_hebrew_text
           p_exact_reference p_section_title p_section_index
           p_is_complete_section p_token_count] in Hf, Hc, Ht.
    destruct Hf as [H1 [H2 [H3 [H4 [H5 [H6 H7]]]]]].
    eexists. split; [reflexivity |]. unfold placed.
    rewrite H1, H2, H3, H4, H5, H6, H7, Hc, Ht.
    repeat split.
    destruct (estimateTokenCount _ =? 0); reflexivity.
  - destruct (intelligentSplit_inv chat parse cfg section book i
                (numbered section book i)
                (fun st _ _ => flush_numbered chat parse section book i st)
                (combineTexts (hebrew_text section) (english_text section)))
      as [index [_ Hparts]].
    + split; [reflexivity |]. intros [|k] c Hk; discriminate.
    + exact Hparts.
Qed.

(** ** No chunk without text *)

Lemma flush_solid chat parse cfg section bookMetadata sectionIndex st :
  current_ok cfg st -> non_blank (currentChunk st) = true ->
  solid (fst (flush chat parse section bookMetadata sectionIndex st)).
Proof.
  intros Hcur Hnb. unfold flush, solid.
  match goal with
  | |- context [createChunk chat parse ?p] =>
      destruct (createChunk_result chat parse p) as [Hc [Ht _]]
  end.
  cbn [p_content p_token_count] in Hc, Ht. rewrite Hc, Ht.
  split; [rewrite non_blank_trim; exact Hnb |].
  destruct Hcur as [[Hnil _] | [_ [Hpos _]]].
  - rewrite Hnil in Hnb. discriminate.
  - destruct (currentTokens st =? 0) eqn:Hz; [apply Z.eqb_eq in Hz |]; lia.
Qed.

Lemma chunkSection_solid chat parse cfg section bookMetadata sectionIndex :
  Forall solid
    (fst (chunkSection chat parse cfg section bookMetadata sectionIndex)).
Proof.
  unfold chunkSection.
  fold (non_blank (combineTexts (hebrew_text section) (english_text section))).
  destruct (non_blank (combineTexts (hebrew_text section) (english_text section)))
    eqn:Hnb; cbn [negb]; [| constructor].
  destruct (estimateTokenCount
              (combineTexts (hebrew_text section) (english_text section))
            <=? chunkSize cfg).
  - rewrite bindM_fst. cbn [retM fst].
    match goal with
    | |- context [createChunk chat parse ?p] =>
        destruct (createChunk_result chat parse p) as [Hc [Ht _]]
    end.
    cbn [p_content p_token_count] in Hc, Ht.
    constructor; [| constructor]. unfold solid. rewrite Hc, Ht.
    split; [exact Hnb |].
    pose proof (estimate_positive _ Hnb).
    destruct (estimateTokenCount _ =? 0); lia.
  - destruct (intelligentSplit_inv chat parse cfg section bookMetadata
                sectionIndex (fun chunks _ => Forall solid chunks))
      with (fullText := combineTexts (hebrew_text section) (english_text section))
      as [_ H].
    + intros st Hcur Hcb Hall. apply Forall_app. split; [exact Hall |].
      constructor; [| constructor].
      apply (flush_solid chat parse cfg); assumption.
    + constructor.
    + exact H.
Qed.

Lemma chunk_sections_solid chat parse cfg bookMetadata total sections :
  forall i,
    Forall solid
      (fst (chunk_sections chat parse cfg bookMetadata total sections i)).
Proof.
  induction sections as [|section sections IH]; intros i;
    cbn [chunk_sections].
  - constructor.
  - rewrite !bindM_fst. cbn [logM retM fst].
    apply Forall_app. split; [apply chunkSection_solid | apply IH].
Qed.

Lemma receive_overlap_solid cfg cur next :
  solid next -> solid (receive_overlap cfg cur next).
Proof.
  intros [Hnb Htok].
  destruct (receive_overlap_spec cfg cur next) as [[_ ->] | [_ [Hc Ht]]].
  - split; assumption.
  - unfold solid. rewrite Hc, Ht. split.
    + rewrite app_assoc. apply non_blank_app_r, Hnb.
    + lia.
Qed.

Lemma overlap_loop_solid cfg rest : forall cur,
  solid cur -> Forall solid rest -> Forall solid (overlap_loop cfg cur rest).
Proof.
  induction rest as [|next rest IH]; intros cur Hcur Hrest; simpl.
  - constructor; [exact Hcur | constructor].
  - inversion Hrest as [|? ? Hnext Hrest']; subst.
    constructor; [exact Hcur |].
    apply IH; [apply receive_overlap_solid, Hnext | exact Hrest'].
Qed.

(** Every chunk that [chunkBook] returns holds a character that is not
    whitespace and has a token count of at least 1, whatever the book,
    the configuration and the answers of the provider. *)
Theorem every_chunk_has_text_and_tokens :
  forall (chatCompletion : request -> outcome (list (option jsstring)))
         (JSON_parse : jsstring -> outcome json) (cfg : config)
         (book_data : Type) (extractSections : book_data -> list section_record)
         (bookData : book_data) (bookMetadata : book_metadata),
    Forall solid
      (fst (chunkBook chatCompletion JSON_parse cfg extractSections bookData
              bookMetadata)).
Proof.
  intros chat parse cfg book_data extract bookData book.
  unfold chunkBook. rewrite !bindM_fst. cbn [logM retM fst].
  unfold chunks_before_overlap.
  pose proof (chunk_sections_solid chat parse cfg book
                (Z.of_nat (List.length (extract bookData)))
                (extract bookData) 0) as H.
  destruct (fst (chunk_sections chat parse cfg book _ (extract bookData) 0))
    as [|first rest]; [constructor |].
  inversion H; subst. apply overlap_loop_solid; assumption.
Qed.

(** ** A paragraph that is split into sentences loses its terminators *)

Lemma Forall_trim_start (P : char -> Prop) s :
  Forall P s -> Forall P (trim_start s).
Proof.
  induction 1 as [|c s Hc Hs IH]; cbn [trim_start]; [constructor |].
  destruct (is_space c); [exact IH | constructor; assumption].
Qed.

Lemma Forall_trim (P : char -> Prop) s : Forall P s -> Forall P (trim s).
Proof.
  intros H. unfold trim, trim_end. rewrite !reverse_rev.
  apply Forall_rev, Forall_trim_start, Forall_rev, Forall_trim_start, H.
Qed.

Lemma split_blank_lines_length s : forall piece pending matched,
  (List.length (List.concat (split_blank_lines s piece pending matched))
   <= List.length piece
      + match pending with Some ws => S (List.length ws) | None => 0 end
      + List.length s)%nat.
Proof.
  induction s as [|c s IH]; intros piece pending matched;
    cbn [split_blank_lines].
  - destruct pending as [ws|].
    + destruct matched; cbn [List.concat]; rewrite !reverse_rev, ?app_nil_r.
      * rewrite length_app, !length_rev. simpl. lia.
      * rewrite length_rev, length_app. simpl. lia.
    + cbn [List.concat]. rewrite reverse_rev, app_nil_r, length_rev. lia.
  - destruct pending as [ws|].
    + destruct (c =? newline)%N.
      * specialize (IH piece (Some []) true). simpl in *. lia.
      * destruct (is_space c).
        -- specialize (IH piece (Some (c :: ws)) matched). simpl in *. lia.
        -- destruct matched.
           ++ cbn [List.concat]. rewrite length_app, reverse_rev, length_rev.
              specialize (IH (c :: ws) None false). simpl in *. lia.
           ++ specialize (IH (c :: ws ++ newline :: piece) None false).
              simpl in IH. rewrite length_app in IH. simpl in *. lia.
    + destruct (c =? newline)%N.
      * specialize (IH piece (Some []) false). simpl in *. lia.
      * specialize (IH (c :: piece) None false). simpl in *. lia.
Qed.

Lemma In_concat_length {A} (p : list A) pieces :
  In p pieces -> (List.length p <= List.length (List.concat pieces))%nat.
Proof.
  induction pieces as [|q pieces IH]; simpl; intros Hin; [destruct Hin |].
  rewrite length_app. destruct Hin as [-> | Hin]; [lia |].
  specialize (IH Hin). lia.
Qed.

Lemma paragraph_length text p :
  In p (splitIntoParagraphs text) -> (List.length p <= List.length text)%nat.
Proof.
  unfold splitIntoParagraphs. intros Hin. apply filter_In in Hin.
  destruct Hin as [Hin _]. apply In_concat_length in Hin.
  pose proof (split_blank_lines_length text [] None false) as H.
  simpl in H. lia.
Qed.

Lemma estimate_monotone a b :
  (List.length a <= List.length b)%nat ->
  estimateTokenCount a <= estimateTokenCount b.
Proof.
  intros H. unfold estimateTokenCount. apply Z.div_le_mono; lia.
Qed.

Section Terminators.

Variable chat : request -> outcome (list (option jsstring)).
Variable parse : jsstring -> outcome json.
Variable cfg : config.
Variable section : section_record.
Variable bookMetadata : book_metadata.
Variable sectionIndex : Z.

Lemma add_sentence_terminator_free st sentence :
  unbroken sentence -> terminator_free st ->
  terminator_free (fst (add_unit chat parse cfg section bookMetadata
                          sectionIndex (lit " ") st sentence)).
Proof.
  intros Hs [Hchunks Hcur]. unfold add_unit, terminator_free.
  destruct ((currentTokens st + estimateTokenCount sentence >? chunkSize cfg)
            && truthy (trim (currentChunk st))).
  - rewrite bindM_fst. cbn [retM fst chunks currentChunk].
    split; [| exact Hs]. apply Forall_app. split; [exact Hchunks |].
    constructor; [| constructor]. rewrite flush_content.
    apply Forall_trim, Hcur.
  - cbn [retM fst chunks currentChunk]. split; [exact Hchunks |].
    apply Forall_app. split; [exact Hcur |].
    apply Forall_app. split; [| exact Hs].
    destruct (truthy (currentChunk st)); repeat constructor.
Qed.

Lemma add_sentences_terminator_free sentences :
  Forall unbroken sentences ->
  forall st,
    terminator_free st ->
    terminator_free
      (fst (foldM (add_unit chat parse cfg section bookMetadata sectionIndex
                     (lit " ")) sentences st)).
Proof.
  induction 1 as [|s sentences Hs _ IH]; intros st Hst; simpl.
  - exact Hst.
  - rewrite bindM_fst. apply IH, add_sentence_terminator_free; assumption.
Qed.

Lemma oversize_paragraph_split fullText paragraph :
  splitIntoParagraphs fullText = [paragraph] ->
  chunkSize cfg < estimateTokenCount paragraph ->
  Forall (fun c => unbroken (content c))
    (fst (intelligentSplit chat parse cfg section bookMetadata sectionIndex
            fullText)).
Proof.
  intros Hone Hbig. unfold intelligentSplit. rewrite Hone.
  cbn [foldM]. rewrite !bindM_fst. cbn [retM fst].
  unfold add_paragraph.
  assert (Hgt : (estimateTokenCount paragraph >? chunkSize cfg) = true)
    by (rewrite Z.gtb_ltb; apply Z.ltb_lt; exact Hbig).
  rewrite Hgt. cbn [currentChunk trim trim_start trim_end reverse rev_append
                      truthy].
  rewrite bindM_fst. cbn [retM fst].
  pose proof (add_sentences_terminator_free (splitIntoSentences paragraph))
    as H.
  specialize (H (Forall_impl _ (fun s Hs => proj1 Hs)
                   (sentences_unbroken paragraph))
                (mkSplit [] [] 0 0)).
  destruct H as [Hchunks Hcur]; [split; constructor |].
  set (st := fst (foldM _ _ _)) in *.
  destruct (truthy (trim (currentChunk st))).
  - rewrite bindM_fst. cbn [retM fst].
    apply Forall_app. split; [exact Hchunks |].
    constructor; [| constructor]. rewrite flush_content.
    apply Forall_trim, Hcur.
  - exact Hchunks.
Qed.

End Terminators.

(** When a section is a single paragraph that exceeds the chunk size,
    the paragraph is split into sentences and no chunk of the section
    holds a sentence terminator any more: the full stops, question and
    exclamation marks of the source are not stored. *)
Theorem oversize_paragraph_is_stored_without_terminators :
  forall (chatCompletion : request -> outcome (list (option jsstring)))
         (JSON_parse : jsstring -> outcome json) (cfg : config)
         (section : section_record) (bookMetadata : book_metadata)
         (sectionIndex : Z) (paragraph : jsstring),
    splitIntoParagraphs
      (combineTexts (hebrew_text section) (english_text section))
    = [paragraph] ->
    chunkSize cfg < estimateTokenCount paragraph ->
    Forall (fun c => unbroken (content c))
      (fst (chunkSection chatCompletion JSON_parse cfg section bookMetadata
              sectionIndex)).
Proof.
  intros chat parse cfg section book i p Hone Hbig. unfold chunkSection.
  destruct (negb (truthy (trim (combineTexts (hebrew_text section)
                                  (english_text section))))).
  - constructor.
  - assert (Hlen : estimateTokenCount p
                   <= estimateTokenCount
                        (combineTexts (hebrew_text section)
                           (english_text section))).
    { apply estimate_monotone, paragraph_length. rewrite Hone.
      left. reflexivity. }
    destruct (estimateTokenCount
                (combineTexts (hebrew_text section) (english_text section))
              <=? chunkSize cfg) eqn:Hfit.
    + apply Z.leb_le in Hfit. lia.
    + apply (oversize_paragraph_split chat parse cfg section book i _ p);
        assumption.
Qed.

Lemma oversize_paragraph_is_stored_without_terminators_witness :
  Forall (fun c => unbroken (content c))
    (fst (chunkSection provider_ok parse_object two_token_chunks two_sentences
            likutei 0)).
Proof.
  apply (oversize_paragraph_is_stored_without_terminators provider_ok
           parse_object two_token_chunks two_sentences likutei 0
           (lit "Be glad. Pray!")).
  - vm_compute. reflexivity.
  - vm_compute. reflexivity.
Defined.

(** ** The overlap is never empty *)

Lemma split_runs_nonempty sep s : forall piece in_run,
  split_runs sep s piece in_run <> [].
Proof.
  induction s as [|c s IH]; intros piece in_run; simpl.
  - discriminate.
  - destruct (sep c); [destruct in_run; [apply IH | discriminate] | apply IH].
Qed.

Lemma slice_from_last {A} (z : Z) (l : list A) :
  z <= 0 -> l <> [] -> slice_from (Integer z) l <> [].
Proof.
  intros Hz Hl. unfold slice_from.
  assert (Hlen : (0 < List.length l)%nat)
    by (destruct l; [congruence | simpl; lia]).
  intros Hnil. apply (f_equal (@List.length A)) in Hnil.
  rewrite length_skipn in Hnil. simpl in Hnil.
  destruct (z <? 0) eqn:Hneg.
  - apply Z.ltb_lt in Hneg. lia.
  - apply Z.ltb_ge in Hneg. lia.
Qed.

(** When the overlap is a whole number of words, possibly none (the
    slice start is an integer that is not positive), [slice] does not
    return an empty array: the next chunk receives at least one word and
    its token count grows; at [-0] it receives every word of the chunk
    before it. *)
Theorem overlap_is_never_empty :
  forall (cfg : config) (z : Z) (currentChunk nextChunk : chunk),
    overlap_slice_start cfg = Integer z -> z <= 0 ->
    let words := overlapWords cfg currentChunk in
    words <> []
    /\ receive_overlap cfg currentChunk nextChunk = with_overlap nextChunk words
    /\ token_count nextChunk
       < token_count (receive_overlap cfg currentChunk nextChunk)
    /\ (z = 0 -> words = split_whitespace (content currentChunk)).
Proof.
  intros cfg z cur next Hstart Hz words. subst words.
  assert (Hwords : overlapWords cfg cur <> []).
  { unfold overlapWords. rewrite Hstart.
    apply slice_from_last; [exact Hz |]. apply split_runs_nonempty. }
  split; [exact Hwords |].
  unfold receive_overlap.
  destruct (overlapWords cfg cur) as [|w ws] eqn:Hw; [congruence |].
  split; [reflexivity |]. split.
  - cbn [with_overlap token_count List.length]. lia.
  - intros ->. unfold overlapWords in Hw. rewrite Hstart in Hw.
    unfold slice_from in Hw. cbn [Z.ltb Z.compare] in Hw.
    rewrite Z.min_l in Hw by lia. cbn [Z.to_nat skipn] in Hw.
    symmetry. exact Hw.
Qed.

Lemma overlap_is_never_empty_witness :
  let cur := plain_chunk "be glad  always" 4 in
  let next := plain_chunk "and pray" 2 in
  let words := overlapWords tiny_config cur in
  words <> []
  /\ receive_overlap tiny_config cur next = with_overlap next words
  /\ token_count next < token_count (receive_overlap tiny_config cur next)
  /\ (0 = 0 -> words = split_whitespace (content cur)).
Proof.
  apply (overlap_is_never_empty tiny_config 0
           (plain_chunk "be glad  always" 4) (plain_chunk "and pray" 2)).
  - vm_compute. reflexivity.
  - lia.
Defined.

(** ** The Hebrew text of a chunk that brings none *)

Lemma match_runs_class cls s : forall run,
  Forall (fun c => cls c = true) run ->
  Forall (Forall (fun c => cls c = true)) (match_runs cls s run).
Proof.
  induction s as [|c s IH]; intros run Hrun; cbn [match_runs].
  - destruct (truthy run); [| constructor].
    constructor; [| constructor]. rewrite reverse_rev. apply Forall_rev, Hrun.
  - destruct (cls c) eqn:Hc.
    + apply IH. constructor; assumption.
    + destruct (truthy run).
      * constructor; [rewrite reverse_rev; apply Forall_rev, Hrun |].
        apply IH. constructor.
      * apply IH. constructor.
Qed.

Lemma match_runs_none cls s : forall run,
  match_runs cls s run = [] ->
  run = [] /\ Forall (fun c => cls c = false) s.
Proof.
  induction s as [|c s IH]; intros run; cbn [match_runs].
  - destruct run; [split; [reflexivity | constructor] | discriminate].
  - destruct (cls c) eqn:Hc.
    + intros H. destruct (IH _ H) as [Hnil _]. discriminate.
    + destruct run as [|r run]; cbn [truthy]; [| discriminate].
      intros H. destruct (IH _ H) as [_ Hs].
      split; [reflexivity | constructor; assumption].
Qed.

Lemma match_runs_some cls s : forall run,
  match_runs cls s run <> [] ->
  run <> [] \/ exists c, In c s /\ cls c = true.
Proof.
  induction s as [|c s IH]; intros run; cbn [match_runs].
  - destruct run; cbn [truthy];
      [intros H; exfalso; apply H; reflexivity | left; discriminate].
  - destruct (cls c) eqn:Hc.
    + intros _. right. exists c. split; [left; reflexivity | exact Hc].
    + destruct run as [|r run]; cbn [truthy]; [| left; discriminate].
      intros H. destruct (IH _ H) as [Hn | [x [Hx Hcx]]]; [congruence |].
      right. exists x. split; [right; exact Hx | exact Hcx].
Qed.

Lemma Forall_join (P : char -> Prop) sep pieces :
  Forall P sep -> Forall (Forall P) pieces -> Forall P (join sep pieces).
Proof.
  intros Hsep. induction 1 as [|p pieces Hp Hps IH]; cbn [join].
  - constructor.
  - destruct pieces as [|q pieces]; [exact Hp |].
    apply Forall_app. split; [exact Hp |].
    apply Forall_app. split; [exact Hsep | exact IH].
Qed.

Lemma Forall_blank s : Forall (fun c => is_space c = true) s -> blank s = true.
Proof.
  induction 1 as [|c s Hc _ IH]; simpl; [reflexivity |].
  rewrite Hc, IH. reflexivity.
Qed.

Lemma trim_blank s : blank s = true -> trim s = [].
Proof.
  intros H. unfold trim.
  assert (Hstart : trim_start s = []).
  { pose proof (trim_start_blank s) as Ht. rewrite H in Ht.
    destruct (trim_start s); [reflexivity | discriminate]. }
  rewrite Hstart. reflexivity.
Qed.

(** Without a Hebrew text of its own, the Hebrew of a chunk is taken
    from its content: the result is absent only if the content has no
    Hebrew character and no whitespace at all; otherwise it is made of
    Hebrew characters and whitespace only, and it is the empty string
    when the content has whitespace but no Hebrew. *)
Theorem hebrew_fallback_keeps_hebrew_and_whitespace :
  forall content : jsstring,
    match extractHebrewFromContent content TextAbsent with
    | None => Forall (fun c => is_hebrew_or_space c = false) content
    | Some hebrew =>
        hebrew_only hebrew
        /\ (exists c, In c content /\ is_hebrew_or_space c = true)
        /\ (without_hebrew content -> hebrew = [])
    end.
Proof.
  intros content. unfold extractHebrewFromContent.
  pose proof (match_runs_class is_hebrew_or_space content [] (Forall_nil _))
    as Hclass.
  destruct (match_runs is_hebrew_or_space content []) as [|m ms] eqn:Hruns.
  - exact (proj2 (match_runs_none _ _ _ Hruns)).
  - split; [| split].
    + apply Forall_trim, Forall_join; [| exact Hclass].
      repeat constructor.
    + destruct (match_runs_some is_hebrew_or_space content []) as [H | H];
        [rewrite Hruns; discriminate | exfalso; apply H; reflexivity | exact H].
    + intros Hnone. apply trim_blank, Forall_blank.
      apply Forall_join; [repeat constructor |].
      assert (Hws : Forall (Forall (fun c => is_space c = true))
                      (match_runs (fun c => is_hebrew_or_space c
                                            && is_space c) content [])).
      { apply (Forall_impl (P := Forall (fun c =>
                 is_hebrew_or_space c && is_space c = true))).
        - intros l Hl. eapply Forall_impl; [| exact Hl].
          intros c Hc. apply andb_true_iff in Hc. tauto.
        - apply match_runs_class. constructor. }
      assert (Hsame : forall s run,
                without_hebrew s ->
                match_runs (fun c => is_hebrew_or_space c && is_space c) s run
                = match_runs is_hebrew_or_space s run).
      { clear. induction s as [|c s IH]; intros run Hs; cbn [match_runs].
        - reflexivity.
        - inversion Hs as [|? ? Hc Hs']; subst.
          destruct (is_hebrew_or_space c) eqn:E.
          + rewrite (Hc eq_refl). cbn [andb]. apply IH, Hs'.
          + cbn [andb]. rewrite !IH by exact Hs'. reflexivity. }
      rewrite Hsame, Hruns in Hws by exact Hnone. exact Hws.
Qed.

End ChunkingFacts.

(* ===================================================================== *)
(** * Properties of section extraction                                 *)
(* ===================================================================== *)

Section SectionsFacts.

Import JS Chunker Sections SectionsSpec.
Open Scope Z_scope.
Open Scope list_scope.








(** For a payload without [sections], [extractSections] returns the
    positions of the longer of the two text arrays at which one of them
    has a truthy entry (a non-empty string or a nested array), each with
    the number of its position; a payload with neither [he] nor [text]
    gives no section. *)
Theorem direct_format_keeps_positions_with_text :
  forall bookData : payload,
    book_sections bookData = None ->
    let positions :=
      seq 0 (Nat.max (List.length (as_array (book_he bookData)))
                     (List.length (as_array (book_text bookData)))) in
    extractSections bookData
    = List.map (section_of_position bookData)
        (List.filter (carries_text bookData) positions)
    /\ (texts_truthy (book_he bookData) = false ->
        texts_truthy (book_text bookData) = false ->
        extractSections bookData = []).
Proof.
  intros bookData Hnone positions. subst positions.
  unfold extractSections. rewrite Hnone.
  assert (Hfilter : forall l,
            List.filter has_text (List.map (section_of_position bookData) l)
            = List.map (section_of_position bookData)
                (List.filter (carries_text bookData) l)).
  { induction l as [|i l IH]; simpl; [reflexivity |].
    unfold carries_text at 1.
    destruct (has_text (section_of_position bookData i)); simpl;
      rewrite IH; reflexivity. }
  destruct (texts_truthy (book_he bookData)) eqn:Hhe;
    destruct (texts_truthy (book_text bookData)) eqn:Htext; cbn [orb];
    try (split; [apply Hfilter | intros; discriminate]).
  split; [| reflexivity].
  (* neither property holds text: one position, without text *)
  clear Hfilter. destruct bookData as [secs bhe btext bref].
  cbn [book_he book_text] in *.
  destruct bhe as [items|[|c s]|]; try discriminate;
    destruct btext as [items'|[|c' s']|]; try discriminate; reflexivity.
Qed.

Lemma direct_format_keeps_positions_with_text_witness :
  extractSections direct_texts
  = List.map (section_of_position direct_texts)
      (List.filter (carries_text direct_texts) (seq 0 3))
  /\ (texts_truthy (book_he direct_texts) = false ->
      texts_truthy (book_text direct_texts) = false ->
      extractSections direct_texts = []).
Proof.
  apply (direct_format_keeps_positions_with_text direct_texts).
  reflexivity.
Defined.

End SectionsFacts.

(* ===================================================================== *)
(** * Properties of citations and confidence                           *)
(* ===================================================================== *)

Section OpenRouterFacts.

Import JS Chunker ChunkerSpec OpenRouter OpenRouterSpec.
Open Scope list_scope.

(** ** Confidence *)

Lemma filter_length_all {A} (f : A -> bool) l :
  List.length (List.filter f l) = List.length l
  <-> Forall (fun x => f x = true) l.
Proof.
  induction l as [|x l IH]; simpl.
  - split; [constructor | reflexivity].
  - pose proof (filter_length_le f l) as Hle.
    destruct (f x) eqn:Hx; simpl.
    + split.
      * intros H. constructor; [exact Hx | apply IH; lia].
      * intros H. inversion H; subst. f_equal. apply IH. assumption.
    + split; [lia |]. intros H. inversion H; subst. congruence.
Qed.

Lemma ratio_bounds (v n : nat) :
  (v <= n)%nat -> (0 < n)%nat ->
  let r := (inject_Z (Z.of_nat v) / inject_Z (Z.of_nat n))%Q in
  (0 <= r)%Q /\ (r <= 1)%Q /\ ((r == 1)%Q <-> v = n)
  /\ ((r == 0)%Q <-> v = 0%nat).
Proof.
  intros Hle Hpos r. subst r.
  assert (Hn : (0 < inject_Z (Z.of_nat n))%Q).
  { change 0%Q with (inject_Z 0). rewrite <- Zlt_Qlt. lia. }
  assert (Hv : (0 <= inject_Z (Z.of_nat v))%Q).
  { change 0%Q with (inject_Z 0). rewrite <- Zle_Qle. lia. }
  assert (Hvn : (inject_Z (Z.of_nat v) <= inject_Z (Z.of_nat n))%Q).
  { rewrite <- Zle_Qle. lia. }
  split; [| split; [| split]].
  - apply Qle_shift_div_l; [exact Hn |]. rewrite Qmult_0_l. exact Hv.
  - apply Qle_shift_div_r; [exact Hn |]. rewrite Qmult_1_l. exact Hvn.
  - split.
    + intros H.
      assert (E : (inject_Z (Z.of_nat v) == inject_Z (Z.of_nat n))%Q).
      { rewrite <- (Qmult_div_r (inject_Z (Z.of_nat v)) (inject_Z (Z.of_nat n)))
          by (intros E; rewrite E in Hn; discriminate).
        rewrite H. ring. }
      apply (proj1 (inject_Z_injective _ _)) in E. lia.
    + intros ->. field. intros E. rewrite E in Hn. discriminate.
  - split.
    + intros H.
      assert (E : (inject_Z (Z.of_nat v) == inject_Z 0)%Q).
      { rewrite <- (Qmult_div_r (inject_Z (Z.of_nat v)) (inject_Z (Z.of_nat n)))
          by (intros E; rewrite E in Hn; discriminate).
        rewrite H. ring. }
      apply (proj1 (inject_Z_injective _ _)) in E. lia.
    + intros ->. simpl. field. intros E. rewrite E in Hn. discriminate.
Qed.

Lemma confidence_of_ratio (c : citation) (l : list citation)
  (chunks : list source) :
  let citations := c :: l in
  let r := (inject_Z (Z.of_nat (List.length (List.filter verified citations)))
            / inject_Z (Z.of_nat (List.length citations)))%Q in
  (0 <= r)%Q /\ (r <= 1)%Q
  /\ ((r == 1)%Q <-> all_verified citations)
  /\ ((r == 0)%Q <-> Forall (fun x => verified x = false) citations)
  /\ calculateConfidence citations chunks
     = Qmin (r * (7 # 10)
             + match chunks with _ :: _ => 3 # 10 | [] => 0 end)%Q 1.
Proof.
  intros citations r.
  destruct (ratio_bounds (List.length (List.filter verified citations))
              (List.length citations)) as [H0 [H1 [Hone Hzero]]].
  - apply filter_length_le.
  - simpl. lia.
  - fold r in H0, H1, Hone, Hzero.
    split; [exact H0 |]. split; [exact H1 |].
    split; [| split; [| reflexivity]].
    + rewrite Hone. apply filter_length_all.
    + rewrite Hzero. split.
      * intros H. apply Forall_forall. intros x Hx.
        destruct (verified x) eqn:E; [| reflexivity].
        assert (Hin : In x (List.filter verified citations))
          by (apply filter_In; split; assumption).
        destruct (List.filter verified citations); [destruct Hin | discriminate].
      * intros H. rewrite Forall_forall in H.
        destruct (List.filter verified citations) as [|x f] eqn:E;
          [reflexivity |].
        assert (Hin : In x (List.filter verified citations))
          by (rewrite E; left; reflexivity).
        apply filter_In in Hin. destruct Hin as [Hin Hv].
        rewrite (H x Hin) in Hv. discriminate.
Qed.

(** The confidence of an answer lies between 0 and 1.  It is 0.1
    without citations.  With citations and chunks it is at least 0.3 and
    reaches 1 exactly when every citation is verified; with citations
    and no chunk it is at most 0.7 and is 0 exactly when no citation is
    verified. *)
Theorem confidence_levels :
  forall (citations : list citation) (chunks : list source),
    let confidence := calculateConfidence citations chunks in
    (0 <= confidence)%Q /\ (confidence <= 1)%Q
    /\ (citations = [] -> confidence = 1 # 10)
    /\ (citations <> [] -> chunks <> [] ->
        (3 # 10 <= confidence)%Q
        /\ ((confidence == 1)%Q <-> all_verified citations))
    /\ (citations <> [] -> chunks = [] ->
        (confidence <= 7 # 10)%Q
        /\ ((confidence == 0)%Q
            <-> Forall (fun c => verified c = false) citations)).
Proof.
  intros citations chunks confidence. subst confidence.
  destruct citations as [|c l].
  - cbn. repeat split; try discriminate; congruence.
  - destruct (confidence_of_ratio c l chunks) as [H0 [H1 [Hone [Hzero ->]]]].
    set (r := (inject_Z _ / inject_Z _)%Q) in *.
    destruct chunks as [|s chunks].
    + assert (E : (Qmin (r * (7 # 10) + 0) 1 == r * (7 # 10))%Q).
      { rewrite Q.min_l by lra. ring. }
      split; [rewrite E; lra |]. split; [rewrite E; lra |].
      split; [discriminate |]. split; [congruence |].
      intros _ _. split; [rewrite E; lra |].
      rewrite E, <- Hzero. split; intros H; lra.
    + assert (E : (Qmin (r * (7 # 10) + (3 # 10)) 1
                   == r * (7 # 10) + (3 # 10))%Q).
      { rewrite Q.min_l by lra. reflexivity. }
      split; [rewrite E; lra |]. split; [rewrite E; lra |].
      split; [discriminate |]. split; [| congruence].
      intros _ _. split; [rewrite E; lra |].
      rewrite E, <- Hone. split; intros H; lra.
Qed.

(** ** Citations *)

Lemma starts_with_spec needle : forall hay,
  starts_with needle hay = true <-> exists after, hay = needle ++ after.
Proof.
  induction needle as [|n needle IH]; intros hay; simpl.
  - split; [intros _; exists hay; reflexivity | reflexivity].
  - destruct hay as [|h hay].
    + split; [discriminate | intros [after H]; discriminate].
    + rewrite andb_true_iff, N.eqb_eq, IH. split.
      * intros [-> [after ->]]. exists after. reflexivity.
      * intros [after H]. injection H as -> ->. split; [reflexivity |].
        exists after. reflexivity.
Qed.

Lemma includes_spec needle hay :
  includes hay needle = true <-> occurs_in needle hay.
Proof.
  unfold occurs_in. induction hay as [|h hay IH]; simpl.
  - rewrite orb_false_r, starts_with_spec. split.
    + intros [after H]. exists [], after. exact H.
    + intros [before [after H]]. destruct before; [| discriminate].
      exists after. exact H.
  - rewrite orb_true_iff, starts_with_spec, IH. split.
    + intros [[after H] | [before [after H]]].
      * exists [], after. exact H.
      * exists (h :: before), after. rewrite H. reflexivity.
    + intros [[|b before] [after H]].
      * left. exists after. exact H.
      * right. injection H as -> ->. exists before, after. reflexivity.
Qed.

Lemma cites_spec reference chunk :
  cites reference chunk = true <-> refers_to reference chunk.
Proof.
  unfold cites, refers_to. destruct (source_reference chunk) as [exact|].
  - rewrite andb_true_iff, includes_spec. split.
    + intros [Ht Hin]. exists exact. split; [reflexivity |].
      split; [destruct exact; [discriminate | discriminate] | exact Hin].
    + intros [e [He [Hne Hin]]]. injection He as <-.
      split; [destruct exact; [congruence | reflexivity] | exact Hin].
  - split; [discriminate | intros [e [He _]]; discriminate].
Qed.

Lemma citation_of_checked chunks matched :
  checked_against chunks (citation_of chunks matched)
  /\ cited_reference (citation_of chunks matched) = trim matched.
Proof.
  unfold citation_of, checked_against.
  destruct (List.find (cites (trim matched)) chunks) as [chunk|] eqn:Hfind;
    cbn [chunk_id verified cited_reference].
  - apply find_some in Hfind. destruct Hfind as [Hin Hc].
    split; [| reflexivity]. split; [reflexivity |].
    exists chunk. split; [exact Hin |]. split; [reflexivity |].
    apply cites_spec, Hc.
  - split; [| reflexivity]. split; [reflexivity |].
    intros chunk Hin Hrefers. apply cites_spec in Hrefers.
    rewrite (find_none _ _ Hfind chunk Hin) in Hrefers. discriminate.
Qed.

(** [extractCitations] returns one citation per match of the reference
    pattern, in order, with the matched text trimmed; a citation is
    verified exactly when some chunk has a non-empty reference that
    contains the text of the citation, and it then carries the id of
    such a chunk. *)
Theorem citations_are_checked_against_the_chunks :
  forall (answer : jsstring) (availableChunks : list source),
    List.map cited_reference (extractCitations answer availableChunks)
    = List.map trim (reference_matches answer)
    /\ Forall (checked_against availableChunks)
         (extractCitations answer availableChunks).
Proof.
  intros answer chunks. unfold extractCitations. split.
  - rewrite map_map. apply map_ext. intros m. apply citation_of_checked.
  - apply Forall_forall. intros c Hc. apply in_map_iff in Hc.
    destruct Hc as [m [<- _]]. apply citation_of_checked.
Qed.

(** *** The shape of a reference *)

Lemma colons_app a b : colons (a ++ b) = (colons a + colons b)%nat.
Proof. unfold colons. rewrite filter_app, length_app. reflexivity. Qed.

Lemma colons_cons c s :
  colons (c :: s) = ((if (colon =? c)%N then 1 else 0) + colons s)%nat.
Proof.
  unfold colons. cbn [List.filter].
  destruct (colon =? c)%N; reflexivity.
Qed.

Lemma colons_rev s : colons (rev s) = colons s.
Proof.
  induction s as [|c s IH]; [reflexivity |].
  cbn [rev]. rewrite colons_app, IH, !colons_cons.
  change (colons []) with 0%nat. lia.
Qed.

Lemma colons_trim_start s : colons (trim_start s) = colons s.
Proof.
  induction s as [|c s IH]; [reflexivity |].
  cbn [trim_start]. destruct (is_space c) eqn:Hc; [| reflexivity].
  rewrite IH, colons_cons.
  destruct (colon =? c)%N eqn:E; [| reflexivity].
  apply N.eqb_eq in E. subst c. discriminate.
Qed.

Lemma colons_trim s : colons (trim s) = colons s.
Proof.
  unfold trim, trim_end. rewrite !reverse_rev.
  rewrite colons_rev, colons_trim_start, colons_rev. apply colons_trim_start.
Qed.

Lemma match_name_prefix name : forall s book rest,
  match_name name s = Some (book, rest) -> s = book ++ rest.
Proof.
  induction name as [|p name IH]; intros s book rest; simpl.
  - intros H. injection H as <- <-. reflexivity.
  - destruct s as [|c s]; [discriminate |].
    destruct (canonical p =? canonical c)%N; [| discriminate].
    destruct (match_name name s) as [[m r]|] eqn:Hm; [| discriminate].
    intros H. injection H as <- <-. rewrite (IH _ _ _ Hm). reflexivity.
Qed.

Lemma through_colon_prefix s : forall part rest,
  through_colon s = Some (part, rest) ->
  s = part ++ rest /\ colons part = 1%nat.
Proof.
  induction s as [|c s IH]; intros part rest; simpl; [discriminate |].
  destruct (c =? colon)%N eqn:Hc.
  - intros H. injection H as <- <-. apply N.eqb_eq in Hc. subst c.
    split; reflexivity.
  - destruct (through_colon s) as [[m r]|]; [| discriminate].
    intros H. injection H as <- <-.
    destruct (IH m r eq_refl) as [-> Hone].
    split; [reflexivity |]. rewrite colons_cons, N.eqb_sym, Hc. exact Hone.
Qed.

Lemma take_while_prefix p s : exists rest, s = take_while p s ++ rest.
Proof.
  induction s as [|c s [rest IH]]; simpl.
  - exists []. reflexivity.
  - destruct (p c).
    + exists rest. simpl. rewrite <- IH. reflexivity.
    + exists (c :: s). reflexivity.
Qed.

Lemma match_with_prefix name s m :
  match_with name s = Some m ->
  (exists rest, s = m ++ rest) /\ (2 <= colons m)%nat.
Proof.
  unfold match_with.
  destruct (match_name name s) as [[book rest]|] eqn:Hname; [| discriminate].
  destruct (through_colon rest) as [[part1 rest1]|] eqn:H1; [| discriminate].
  destruct (through_colon rest1) as [[part2 rest2]|] eqn:H2; [| discriminate].
  destruct (take_while in_reference rest2) as [|c last] eqn:Hlast;
    [discriminate |].
  intros H. injection H as <-.
  apply match_name_prefix in Hname.
  apply through_colon_prefix in H1, H2.
  destruct H1 as [-> Hc1], H2 as [-> Hc2].
  destruct (take_while_prefix in_reference rest2) as [rest3 Hrest].
  rewrite Hlast in Hrest.
  split.
  - exists rest3. rewrite Hname, Hrest, <- !app_assoc. reflexivity.
  - rewrite !colons_app, Hc1, Hc2. lia.
Qed.

Lemma match_any_prefix names s m :
  match_any names s = Some m ->
  (exists rest, s = m ++ rest) /\ (2 <= colons m)%nat.
Proof.
  induction names as [|name names IH]; simpl; [discriminate |].
  destruct (match_with name s) as [m'|] eqn:Hm.
  - intros H. injection H as <-. exact (match_with_prefix _ _ _ Hm).
  - exact IH.
Qed.

Lemma matches_from_colons s : forall skip,
  Forall (fun m => (2 <= colons m)%nat) (matches_from s skip)
  /\ (matches_from s skip <> [] -> (2 <= colons s)%nat).
Proof.
  induction s as [|c s IH]; intros skip; cbn [matches_from].
  - split; [constructor | congruence].
  - assert (Hmore : forall n, matches_from s n <> [] ->
                              (2 <= colons (c :: s))%nat).
    { intros n Hn. pose proof (proj2 (IH n) Hn) as H.
      rewrite colons_cons. lia. }
    destruct skip as [|n].
    + destruct (match_any book_names (c :: s)) as [m|] eqn:Hm.
      * destruct (match_any_prefix _ _ _ Hm) as [[rest Hs] Hc].
        split.
        -- constructor; [exact Hc | apply IH].
        -- intros _. rewrite Hs, colons_app. lia.
      * split; [apply IH | apply Hmore].
    + split; [apply IH | apply Hmore].
Qed.

(** Every citation holds at least two colons, so an answer that quotes
    its sources with one colon only (book and chapter:verse) has no
    citation at all and gets the confidence 0.1. *)
Theorem a_reference_needs_two_colons :
  forall (answer : jsstring) (availableChunks : list source),
    Forall (fun c => (2 <= colons (cited_reference c))%nat)
      (extractCitations answer availableChunks)
    /\ ((colons answer < 2)%nat ->
        extractCitations answer availableChunks = []
        /\ calculateConfidence (extractCitations answer availableChunks)
             availableChunks = 1 # 10).
Proof.
  intros answer chunks. unfold extractCitations, reference_matches.
  destruct (matches_from_colons answer 0) as [Hall Hsome].
  split.
  - apply Forall_forall. intros c Hc. apply in_map_iff in Hc.
    destruct Hc as [m [<- Hm]].
    rewrite (proj2 (citation_of_checked chunks m)), colons_trim.
    rewrite Forall_forall in Hall. exact (Hall m Hm).
  - intros Hfew.
    destruct (matches_from answer 0) as [|m ms]; [split; reflexivity |].
    assert (2 <= colons answer)%nat by (apply Hsome; discriminate). lia.
Qed.

(** ** The answer *)

(** With at least one chunk, [generatePreciseAnswer] resolves exactly
    when the provider returns a first choice with a content; the answer
    is that content, its citations are those found in it, and its
    confidence is 0.1 without citations and otherwise at least 0.3, and
    1 exactly when every citation is verified. *)
Theorem precise_answer_confidence :
  forall (chatCompletion :
            jsstring -> list source -> outcome (list (option jsstring)))
         (query : jsstring) (chunks : list source),
    chunks <> [] ->
    match generatePreciseAnswer chatCompletion query chunks with
    | Resolved r =>
        (exists others,
            chatCompletion query chunks = Resolved (Some (answer r) :: others))
        /\ citations r = extractCitations (answer r) chunks
        /\ ((citations r = [] /\ confidence r = 1 # 10)
            \/ (citations r <> []
                /\ (3 # 10 <= confidence r)%Q /\ (confidence r <= 1)%Q
                /\ ((confidence r == 1)%Q <-> all_verified (citations r))))
    | Rejected _ =>
        match chatCompletion query chunks with
        | Resolved (Some _ :: _) => False
        | _ => True
        end
    end.
Proof.
  intros chat query chunks Hchunks. unfold generatePreciseAnswer, bind.
  destruct (chat query chunks) as [[|[text|] choices]|e]; cbn; try exact I.
  split; [exists choices; reflexivity |]. split; [reflexivity |].
  destruct (extractCitations text chunks) as [|c l] eqn:Hcit.
  - left. split; reflexivity.
  - right. split; [discriminate |].
    destruct (confidence_of_ratio c l chunks) as [H0 [H1 [Hone [_ ->]]]].
    set (r := (inject_Z _ / inject_Z _)%Q) in *.
    destruct chunks as [|s chunks]; [congruence |].
    assert (E : (Qmin (r * (7 # 10) + (3 # 10)) 1
                 == r * (7 # 10) + (3 # 10))%Q).
    { rewrite Q.min_l by lra. reflexivity. }
    split; [rewrite E; lra |]. split; [rewrite E; lra |].
    rewrite E, <- Hone. split; intros H; lra.
Qed.

Lemma precise_answer_confidence_witness :
  match generatePreciseAnswer (fun _ _ => Resolved [Some cited_answer])
          (lit "joie") two_sources with
  | Resolved r =>
      (exists others,
          Resolved [Some cited_answer] = Resolved (Some (answer r) :: others))
      /\ citations r = extractCitations (answer r) two_sources
      /\ ((citations r = [] /\ confidence r = 1 # 10)
          \/ (citations r <> []
              /\ (3 # 10 <= confidence r)%Q /\ (confidence r <= 1)%Q
              /\ ((confidence r == 1)%Q <-> all_verified (citations r))))
  | Rejected _ => True
  end.
Proof.
  apply (precise_answer_confidence (fun _ _ => Resolved [Some cited_answer])
           (lit "joie") two_sources).
  discriminate.
Defined.

(** In binary64 the three levels are exact: all citations verified with
    chunks gives 1, none verified gives 0.3 with chunks and 0 without.
    One verified citation of two gives a number just below 0.65. *)
Example confidence_binary64 :
  (Confidence64.calculateConfidence64 2 2 (3 / 10) = 1
   /\ Confidence64.calculateConfidence64 0 2 (3 / 10) = 3 / 10
   /\ Confidence64.calculateConfidence64 0 2 0 = 0
   /\ (Confidence64.calculateConfidence64 1 2 (3 / 10) <? 13 / 20) = true
   /\ (16 / 25 <? Confidence64.calculateConfidence64 1 2 (3 / 10)) = true)%float.
Proof. repeat split; vm_compute; reflexivity. Qed.

End OpenRouterFacts.

(* ===================================================================== *)
(** * Properties of the logger                                         *)
(* ===================================================================== *)

Section LoggerFacts.

Import Logger LoggerSpec.
Open Scope string_scope.
Open Scope Z_scope.

Lemma LOG_LEVELS_name l : LOG_LEVELS (name l) = Some (rank l).
Proof. destruct l; reflexivity. Qed.

(** Errors are always written.  When [LOG_LEVEL] names one of the four
    levels, a message is written exactly when its level is at most as
    verbose; when it names none of them nothing is filtered, debug
    messages included; when it is unset or empty, everything but debug
    messages is written. *)
Theorem log_level_filter :
  forall (env_LOG_LEVEL : option string) (l : level),
    writes env_LOG_LEVEL Error = true
    /\ (forall threshold,
          configured env_LOG_LEVEL = name threshold ->
          (writes env_LOG_LEVEL l = true <-> rank l <= rank threshold))
    /\ (~ names_a_level env_LOG_LEVEL -> writes env_LOG_LEVEL l = true)
    /\ (env_LOG_LEVEL = None \/ env_LOG_LEVEL = Some "" ->
        (writes env_LOG_LEVEL l = true <-> l <> Debug)).
Proof.
  intros env l. unfold writes, filtered_out.
  split; [| split; [| split]].
  - cbn [name]. change (LOG_LEVELS "error") with (Some 0).
    destruct (LOG_LEVELS (configured env)) as [t|] eqn:Ht; [| reflexivity].
    assert (0 <= t).
    { unfold LOG_LEVELS in Ht.
      repeat match type of Ht with
             | (if ?b then _ else _) = _ => destruct b
             end; inversion Ht; lia. }
    apply negb_true_iff, Z.ltb_ge. assumption.
  - intros threshold ->. rewrite !LOG_LEVELS_name, negb_true_iff, Z.ltb_ge.
    reflexivity.
  - intros Hunknown. rewrite LOG_LEVELS_name.
    destruct (LOG_LEVELS (configured env)) as [t|] eqn:Ht; [| reflexivity].
    exfalso. apply Hunknown. unfold LOG_LEVELS in Ht.
    destruct (String.eqb_spec (configured env) "error") as [E|_];
      [exists Error; exact E |].
    destruct (String.eqb_spec (configured env) "warn") as [E|_];
      [exists Warn; exact E |].
    destruct (String.eqb_spec (configured env) "info") as [E|_];
      [exists Info; exact E |].
    destruct (String.eqb_spec (configured env) "debug") as [E|_];
      [exists Debug; exact E |].
    discriminate.
  - intros [-> | ->]; destruct l; cbn; split; congruence.
Qed.

End LoggerFacts.

(* ===================================================================== *)
(** * Properties of the batch store and of the search endpoint         *)
(* ===================================================================== *)

Section VectorStoreFacts.

Import JS VectorStore VectorStoreSpec.

Variables chunk embedding : Type.
Variable generateEmbedding : chunk -> outcome embedding.
Variable pool_connect : outcome unit.
Variable violation :
  list (chunk * embedding) -> chunk * embedding -> option string.

Implicit Types st : connection chunk embedding.

Lemma client_query_dead s st :
  statements_left st = Some O ->
  client_query violation s st = (Rejected "Connection terminated unexpectedly"%string, st).
Proof. intros H. unfold VectorStore.client_query. rewrite H. reflexivity. Qed.

Lemma client_query_served s st :
  statements_left st <> Some O ->
  exists st0,
    client_query violation s st = execute violation s st0
    /\ text_chunks st0 = text_chunks st /\ session st0 = session st
    /\ checked_out st0 = checked_out st.
Proof.
  intros H. unfold VectorStore.client_query.
  destruct (statements_left st) as [[|n]|]; [congruence | |];
    eexists; split; try reflexivity; cbn; auto.
Qed.

Lemma client_query_cases s st :
  client_query violation s st = (Rejected "Connection terminated unexpectedly"%string, st)
     /\ statements_left st = Some O
  \/ exists st0,
       client_query violation s st = execute violation s st0
       /\ text_chunks st0 = text_chunks st /\ session st0 = session st
       /\ checked_out st0 = checked_out st.
Proof.
  destruct (statements_left st) as [[|n]|] eqn:E.
  - left. split; [apply client_query_dead; exact E | reflexivity].
  - right. apply client_query_served. congruence.
  - right. apply client_query_served. congruence.
Qed.

Lemma begin_idle st :
  session st = Idle ->
  match client_query violation BEGIN st with
  | (Resolved _, st') =>
      session st' = Open [] /\ text_chunks st' = text_chunks st
      /\ checked_out st' = checked_out st
  | (Rejected _, st') => st' = st /\ statements_left st = Some O
  end.
Proof.
  intros Hs. destruct (client_query_cases BEGIN st) as [[-> H0] | (st0 & -> & Ht & Hs0 & Hc)].
  - split; [reflexivity | exact H0].
  - unfold execute. rewrite Hs0, Hs. cbn. auto.
Qed.

Lemma insert_open row inserted st :
  session st = Open inserted ->
  match client_query violation (INSERT row) st with
  | (Resolved _, st') =>
      session st' = Open (inserted ++ [row])
      /\ text_chunks st' = text_chunks st /\ checked_out st' = checked_out st
  | (Rejected _, st') =>
      text_chunks st' = text_chunks st /\ checked_out st' = checked_out st
  end.
Proof.
  intros Hs.
  destruct (client_query_cases (INSERT row) st) as [[-> H0] | (st0 & -> & Ht & Hs0 & Hc)].
  - split; reflexivity.
  - unfold execute. rewrite Hs0, Hs.
    destruct (violation (text_chunks st0 ++ inserted) row); cbn; auto.
Qed.

Lemma commit_open inserted st :
  session st = Open inserted ->
  match client_query violation COMMIT st with
  | (Resolved _, st') =>
      session st' = Idle /\ text_chunks st' = text_chunks st ++ inserted
      /\ checked_out st' = checked_out st
  | (Rejected _, st') => st' = st /\ statements_left st = Some O
  end.
Proof.
  intros Hs.
  destruct (client_query_cases COMMIT st) as [[-> H0] | (st0 & -> & Ht & Hs0 & Hc)].
  - split; [reflexivity | exact H0].
  - unfold execute. rewrite Hs0, Hs. cbn. rewrite Ht. auto.
Qed.

Lemma rollback_ends st :
  match client_query violation ROLLBACK st with
  | (Resolved _, st') =>
      session st' = Idle /\ text_chunks st' = text_chunks st
      /\ checked_out st' = checked_out st
  | (Rejected _, st') => st' = st /\ statements_left st = Some O
  end.
Proof.
  destruct (client_query_cases ROLLBACK st) as [[-> H0] | (st0 & -> & Ht & Hs0 & Hc)].
  - split; [reflexivity | exact H0].
  - unfold execute. destruct (session st0); cbn; auto.
Qed.

Lemma store_each_open chunks : forall inserted st,
  session st = Open inserted ->
  match store_each generateEmbedding violation chunks st with
  | (Resolved _, st') =>
      exists rows,
        embedded generateEmbedding chunks rows
        /\ session st' = Open (inserted ++ rows)
        /\ text_chunks st' = text_chunks st /\ checked_out st' = checked_out st
  | (Rejected _, st') =>
      text_chunks st' = text_chunks st /\ checked_out st' = checked_out st
  end.
Proof.
  induction chunks as [|c rest IH]; intros inserted st Hs.
  - cbn. exists []. rewrite app_nil_r. repeat split; auto. constructor.
  - cbn [store_each]. unfold bindPG, storeChunkWithClient.
    destruct (generateEmbedding c) as [e|error] eqn:He; [| split; reflexivity].
    pose proof (insert_open (c, e) inserted st Hs) as Hins.
    destruct (client_query violation (INSERT (c, e)) st) as [[[]|error] st1].
    + destruct Hins as (Hs1 & Ht1 & Hc1).
      specialize (IH _ st1 Hs1).
      destruct (store_each generateEmbedding violation rest st1) as [[[]|error] st2].
      * destruct IH as (rows & Hrows & Hs2 & Ht2 & Hc2).
        exists ((c, e) :: rows). repeat split.
        -- constructor; [split; [reflexivity | exact He] | exact Hrows].
        -- rewrite Hs2, <- app_assoc. reflexivity.
        -- congruence.
        -- congruence.
      * destruct IH as (Ht2 & Hc2). split; congruence.
    + exact Hins.
Qed.

(** On a client that is not inside a transaction, [storeChunksBatch]
    stores all the chunks or none: when it resolves, the table has
    gained one row per chunk, in order, each with the embedding of its
    chunk; when it rejects, the table is as before and the transaction
    is closed unless the connection is lost.  In both cases every client
    taken from the pool has been released. *)
Theorem batch_is_stored_whole_or_not_at_all :
  forall (chunks : list chunk) st,
    session st = Idle ->
    let '(result, st') :=
      storeChunksBatch generateEmbedding pool_connect violation chunks st in
    checked_out st' = checked_out st
    /\ match result with
       | Resolved _ =>
           exists rows,
             embedded generateEmbedding chunks rows
             /\ text_chunks st' = text_chunks st ++ rows
             /\ session st' = Idle
       | Rejected _ =>
           text_chunks st' = text_chunks st
           /\ (session st' = Idle \/ statements_left st' = Some O)
       end.
Proof.
  intros chunks st Hs. unfold storeChunksBatch.
  destruct pool_connect as [[]|error]; [| auto].
  set (st1 := mkConnection (text_chunks st) (session st) (statements_left st)
                (S (checked_out st))).
  assert (Hs1 : session st1 = Idle) by exact Hs.
  assert (Ht1 : text_chunks st1 = text_chunks st) by reflexivity.
  assert (Hc1 : checked_out st1 = S (checked_out st)) by reflexivity.
  clearbody st1. unfold bindPG, release.
  pose proof (begin_idle st1 Hs1) as Hb.
  destruct (client_query violation BEGIN st1) as [[[]|error] st2].
  - destruct Hb as (Hs2 & Ht2 & Hc2).
    pose proof (store_each_open chunks [] st2 Hs2) as He.
    destruct (store_each generateEmbedding violation chunks st2)
      as [[[]|error] st3].
    + destruct He as (rows & Hrows & Hs3 & Ht3 & Hc3). cbn [app] in Hs3.
      pose proof (commit_open rows st3 Hs3) as Hcm.
      destruct (client_query violation COMMIT st3) as [[[]|error] st4].
      * destruct Hcm as (Hs4 & Ht4 & Hc4).
        cbn [checked_out text_chunks session statements_left].
        split; [rewrite Hc4, Hc3, Hc2, Hc1; reflexivity |].
        exists rows. repeat split; [exact Hrows | | exact Hs4].
        rewrite Ht4, Ht3, Ht2, Ht1. reflexivity.
      * destruct Hcm as [-> H0].
        rewrite (client_query_dead ROLLBACK st3 H0).
        cbn [checked_out text_chunks session statements_left].
        split; [rewrite Hc3, Hc2, Hc1; reflexivity |].
        split; [congruence | right; exact H0].
    + destruct He as (Ht3 & Hc3).
      pose proof (rollback_ends st3) as Hr.
      destruct (client_query violation ROLLBACK st3) as [[[]|error'] st4].
      * destruct Hr as (Hs4 & Ht4 & Hc4).
        cbn [checked_out text_chunks session statements_left].
        split; [rewrite Hc4, Hc3, Hc2, Hc1; reflexivity |].
        split; [congruence | left; exact Hs4].
      * destruct Hr as [-> H0].
        cbn [checked_out text_chunks session statements_left].
        split; [rewrite Hc3, Hc2, Hc1; reflexivity |].
        split; [congruence | right; exact H0].
  - destruct Hb as [-> H0].
    rewrite (client_query_dead ROLLBACK st1 H0).
    cbn [checked_out text_chunks session statements_left].
    split; [rewrite Hc1; reflexivity |].
    split; [exact Ht1 | right; exact H0].
Qed.

End VectorStoreFacts.

Lemma batch_is_stored_whole_or_not_at_all_witness :
  VectorStore.session VectorStoreSpec.one_row_store = VectorStore.Idle
  /\ (let '(result, st') :=
        VectorStore.storeChunksBatch (fun c => JS.Resolved (c * 10)%nat)
          (JS.Resolved tt) VectorStoreSpec.duplicate_key [2; 1; 3]%nat
          VectorStoreSpec.one_row_store in
      VectorStore.checked_out st'
      = VectorStore.checked_out VectorStoreSpec.one_row_store
      /\ match result with
         | JS.Resolved _ =>
             exists rows,
               VectorStoreSpec.embedded (fun c => JS.Resolved (c * 10)%nat)
                 [2; 1; 3]%nat rows
               /\ VectorStore.text_chunks st'
                  = VectorStore.text_chunks VectorStoreSpec.one_row_store ++ rows
               /\ VectorStore.session st' = VectorStore.Idle
         | JS.Rejected _ =>
             VectorStore.text_chunks st'
             = VectorStore.text_chunks VectorStoreSpec.one_row_store
             /\ (VectorStore.session st' = VectorStore.Idle
                 \/ VectorStore.statements_left st' = Some O)
         end).
Proof.
  split; [reflexivity |].
  exact (batch_is_stored_whole_or_not_at_all nat nat
           (fun c => JS.Resolved (c * 10)%nat) (JS.Resolved tt)
           VectorStoreSpec.duplicate_key [2; 1; 3]%nat
           VectorStoreSpec.one_row_store eq_refl).
Defined.

Section SearchFacts.

Import JS Chunker SearchRoute SearchSpec.
Open Scope list_scope.

Lemma preview_length n s : (List.length (preview n s) <= n + 3)%nat.
Proof.
  unfold preview. rewrite length_app.
  pose proof (firstn_le_length n s) as H1.
  assert (H2 : (List.length (firstn n s) <= n)%nat).
  { rewrite length_firstn. apply Nat.le_min_l. }
  change (List.length (lit "...")) with 3%nat. lia.
Qed.

Lemma preview_dots n s : ends_with_dots (preview n s).
Proof. exists (firstn n s). reflexivity. Qed.

Lemma hebrew_preview_shape h :
  ends_with_dots (hebrew_preview_of h)
  /\ (List.length (hebrew_preview_of h) <= 203)%nat.
Proof.
  destruct h as [h|]; cbn [hebrew_preview_of].
  - split; [apply preview_dots | apply (preview_length 200)].
  - split; [exists (lit "undefined"); reflexivity | cbn; lia].
Qed.

Lemma same_text_spec a : forall b, same_text a b = true <-> a = b.
Proof.
  induction a as [|x a IH]; intros [|y b]; cbn; try (split; congruence).
  rewrite andb_true_iff, N.eqb_eq, IH. split.
  - intros [-> ->]. reflexivity.
  - intros E. injection E as -> ->. auto.
Qed.

Ltac bind_conditions :=
  repeat match goal with
         | |- Forall _ [] => constructor
         | |- Forall _ (_ :: _) => constructor
         | |- binds _ _ _ =>
             cbn [binds books themes minScore]; eexists;
             split; [reflexivity | split; [| reflexivity]]
         | |- _ :: _ <> [] => discriminate
         | H : Qeq_bool ?q 0 = false |- ~ ?q == 0 =>
             apply Qeq_bool_neq; exact H
         end.

Ltac distinct_placeholders :=
  repeat match goal with
         | |- NoDup [] => constructor
         | |- NoDup (_ :: _) => constructor
         | |- ~ In _ _ => cbn; intuition discriminate
         end.

(** In the statements of [VectorSearchService.search] and of
    [keywordSearch], [$1] is the embedding or the query text, the
    placeholder of [LIMIT] is the last parameter and holds the limit,
    there is one condition per filter that is set, no two conditions
    share a placeholder, and the placeholder of each condition holds the
    value of its filter. *)
Theorem search_statements_bind_every_placeholder :
  forall (queryEmbedding : list Q) (query : jsstring) (limit : Z)
         (f : filters) (books themes : list jsstring),
    well_bound (Embedding queryEmbedding) limit f
      (similarity_statement queryEmbedding limit f)
    /\ well_bound (Text query) limit (mkFilters (Items books) (Items themes) None)
         (keyword_statement query books themes limit).
Proof.
  intros e query limit f books themes. split.
  - destruct f as [[| |[|b bs]] [| |[|t ts]] [q|]];
      try (destruct (Qeq_bool q 0) eqn:Hq);
      unfold well_bound, similarity_statement, active;
      cbn [SearchRoute.books SearchRoute.themes minScore non_empty push finish
           conditions params limit_placeholder app List.length List.filter
           List.map placeholder negb];
      try rewrite Hq;
      cbn [SearchRoute.books SearchRoute.themes minScore non_empty push finish
           conditions params limit_placeholder app List.length List.filter
           List.map placeholder negb];
      (split; [reflexivity |]); (split; [reflexivity |]);
      (split; [reflexivity |]); (split; [reflexivity |]);
      (split; [reflexivity |]);
      (split; [distinct_placeholders | bind_conditions]).
  - destruct books as [|b bs]; destruct themes as [|t ts];
      unfold well_bound, keyword_statement, active;
      cbn [SearchRoute.books SearchRoute.themes minScore non_empty push finish
           conditions params limit_placeholder app List.length List.filter
           List.map placeholder negb];
      (split; [reflexivity |]); (split; [reflexivity |]);
      (split; [reflexivity |]); (split; [reflexivity |]);
      (split; [reflexivity |]);
      (split; [distinct_placeholders | bind_conditions]).
Qed.

(** A keyword search never ends in an error response: a failure of the
    store, or [null] for [books] or [themes], gives an empty result
    list.  The results are the rows in order, and the [hebrew_text] of
    every result is the text [undefined...]. *)
Theorem keyword_search_answers_without_hebrew :
  forall (w : backend) (req : request) (q t : jsstring),
    keyword_request req q t ->
    exists results,
      search_route w req = Results q results (List.length results) t
      /\ Forall (fun s => hebrew_preview s = lit "undefined...") results
      /\ (req_books req = Null \/ req_themes req = Null -> results = [])
      /\ (forall books themes,
            array_or_default (req_books req) = Items books ->
            array_or_default (req_themes req) = Items themes ->
            match
              matching_rows w
                (keyword_statement q books themes
                   (match limit req with Some n => n | None => 20%Z end))
            with
            | Resolved rows =>
                List.map sum_id results = List.map kw_id rows
                /\ List.map content_preview results
                   = List.map (fun row => preview 300 (kw_content row)) rows
            | Rejected _ => results = []
            end).
Proof.
  intros w req q t (Hq & Hne & Ht & Hkw).
  unfold search_route. rewrite Hq, Ht, Hkw.
  destruct q as [|c q]; [congruence |].
  set (n := match limit req with Some n => n | None => 20%Z end).
  unfold keywordSearch.
  assert (Hidem : forall a, array_or_default (array_or_default a)
                            = array_or_default a) by (intros []; reflexivity).
  rewrite !Hidem.
  destruct (req_books req) as [| |books] eqn:Hb;
    destruct (req_themes req) as [| |themes] eqn:Hth;
    cbn [array_or_default try_catch];
    try (exists []; repeat split;
         [constructor | intros; congruence]);
    try (exists []; repeat split; [constructor | intros; discriminate]).
  all: match goal with
       | |- context [matching_rows ?b ?s] =>
           destruct (matching_rows b s) as [rows|error] eqn:Hrows
       end.
  all: cbn [bind try_catch].
  all: try (exists []; split; [reflexivity |]; split; [constructor |];
            split; [intros [?|?]; discriminate |];
            intros books' themes' Eb Et;
            injection Eb as <-; injection Et as <-;
            fold n; rewrite Hrows; reflexivity).
  all: match goal with
       | |- exists results, Results _ ?found _ _ = _ /\ _ => exists found
       end;
       split; [f_equal; rewrite !length_map; reflexivity |];
       split; [apply Forall_forall; intros s Hin;
               apply in_map_iff in Hin; destruct Hin as (x & <- & Hin);
               apply in_map_iff in Hin; destruct Hin as (row & <- & _);
               reflexivity |];
       split; [intros [?|?]; discriminate |];
       intros books' themes' Eb Et;
       injection Eb as <-; injection Et as <-;
       fold n; rewrite Hrows; rewrite !map_map; split; reflexivity.
Qed.

(** A semantic search either reports the failure of the embedding
    provider or of the store as [Vector search failed: ...], or answers
    with one result per row, in order; every content preview has at most
    303 characters, every Hebrew preview at most 203, and both end in
    three dots whether or not something was cut. *)
Theorem semantic_search_answers_or_reports :
  forall (w : backend) (req : request) (q : jsstring),
    semantic_request req q ->
    let f :=
      mkFilters (array_or_default (req_books req))
        (array_or_default (req_themes req)) None in
    let n := match limit req with Some n => n | None => 20%Z end in
    match search_route w req with
    | BadRequest => False
    | Results q' results total t =>
        q' = q /\ t = lit "semantic" /\ total = List.length results
        /\ (exists e rows,
              generateEmbedding w q = Resolved e
              /\ similar_rows w (similarity_statement e n f) = Resolved rows
              /\ List.map sum_id results = List.map row_id rows)
        /\ Forall
             (fun s =>
                ends_with_dots (content_preview s)
                /\ (List.length (content_preview s) <= 303)%nat
                /\ ends_with_dots (hebrew_preview s)
                /\ (List.length (hebrew_preview s) <= 203)%nat)
             results
    | SearchFailed message =>
        exists cause,
          message = String.append "Vector search failed: " cause
          /\ (generateEmbedding w q = Rejected cause
              \/ exists e,
                   generateEmbedding w q = Resolved e
                   /\ similar_rows w (similarity_statement e n f)
                      = Rejected cause)
    end.
Proof.
  intros w req q (Hq & Hne & Ht) f n.
  unfold search_route. rewrite Hq.
  destruct q as [|c q]; [congruence |].
  assert (Hsem : match searchType req with
                 | Some t => t
                 | None => lit "semantic"
                 end = lit "semantic")
    by (destruct Ht as [-> | ->]; reflexivity).
  rewrite Hsem.
  change (same_text (lit "semantic") (lit "semantic")) with true.
  cbv iota. fold n. fold f. unfold search.
  destruct (generateEmbedding w (c :: q)) as [e|cause] eqn:He;
    cbn [bind try_catch].
  - destruct (similar_rows w (similarity_statement e n f)) as [rows|cause]
      eqn:Hrows; cbn [bind try_catch].
    + split; [reflexivity |]. split; [reflexivity |].
      split; [rewrite !length_map; reflexivity |]. split.
      * exists e, rows. split; [reflexivity |]. split; [exact Hrows |].
        rewrite !map_map. reflexivity.
      * apply Forall_forall. intros s Hin.
        apply in_map_iff in Hin. destruct Hin as (x & <- & _).
        cbn [summarise content_preview hebrew_preview].
        pose proof (hebrew_preview_shape (hebrew_text x)) as [H1 H2].
        repeat split;
          [apply preview_dots | apply (preview_length 300) | exact H1 | exact H2].
    + exists cause. split; [reflexivity |]. right. exists e. auto.
  - exists cause. split; [reflexivity |]. left. reflexivity.
Qed.

End SearchFacts.

Lemma keyword_search_answers_without_hebrew_witness :
  SearchSpec.keyword_request
    (SearchRoute.mkRequest (Some (Chunker.lit "joy")) SearchRoute.Undefined
       SearchRoute.Null (Some (Chunker.lit "keyword")) None)
    (Chunker.lit "joy") (Chunker.lit "keyword")
  /\ exists results,
       SearchRoute.search_route SearchSpec.store_up
         (SearchRoute.mkRequest (Some (Chunker.lit "joy")) SearchRoute.Undefined
            SearchRoute.Null (Some (Chunker.lit "keyword")) None)
       = SearchRoute.Results (Chunker.lit "joy") results (List.length results)
           (Chunker.lit "keyword")
       /\ results = [].
Proof.
  assert (H : SearchSpec.keyword_request
                (SearchRoute.mkRequest (Some (Chunker.lit "joy"))
                   SearchRoute.Undefined SearchRoute.Null
                   (Some (Chunker.lit "keyword")) None)
                (Chunker.lit "joy") (Chunker.lit "keyword")).
  { repeat split. discriminate. }
  split; [exact H |].
  destruct (keyword_search_answers_without_hebrew SearchSpec.store_up _ _ _ H)
    as (results & Hres & _ & Hnull & _).
  exists results. split; [exact Hres | apply Hnull; right; reflexivity].
Defined.

Lemma semantic_search_answers_or_reports_witness :
  SearchSpec.semantic_request
    (SearchRoute.mkRequest (Some (Chunker.lit "joy")) SearchRoute.Undefined
       SearchRoute.Undefined None None)
    (Chunker.lit "joy")
  /\ match
       SearchRoute.search_route SearchSpec.store_down
         (SearchRoute.mkRequest (Some (Chunker.lit "joy")) SearchRoute.Undefined
            SearchRoute.Undefined None None)
     with
     | SearchRoute.SearchFailed message =>
         exists cause,
           message = String.append "Vector search failed: " cause
           /\ cause = "No API key"%string
     | _ => False
     end.
Proof.
  assert (H : SearchSpec.semantic_request
                (SearchRoute.mkRequest (Some (Chunker.lit "joy"))
                   SearchRoute.Undefined SearchRoute.Undefined None None)
                (Chunker.lit "joy")).
  { repeat split. discriminate. left. reflexivity. }
  split; [exact H |].
  pose proof (semantic_search_answers_or_reports SearchSpec.store_down _ _ H)
    as Hthm.
  cbv zeta in Hthm.
  destruct (SearchRoute.search_route SearchSpec.store_down
              (SearchRoute.mkRequest (Some (Chunker.lit "joy"))
                 SearchRoute.Undefined SearchRoute.Undefined None None))
    as [|q' results total t|message]; [exact Hthm | |].
  - exfalso. destruct Hthm as (_ & _ & _ & (e & rows & He & _) & _).
    discriminate He.
  - destruct Hthm as (cause & Hm & [Hc | (e & He & _)]).
    + exists cause. split; [exact Hm |]. injection Hc as <-. reflexivity.
    + discriminate He.
Defined.
